(** * Surgical document patcher of the Orion ship data editor

    A shallow embedding of the text-splicing core of [shipDataEditor.py]:
    the bracket/quote/comment aware scanners, the regular-expression driven
    field patchers, the record mutator (insert / delete / update) and the
    banner stamp, followed by the properties proved about them.

    Conventions.
    - A document is a Python [str]; it is modelled as a list of characters.
      Characters are the code points below 256, so [isspace] and the
      regular-expression class for white space list the white-space code
      points of that range.
    - Offsets that the source never lets go below zero are [nat]; the two
      backward loops of the mutator, whose cursor can reach [-1], use [Z].
    - [str.find] returning [-1] is [None].
    - Loops are written with an explicit iteration budget.  The forward
      scanners return [OutOfFuel] when the budget is exhausted, so that a
      result [Done r] is always a result the Python loop really produces.
    - In the literals given to [doc] and [lines], the character [~] stands
      for a double quote; [lines] joins its lines with line feeds. *)

From Stdlib Require Import Ascii String DecimalString Bool Arith ZArith Lia List.
Import ListNotations.
Open Scope list_scope.

Set Implicit Arguments.

(** ** Characters and text *)

Definition text := list ascii.

Definition LF : ascii := "010"%char.
Definition CR : ascii := "013"%char.
Definition TAB : ascii := "009"%char.
Definition DQ : ascii := "034"%char.
Definition SQ : ascii := "039"%char.
Definition BSL : ascii := "092"%char.

Definition str (s : string) : text := list_ascii_of_string s.
Arguments str s%_string.

(** Literal helpers for documents: in [doc s] the character [~] is a
    double quote; [lines] joins such literals with line feeds. *)
Definition doc (s : string) : text :=
  map (fun c => if Ascii.eqb c "~"%char then DQ else c) (list_ascii_of_string s).
Arguments doc s%_string.

Fixpoint lines (ls : list string) : text :=
  match ls with
  | [] => []
  | [l] => doc l
  | l :: ls' => doc l ++ LF :: lines ls'
  end.

Fixpoint text_eqb (a b : text) : bool :=
  match a, b with
  | [], [] => true
  | x :: a', y :: b' => Ascii.eqb x y && text_eqb a' b'
  | _, _ => false
  end.

(** [str.isspace] on one character (code points below 256). *)
Definition isspace (c : ascii) : bool :=
  let n := nat_of_ascii c in
  ((9 <=? n) && (n <=? 13)) || ((28 <=? n) && (n <=? 32))
  || (n =? 133) || (n =? 160).

(** [t[a:b]] for offsets in range order. *)
Definition slice (t : text) (a b : nat) : text := firstn (b - a) (skipn a t).

(** [t.startswith(s)] *)
Fixpoint prefix_of (s t : text) : bool :=
  match s, t with
  | [], _ => true
  | x :: s', y :: t' => Ascii.eqb x y && prefix_of s' t'
  | _ :: _, [] => false
  end.

(** [t.startswith(s, i)] *)
Definition startswith (t s : text) (i : nat) : bool :=
  (i <=? length t) && prefix_of s (skipn i t).

Fixpoint find_aux (sub s : text) (i : nat) : option nat :=
  if prefix_of sub s then Some i
  else match s with
       | [] => None
       | _ :: s' => find_aux sub s' (S i)
       end.

(** [t.find(sub, from)], [None] for [-1]. *)
Definition find (t sub : text) (from : nat) : option nat :=
  if from <=? length t then find_aux sub (skipn from t) from else None.

(** [sub in t] *)
Definition contains (t sub : text) : bool :=
  match find t sub 0 with Some _ => true | None => false end.

(** [t.rfind(c, 0, stop) + 1] for a one-character needle: the offset just
    after the last [c] before [stop], or [0]. *)
Fixpoint after_last (c : ascii) (t : text) (stop : nat) : nat :=
  match stop with
  | O => O
  | S k => match nth_error t k with
           | Some x => if Ascii.eqb x c then S k else after_last c t k
           | None => after_last c t k
           end
  end.

(** Python indexing [t[i]] with an [int] index: a negative index counts from
    the end; [None] is [IndexError]. *)
Definition py_index (t : text) (i : Z) : option ascii :=
  let n := Z.of_nat (length t) in
  if (0 <=? i)%Z then nth_error t (Z.to_nat i)
  else if (0 <=? n + i)%Z then nth_error t (Z.to_nat (n + i))
  else None.

(** Result of a loop run with an iteration budget. *)
Inductive scan (A : Type) : Type :=
| Done (a : A)
| OutOfFuel.
Arguments OutOfFuel {A}.

Definition scan_bind (A B : Type) (m : scan A) (k : A -> scan B) : scan B :=
  match m with
  | Done a => k a
  | OutOfFuel => OutOfFuel
  end.

Notation "x <- m ;; k" := (scan_bind m (fun x => k))
  (at level 61, m at next level, right associativity).

(** ** Quote/comment aware bracket balancing

    The source has three copies of the same forward loop: in
    [_extract_ship_list_region] (brackets), in [find_object_bounds]
    (braces) and in [_patch_list_in_block] (brackets).  They differ in the
    pair of delimiters, in the two comment-skipping helpers and in the
    constant the escape test compares with; [balance] is the loop with
    those taken as parameters. *)

Module Scanner.

(** Comment skipping of [_extract_ship_list_region] ([str.find] based):
    a line comment is skipped past its line feed. *)
Definition skip_line_find (t : text) (j : nat) : nat :=
  match find t [LF] j with
  | None => length t
  | Some nl => nl + 1
  end.

Definition skip_block_find (t : text) (j : nat) : nat :=
  match find t (str "*/") (j + 2) with
  | None => length t
  | Some e => e + 2
  end.

(** Comment skipping of [find_object_bounds] and [_patch_list_in_block]
    (character loops): a line comment is skipped up to its line feed. *)
Fixpoint to_line_feed (s : text) : nat :=
  match s with
  | [] => 0
  | c :: s' => if Ascii.eqb c LF then 0 else S (to_line_feed s')
  end.

Definition skip_line_loop (t : text) (j : nat) : nat :=
  j + to_line_feed (skipn j t).

Fixpoint star_slash (s : text) (j : nat) : option nat :=
  match s with
  | c1 :: s' =>
      match s' with
      | c2 :: _ => if Ascii.eqb c1 "*" && Ascii.eqb c2 "/" then Some (j + 2)
                   else star_slash s' (S j)
      | [] => None
      end
  | [] => None
  end.

Definition skip_block_loop (t : text) (j : nat) : nat :=
  match star_slash (skipn (j + 2) t) (j + 2) with
  | Some e => e
  | None => length t
  end.

Record lexer : Type := Lexer
  { skip_line : text -> nat -> nat;
    skip_block : text -> nat -> nat;
    escape_lead : ascii -> bool;
    opener : ascii;
    closer : ascii }.

Record bstate : Type := BState
  { depth : Z; in_dq : bool; in_sq : bool; esc : bool }.

Definition bstate0 : bstate := BState 0 false false false.

(** The balancing loop from offset [k].  [Done (Some e)]: the delimiter that
    brings the depth back to zero is at [e - 1]; [Done None]: the text ended
    first. *)
Fixpoint balance (lx : lexer) (t : text) (fuel k : nat) (st : bstate)
  : scan (option nat) :=
  match fuel with
  | O => OutOfFuel
  | S f =>
      match nth_error t k with
      | None => Done None
      | Some ch =>
          let quoted := in_dq st || in_sq st in
          if negb quoted
             && (text_eqb (slice t k (k + 2)) (str "//") || Ascii.eqb ch "#") then
            balance lx t f (skip_line lx t k) st
          else if negb quoted && text_eqb (slice t k (k + 2)) (str "/*") then
            balance lx t f (skip_block lx t k) st
          else if quoted then
            if esc st then
              balance lx t f (k + 1) (BState (depth st) (in_dq st) (in_sq st) false)
            else if escape_lead lx ch then
              balance lx t f (k + 1) (BState (depth st) (in_dq st) (in_sq st) true)
            else if in_dq st && Ascii.eqb ch DQ then
              balance lx t f (k + 1) (BState (depth st) false (in_sq st) (esc st))
            else if in_sq st && Ascii.eqb ch SQ then
              balance lx t f (k + 1) (BState (depth st) (in_dq st) false (esc st))
            else balance lx t f (k + 1) st
          else
            if Ascii.eqb ch DQ then
              balance lx t f (k + 1) (BState (depth st) true (in_sq st) (esc st))
            else if Ascii.eqb ch SQ then
              balance lx t f (k + 1) (BState (depth st) (in_dq st) true (esc st))
            else if Ascii.eqb ch (opener lx) then
              balance lx t f (k + 1)
                      (BState (depth st + 1) (in_dq st) (in_sq st) (esc st))
            else if Ascii.eqb ch (closer lx) then
              if (depth st - 1 =? 0)%Z then Done (Some (k + 1))
              else balance lx t f (k + 1)
                           (BState (depth st - 1) (in_dq st) (in_sq st) (esc st))
            else balance lx t f (k + 1) st
      end
  end.

(** The escape test [ch == '\\'] of [find_object_bounds] and
    [_patch_list_in_block]: one backslash. *)
Definition is_backslash (ch : ascii) : bool := text_eqb [ch] [BSL].

(** The escape test of [_extract_ship_list_region], whose literal is
    written with four backslashes: the character is compared with the
    two-character string made of two backslashes. *)
Definition is_two_backslashes (ch : ascii) : bool := text_eqb [ch] [BSL; BSL].

Definition region_lexer : lexer :=
  Lexer skip_line_find skip_block_find is_two_backslashes "[" "]".

Definition object_lexer : lexer :=
  Lexer skip_line_loop skip_block_loop is_backslash "{" "}".

Definition list_lexer : lexer :=
  Lexer skip_line_loop skip_block_loop is_backslash "[" "]".

End Scanner.

(** ** Region locator: [_extract_ship_list_region] *)

Module Region.

Import Scanner.

Definition keys : list text :=
  [ DQ :: str "#ship-list" ++ [DQ];
    SQ :: str "#ship-list" ++ [SQ];
    str "#ship-list";
    DQ :: str "ship-list" ++ [DQ];
    SQ :: str "ship-list" ++ [SQ];
    str "ship-list" ].

(** The [for k in keys] loop: first key (in list order) that occurs. *)
Fixpoint first_key (t : text) (ks : list text) : option (nat * nat) :=
  match ks with
  | [] => None
  | k :: ks' => match find t k 0 with
                | Some p => Some (p, length k)
                | None => first_key t ks'
                end
  end.

(** The loop that advances to the first significant token after the colon.
    [Done (Some i)]: it stopped on a bracket at [i]; [Done None]: the
    function returns [None]. *)
Fixpoint skip_to_open (t : text) (fuel i : nat) : scan (option nat) :=
  match fuel with
  | O => OutOfFuel
  | S f =>
      match nth_error t i with
      | None => Done None
      | Some ch =>
          if isspace ch then skip_to_open t f (i + 1)
          else if startswith t (str "//") i || Ascii.eqb ch "#" then
            skip_to_open t f (skip_line_find t i)
          else if startswith t (str "/*") i then
            skip_to_open t f (skip_block_find t i)
          else if Ascii.eqb ch "[" then Done (Some i)
          else Done None
      end
  end.

(** The first half of the function: key, colon, first significant token.
    [Done (Some i)] when that token is the bracket at offset [i]. *)
Definition locate_open (t : text) : scan (option nat) :=
  match first_key t keys with
  | None => Done None
  | Some (key_pos, key_len) =>
      match find t (str ":") (key_pos + key_len) with
      | None => Done None
      | Some colon => skip_to_open t (S (length t)) (colon + 1)
      end
  end.

Definition _extract_ship_list_region (t : text) : scan (option (nat * nat)) :=
  match locate_open t with
  | OutOfFuel => OutOfFuel
  | Done None => Done None
  | Done (Some i) =>
      match balance region_lexer t (S (length t)) i bstate0 with
      | OutOfFuel => OutOfFuel
      | Done None => Done None
      | Done (Some e) => Done (Some (i, e))
      end
  end.

End Region.

(** ** Top-level object iterator: [_iter_top_level_flow_maps] *)

Module FlowMaps.

Record istate : Type := IState
  { in_q : option ascii; idepth : Z; b_start : option nat }.

Definition istate0 : istate := IState None 0 None.

(** One iteration of the loop body at offset [i] on character [ch]:
    the new state and the span yielded, if any.  [prev] is [text[i-1]]. *)
Definition step (ch : ascii) (prev : option ascii) (i : nat) (st : istate)
  : istate * option (nat * nat) :=
  match in_q st with
  | Some q =>
      if Ascii.eqb ch q
         && negb (match prev with Some p => Ascii.eqb p BSL | None => false end)
      then (IState None (idepth st) (b_start st), None)
      else (st, None)
  | None =>
      if Ascii.eqb ch DQ || Ascii.eqb ch SQ then
        (IState (Some ch) (idepth st) (b_start st), None)
      else if Ascii.eqb ch "{" then
        (IState None (idepth st + 1)
                (if (idepth st =? 0)%Z then Some i else b_start st), None)
      else if Ascii.eqb ch "}" then
        let d := (idepth st - 1)%Z in
        match b_start st with
        | Some b => if (d =? 0)%Z then (IState None d None, Some (b, i + 1))
                    else (IState None d (Some b), None)
        | None => (IState None d None, None)
        end
      else (st, None)
  end.

(** The generator run to exhaustion over [i .. stop): the spans yielded, in
    yield order, and whether the run ended by [IndexError] ([text[i]] read
    past the end of the text). *)
Fixpoint run (t : text) (fuel i stop : nat) (st : istate)
  : list (nat * nat) * bool :=
  match fuel with
  | O => ([], false)
  | S f =>
      if i <? stop then
        match nth_error t i with
        | None => ([], true)
        | Some ch =>
            let '(st', y) := step ch (py_index t (Z.of_nat i - 1)) i st in
            let '(ys, err) := run t f (i + 1) stop st' in
            (match y with Some sp => sp :: ys | None => ys end, err)
        end
      else ([], false)
  end.

Definition _iter_top_level_flow_maps (t : text) (start stop : nat)
  : list (nat * nat) * bool :=
  run t (stop - start) start stop istate0.

End FlowMaps.

(** ** Regular expressions

    Python's [re] is a backtracking matcher.  [ends t r p] lists, in the
    order in which backtracking explores them, the offsets at which a match
    of [r] starting at offset [p] of [t] can end; the match [re] reports is
    the first one.  The loop bodies of the patterns below never match the
    empty string. *)

Module Re.

Inductive regex : Type :=
| Eps
| Chr (f : ascii -> bool)
| Seq (a b : regex)
| Alt (a b : regex)
| Star (a : regex)
| LazyStar (a : regex)
| Bol
| Eol.

Definition Plus (a : regex) : regex := Seq a (Star a).
Definition Opt (a : regex) : regex := Alt a Eps.
Definition Ch (c : ascii) : regex := Chr (Ascii.eqb c).

Fixpoint Lit (s : text) : regex :=
  match s with
  | [] => Eps
  | c :: s' => Seq (Ch c) (Lit s')
  end.

(** [a1|a2|...|an]; the empty alternation is the empty pattern. *)
Fixpoint Alts (rs : list regex) : regex :=
  match rs with
  | [] => Eps
  | [r] => r
  | r :: rs' => Alt r (Alts rs')
  end.

(** [^] and [$] under [re.M]. *)
Definition bol (t : text) (p : nat) : bool :=
  match p with
  | O => true
  | S k => match nth_error t k with
           | Some c => Ascii.eqb c LF
           | None => false
           end
  end.

Definition eol (t : text) (p : nat) : bool :=
  match nth_error t p with
  | Some c => Ascii.eqb c LF
  | None => p =? length t
  end.

(** Greedy and lazy repetition of a step; an iteration must consume. *)
Fixpoint greedy (step : nat -> list nat) (fuel p : nat) : list nat :=
  match fuel with
  | O => [p]
  | S f =>
      flat_map (fun q => if p <? q then greedy step f q else []) (step p) ++ [p]
  end.

Fixpoint lazy (step : nat -> list nat) (fuel p : nat) : list nat :=
  match fuel with
  | O => [p]
  | S f =>
      p :: flat_map (fun q => if p <? q then lazy step f q else []) (step p)
  end.

Fixpoint ends (t : text) (r : regex) (p : nat) {struct r} : list nat :=
  match r with
  | Eps => [p]
  | Chr f => match nth_error t p with
             | Some c => if f c then [S p] else []
             | None => []
             end
  | Seq a b => flat_map (ends t b) (ends t a p)
  | Alt a b => ends t a p ++ ends t b p
  | Star a => greedy (ends t a) (length t - p) p
  | LazyStar a => lazy (ends t a) (length t - p) p
  | Bol => if bol t p then [p] else []
  | Eol => if eol t p then [p] else []
  end.

(** First success of [f] at [p], [p+1], ..., [p+count-1]. *)
Fixpoint first_from (A : Type) (f : nat -> option A) (p count : nat) : option A :=
  match count with
  | O => None
  | S c => match f p with
           | Some a => Some a
           | None => first_from f (S p) c
           end
  end.

Fixpoint first_of (A : Type) (f : nat -> option A) (qs : list nat) : option A :=
  match qs with
  | [] => None
  | q :: qs' => match f q with
                | Some a => Some a
                | None => first_of f qs'
                end
  end.

(** [re.compile(r).search(t, pos)]: [(start, end)] of the first match. *)
Definition search (t : text) (r : regex) (pos : nat) : option (nat * nat) :=
  first_from (fun p => match ends t r p with
                       | e :: _ => Some (p, e)
                       | [] => None
                       end)
             pos (S (length t) - pos).

(** A pattern [(h)(v)] of two adjacent groups: [(start, mid, end)] of the
    first match, [mid] being the end of group 1 and start of group 2. *)
Definition match2_at (t : text) (h v : regex) (p : nat) : option (nat * nat * nat) :=
  first_of (fun q => match ends t v q with
                     | e :: _ => Some (p, q, e)
                     | [] => None
                     end)
           (ends t h p).

Definition search2 (t : text) (h v : regex) (pos : nat) : option (nat * nat * nat) :=
  first_from (match2_at t h v) pos (S (length t) - pos).

(** Character classes. *)
Definition ws : regex := Chr isspace.
Definition any : regex := Chr (fun _ => true).
Definition dot_no_lf : regex := Chr (fun c => negb (Ascii.eqb c LF)).
Definition not_lf : regex := Chr (fun c => negb (Ascii.eqb c LF)).
Definition none_of (cs : list ascii) : regex :=
  Chr (fun c => negb (existsb (Ascii.eqb c) cs)).

(** [(?:\s*(?://[^\n]*|#[^\n]*|/\*.*?\*/))*] under [re.S]. *)
Definition comment : regex :=
  Star (Seq (Star ws)
            (Alt (Seq (Lit (str "//")) (Star not_lf))
                 (Alt (Seq (Ch "#") (Star not_lf))
                      (Seq (Lit (str "/*")) (Seq (LazyStar any) (Lit (str "*/"))))))).

End Re.

(** ** Python values, exceptions and dictionaries *)

Inductive exn : Type :=
| RuntimeError (msg : string)
| TypeError (msg : string)
| AttributeError.

Inductive outcome (A : Type) : Type :=
| Ok (a : A)
| Raise (e : exn).
Arguments Raise {A}.

(** The values a record holds.  A float carries the text [str] gives for
    it; a dictionary keeps its insertion order. *)
#[local] Unset Elimination Schemes.
Inductive pyval : Type :=
| PNone
| PBool (b : bool)
| PInt (z : Z)
| PFloat (repr : text)
| PStr (s : text)
| PList (l : list pyval)
| PDict (d : list (text * pyval)).
#[local] Set Elimination Schemes.

Definition pydict := list (text * pyval).

Module Dict.

Fixpoint get (d : pydict) (k : text) : option pyval :=
  match d with
  | [] => None
  | (k', v) :: d' => if text_eqb k' k then Some v else get d' k
  end.

Definition mem (d : pydict) (k : text) : bool :=
  match get d k with Some _ => true | None => false end.

Fixpoint remove (d : pydict) (k : text) : pydict :=
  match d with
  | [] => []
  | (k', v) :: d' => if text_eqb k' k then d' else (k', v) :: remove d' k
  end.

(** [d[k] = v]: an existing key keeps its place, a new one goes last. *)
Fixpoint set (d : pydict) (k : text) (v : pyval) : pydict :=
  match d with
  | [] => [(k, v)]
  | (k', v') :: d' =>
      if text_eqb k' k then (k', v) :: d' else (k', v') :: set d' k v
  end.

(** [d.update(e)] *)
Definition update (d e : pydict) : pydict :=
  fold_left (fun acc kv => set acc (fst kv) (snd kv)) e d.

(** [d[new] = d.pop(old)] *)
Definition rename (d : pydict) (old new : text) : pydict :=
  match get d old with
  | Some v => set (remove d old) new v
  | None => d
  end.

End Dict.

(** Truth value of a Python object. *)
Definition truthy (v : pyval) : bool :=
  match v with
  | PNone => false
  | PBool b => b
  | PInt z => negb (z =? 0)%Z
  | PFloat r => negb (text_eqb r (str "0.0") || text_eqb r (str "-0.0"))
  | PStr s => negb (text_eqb s [])
  | PList l => match l with [] => false | _ => true end
  | PDict d => match d with [] => false | _ => true end
  end.

(** [a or b] on optional values ([None] of [dict.get] is Python's [None]). *)
Definition py_or (a b : option pyval) : option pyval :=
  match a with
  | Some v => if truthy v then a else b
  | None => b
  end.

Definition dec (z : Z) : text := str (NilZero.string_of_int (Z.to_int z)).

(** ** Scalar/token renderer *)

Module Render.

Fixpoint replace_char (c : ascii) (by_ : text) (s : text) : text :=
  match s with
  | [] => []
  | x :: s' => (if Ascii.eqb x c then by_ else [x]) ++ replace_char c by_ s'
  end.

(** The two [str.replace] calls that escape a value for a double-quoted
    literal: each backslash is doubled, then each double quote gets a
    backslash in front. *)
Definition escape_quoted (s : text) : text :=
  replace_char DQ [BSL; DQ] (replace_char BSL [BSL; BSL] s).

(** [str(v)] for the values that are not containers. *)
Definition str_scalar (v : pyval) : text :=
  match v with
  | PNone => str "None"
  | PBool b => if b then str "True" else str "False"
  | PInt z => dec z
  | PFloat r => r
  | PStr s => s
  | PList _ | PDict _ => []
  end.

Definition _repr_hjson_scalar (v : pyval) : outcome text :=
  match v with
  | PDict _ | PList _ => Raise (TypeError "_repr_hjson_scalar received non-scalar")
  | PBool b => Ok (if b then str "true" else str "false")
  | PInt _ | PFloat _ => Ok (str_scalar v)
  | PNone | PStr _ => Ok (DQ :: escape_quoted (str_scalar v) ++ [DQ])
  end.

Fixpoint join (sep : text) (parts : list text) : text :=
  match parts with
  | [] => []
  | [x] => x
  | x :: rest => x ++ sep ++ join sep rest
  end.

(** [_repr_hjson_list]: compact list of scalars. *)
Fixpoint scalar_parts (arr : list pyval) : outcome (list text) :=
  match arr with
  | [] => Ok []
  | v :: arr' =>
      match _repr_hjson_scalar v with
      | Raise e => Raise e
      | Ok x => match scalar_parts arr' with
                | Raise e => Raise e
                | Ok xs => Ok (x :: xs)
                end
      end
  end.

Definition _repr_hjson_list (arr : list pyval) : outcome text :=
  match scalar_parts arr with
  | Raise e => Raise e
  | Ok parts => Ok (str "[" ++ join (str ", ") parts ++ str "]")
  end.

(** [str.splitlines] (line boundaries with code points below 256). *)
Definition is_line_break (c : ascii) : bool :=
  let n := nat_of_ascii c in
  ((10 <=? n) && (n <=? 13)) || ((28 <=? n) && (n <=? 30)) || (n =? 133).

Fixpoint splitlines_from (s : text) (cur : text) : list text :=
  match s with
  | [] => match cur with [] => [] | _ => [rev cur] end
  | c :: s' =>
      if Ascii.eqb c CR then
        match s' with
        | c2 :: s'' => if Ascii.eqb c2 LF then rev cur :: splitlines_from s'' []
                       else rev cur :: splitlines_from s' []
        | [] => [rev cur]
        end
      else if is_line_break c then rev cur :: splitlines_from s' []
      else splitlines_from s' (c :: cur)
  end.

Definition splitlines (s : text) : list text := splitlines_from s [].

(** [lines[-1] += ','] *)
Fixpoint comma_on_last (lines : list text) : list text :=
  match lines with
  | [] => []
  | [x] => [x ++ str ","]
  | x :: rest => x :: comma_on_last rest
  end.

(** The lines one element contributes: [head] is what precedes the value on
    its first line ([inner], or [inner] + key + colon + space). *)
Definition item_lines (inner head val_str : text) : list text :=
  if contains val_str [LF] then
    match splitlines val_str with
    | [] => []
    | first :: rest =>
        comma_on_last ((head ++ first) :: map (fun r => inner ++ r) rest)
    end
  else [head ++ val_str ++ str ","].

(** [if len(lines) > 1 and lines[-1].endswith(','): lines[-1] = lines[-1][:-1]] *)
Definition ends_with_comma (x : text) : bool :=
  match rev x with
  | c :: _ => Ascii.eqb c ","
  | [] => false
  end.

Fixpoint drop_last_comma (lines : list text) : list text :=
  match lines with
  | [] => []
  | [x] => [if ends_with_comma x then removelast x else x]
  | x :: rest => x :: drop_last_comma rest
  end.

Definition close_map (lines : list text) : list text :=
  if 1 <? length lines then drop_last_comma lines else lines.

Definition map_key (k : text) : text :=
  DQ :: replace_char DQ [BSL; DQ] k ++ [DQ].

(** [_repr_hjson_value_pretty], with [_repr_hjson_map_pretty] and
    [_repr_hjson_list_pretty] as its two container cases. *)
Fixpoint _repr_hjson_value_pretty (step : text) (v : pyval) (indent : text)
  {struct v} : text :=
  match v with
  | PDict d =>
      let inner := indent ++ step in
      let body :=
        (fix items (d : list (text * pyval)) : list text :=
           match d with
           | [] => []
           | (k, val) :: d' =>
               item_lines inner (inner ++ map_key k ++ str ": ")
                          (_repr_hjson_value_pretty step val inner)
               ++ items d'
           end) d in
      join [LF] (close_map (str "{" :: body) ++ [indent ++ str "}"])
  | PList arr =>
      let inner := indent ++ step in
      let body :=
        (fix items (arr : list pyval) : list text :=
           match arr with
           | [] => []
           | x :: arr' =>
               item_lines inner inner (_repr_hjson_value_pretty step x inner)
               ++ items arr'
           end) arr in
      join [LF] (str "[" :: body ++ [indent ++ str "]"])
  | _ => match _repr_hjson_scalar v with
         | Ok s => s
         | Raise _ => []
         end
  end.

Definition default_step : text := str "  ".

Definition _repr_hjson_map_pretty (d : pydict) (indent : text) : text :=
  _repr_hjson_value_pretty default_step (PDict d) indent.

Definition _repr_hjson_list_pretty (arr : list pyval) (indent : text) : text :=
  _repr_hjson_value_pretty default_step (PList arr) indent.

End Render.

(** ** Field patcher *)

Module Patcher.

Import Re Scanner Render.

(** [key_alt]: the escaped key names joined by [|]. *)
Definition key_alt (key_names : list text) : regex := Alts (map Lit key_names).

(** [value_tok] under [re.S], writing [~] for the double quote:
    [~(?:\\.|[^~\\])*~|'(?:\\.|[^'\\])*'+|[^,\r\n}\]]+] *)
Definition value_tok : regex :=
  Alt (Seq (Ch DQ)
           (Seq (Star (Alt (Seq (Ch BSL) any) (none_of [DQ; BSL]))) (Ch DQ)))
      (Alt (Seq (Ch SQ)
                (Seq (Star (Alt (Seq (Ch BSL) any) (none_of [SQ; BSL])))
                     (Plus (Ch SQ))))
           (Plus (none_of [","%char; CR; LF; "}"%char; "]"%char]))).

(** Group 1 of the pattern, writing [~] for the double quote:
    [(?:~(?:key_alt)~|(?:key_alt))\s*:\s*comment] *)
Definition key_head (key_names : list text) : regex :=
  Seq (Alt (Seq (Ch DQ) (Seq (key_alt key_names) (Ch DQ))) (key_alt key_names))
      (Seq (Star ws) (Seq (Ch ":") (Seq (Star ws) comment))).

(** [rx.subn(_repl, block, count=1)] for the pattern
    [(key_head)(value_tok)]: the value token of the first match is replaced. *)
Definition _patch_scalar_in_block (block : text) (key_names : list text)
  (value_str : text) : text * nat :=
  match search2 block (key_head key_names) value_tok 0 with
  | Some (p, q, r) =>
      (firstn p block ++ slice block p q ++ value_str ++ skipn r block, 1)
  | None => (block, 0)
  end.

(** [re.match(r'[ \t]*', s).group(0)] *)
Fixpoint leading_blanks (s : text) : text :=
  match s with
  | c :: s' => if Ascii.eqb c " " || Ascii.eqb c TAB then c :: leading_blanks s'
               else []
  | [] => []
  end.

(** The loop of [_patch_list_in_block] that looks for the opening bracket:
    [Some i] when it stopped on a bracket at [i] or ran off the text
    ([i >= n]), [None] when it met another token (scalar fall-back). *)
Fixpoint seek_bracket (t : text) (fuel i : nat) : scan (option nat) :=
  match fuel with
  | O => OutOfFuel
  | S f =>
      match nth_error t i with
      | None => Done (Some i)
      | Some ch =>
          if text_eqb (slice t i (i + 2)) (str "//") || Ascii.eqb ch "#" then
            seek_bracket t f (skip_line_loop t i)
          else if text_eqb (slice t i (i + 2)) (str "/*") then
            seek_bracket t f (skip_block_loop t i)
          else if isspace ch then seek_bracket t f (i + 1)
          else if Ascii.eqb ch "[" then Done (Some i)
          else Done None
      end
  end.

Definition is_none (A : Type) (o : option A) : bool :=
  match o with None => true | Some _ => false end.

Definition _patch_list_in_block (block : text) (key_names : list text)
  (new_list_str : option text) (new_list_obj : option (list pyval))
  : scan (text * nat) :=
  match search block (key_head key_names) 0 with
  | None => Done (block, 0)
  | Some (_, pos) =>
      let line_start := after_last LF block pos in
      let base_indent := leading_blanks (slice block line_start pos) in
      let rendered_obj (fallback : text) : text :=
        match new_list_str, new_list_obj with
        | None, Some obj => _repr_hjson_list_pretty obj base_indent
        | _, _ => fallback
        end in
      found <- seek_bracket block (S (length block)) pos ;;
      match found with
      | None =>
          Done (_patch_scalar_in_block block key_names
                  (rendered_obj (match new_list_str with
                                 | Some (_ :: _ as x) => x
                                 | _ => str "[]"
                                 end)))
      | Some i =>
          match nth_error block i with
          | Some ch =>
              if Ascii.eqb ch "[" then
                e <- balance list_lexer block (S (length block)) i bstate0 ;;
                match e with
                | Some e =>
                    Done (firstn i block
                          ++ rendered_obj (match new_list_str with
                                           | Some x => x
                                           | None => str "[]"
                                           end)
                          ++ skipn e block, 1)
                | None => Done (block, 0)
                end
              else Done (block, 0)
          | None => Done (block, 0)
          end
      end
  end.

End Patcher.

(** ** Banner stamp: [_upsert_editor_banner_simple] *)

Module Banner.

Import Re Render.

(** The start of the pattern: the line anchor and the group [indent], a
    run of spaces and tabs. *)
Definition banner_indent : regex :=
  Seq Bol (Star (Chr (fun c => Ascii.eqb c " " || Ascii.eqb c TAB))).

(** The rest of the pattern under [re.M] (the dot does not match a line
    feed), writing [~] for the double quote:
    [~?#OrionShipEditor~\s*:\s*~(?:\\.|[^~\\])*~\s*,?\s*$] *)
Definition banner_line : regex :=
  Seq (Opt (Ch DQ))
  (Seq (Lit (str "#OrionShipEditor"))
  (Seq (Ch DQ)
  (Seq (Star ws)
  (Seq (Ch ":")
  (Seq (Star ws)
  (Seq (Ch DQ)
  (Seq (Star (Alt (Seq (Ch BSL) dot_no_lf) (none_of [DQ; BSL])))
  (Seq (Ch DQ)
  (Seq (Star ws)
  (Seq (Opt (Ch ","))
  (Seq (Star ws) Eol))))))))))).

Definition banner_text (banner : text) : text :=
  DQ :: str "#OrionShipEditor" ++ [DQ] ++ str ": " ++ [DQ] ++ banner
     ++ [DQ] ++ str ",".

(** [value] is what [_format_editor_banner_value] returned (it reads the
    clock). *)
Definition _upsert_editor_banner_simple (value : text) (t : text) : text :=
  let lb := if contains t [CR; LF] then [CR; LF] else [LF] in
  let banner := escape_quoted value in
  match search2 t banner_indent banner_line 0 with
  | Some (p, q, r) =>
      firstn p t ++ slice t p q ++ banner_text banner ++ skipn r t
  | None =>
      match find t (str "{") 0 with
      | None => t
      | Some brace =>
          firstn (brace + 1) t
          ++ (lb ++ str "  " ++ banner_text banner)
          ++ skipn (brace + 1) t
      end
  end.

End Banner.

(** ** Record locator: [_iter_object_spans_for_key] *)

Module Locator.

Import Re Scanner.

(** [re.finditer] by start offset: offsets before [pos] (inside the previous
    match) are skipped; [stop m] is the end of match [m]. *)
Fixpoint finditer_from (M : Type) (at_ : nat -> option M) (stop : M -> nat)
  (p count pos : nat) : list M :=
  match count with
  | O => []
  | S c =>
      if p <? pos then finditer_from at_ stop (S p) c pos
      else match at_ p with
           | Some m => m :: finditer_from at_ stop (S p) c (stop m)
           | None => finditer_from at_ stop (S p) c pos
           end
  end.

Definition finditer (M : Type) (t : text) (at_ : nat -> option M)
  (stop : M -> nat) : list M :=
  finditer_from at_ stop 0 (S (length t)) 0.

(** The key part of [key_pat], writing [~] for the double quote:
    [(?:~?[Kk]ey~?)\s*:\s*comment] *)
Definition key_pat_head : regex :=
  Seq (Seq (Opt (Ch DQ))
           (Seq (Chr (fun c => Ascii.eqb c "K" || Ascii.eqb c "k"))
                (Seq (Lit (str "ey")) (Opt (Ch DQ)))))
      (Seq (Star ws) (Seq (Ch ":") (Seq (Star ws) comment))).

(** The inside of a quoted value: a run without quote or backslash, then
    any number of (backslash, any character, such a run). *)
Definition quoted_body (q : ascii) : regex :=
  Seq (Star (none_of [q; BSL]))
      (Star (Seq (Ch BSL) (Seq any (Star (none_of [q; BSL]))))).

Definition quoted_val (q : ascii) : regex :=
  Seq (Ch q) (Seq (quoted_body q) (Ch q)).

(** [[A-Za-z0-9_\-\.]+] *)
Definition is_bare (c : ascii) : bool :=
  let n := nat_of_ascii c in
  ((65 <=? n) && (n <=? 90)) || ((97 <=? n) && (n <=? 122))
  || ((48 <=? n) && (n <=? 57))
  || Ascii.eqb c "_" || Ascii.eqb c "-" || Ascii.eqb c ".".

Definition bare_val : regex := Plus (Chr is_bare).

Record kmatch : Type := KMatch { m_start : nat; m_end : nat; mv : text }.

(** The value group at offset [q]: its end and the text of whichever of
    the groups [dval], [sval], [bval] took part in the match. *)
Definition val_at (t : text) (q : nat) : option (nat * text) :=
  match ends t (quoted_val DQ) q with
  | r :: _ => Some (r, slice t (q + 1) (r - 1))
  | [] =>
      match ends t (quoted_val SQ) q with
      | r :: _ => Some (r, slice t (q + 1) (r - 1))
      | [] =>
          match ends t bare_val q with
          | r :: _ => Some (r, slice t q r)
          | [] => None
          end
      end
  end.

Definition key_pat_at (t : text) (p : nat) : option kmatch :=
  first_of (fun q => match val_at t q with
                     | Some (r, v) => Some (KMatch p r v)
                     | None => None
                     end)
           (ends t key_pat_head p).

(** State of the backward walk of [find_object_bounds]. *)
Definition back_step (ch : ascii) (st : bstate) : bstate + unit :=
  if in_dq st || in_sq st then
    if esc st then inl (BState (depth st) (in_dq st) (in_sq st) false)
    else if is_backslash ch then inl (BState (depth st) (in_dq st) (in_sq st) true)
    else if in_dq st && Ascii.eqb ch DQ then
      inl (BState (depth st) false (in_sq st) (esc st))
    else if in_sq st && Ascii.eqb ch SQ then
      inl (BState (depth st) (in_dq st) false (esc st))
    else inl st
  else
    if Ascii.eqb ch DQ then inl (BState (depth st) true (in_sq st) (esc st))
    else if Ascii.eqb ch SQ then inl (BState (depth st) (in_dq st) true (esc st))
    else if Ascii.eqb ch "}" then
      inl (BState (depth st + 1) (in_dq st) (in_sq st) (esc st))
    else if Ascii.eqb ch "{" then
      if (depth st =? 0)%Z then inr tt
      else inl (BState (depth st - 1) (in_dq st) (in_sq st) (esc st))
    else inl st.

(** The backward walk over offsets [upto - 1], [upto - 2], ..., [0]:
    the offset of the brace at which it breaks. *)
Fixpoint back_walk (t : text) (upto : nat) (st : bstate) : option nat :=
  match upto with
  | O => None
  | S i =>
      match nth_error t i with
      | None => None
      | Some ch =>
          match back_step ch st with
          | inr _ => Some i
          | inl st' => back_walk t i st'
          end
      end
  end.

(** [^\s*\{] under [re.M] *)
Definition line_brace : regex := Seq Bol (Seq (Star ws) (Ch "{")).

(** The fall-back: the last match of [line_brace] in [raw[:anchor]]. *)
Definition last_line_brace (t : text) (anchor : nat) : option nat :=
  let up_to := firstn anchor t in
  match rev (finditer up_to
               (fun p => match ends up_to line_brace p with
                         | e :: _ => Some e
                         | [] => None
                         end)
               (fun e => e)) with
  | e :: _ => Some (e - 1)
  | [] => None
  end.

Definition find_object_bounds (t : text) (anchor : nat)
  : scan (option (nat * nat)) :=
  let start :=
    match back_walk t (S anchor) bstate0 with
    | Some i => Some i
    | None => last_line_brace t anchor
    end in
  match start with
  | None => Done None
  | Some start =>
      e <- balance object_lexer t (S (length t)) start bstate0 ;;
      match e with
      | Some e => Done (Some (start, e))
      | None => Done None
      end
  end.

(** The generator, run to exhaustion as the callers do with [list(...)]. *)
Fixpoint spans_of (t : text) (wanted : text) (ms : list kmatch)
  : scan (list (nat * nat)) :=
  match ms with
  | [] => Done []
  | m :: ms' =>
      if negb (text_eqb (mv m) wanted) then spans_of t wanted ms'
      else
        b <- find_object_bounds t (m_start m) ;;
        rest <- spans_of t wanted ms' ;;
        Done (match b with
              | Some sp => sp :: rest
              | None => rest
              end)
  end.

Definition _iter_object_spans_for_key (raw wanted : text)
  : scan (list (nat * nat)) :=
  spans_of raw wanted (finditer raw (key_pat_at raw) m_end).

End Locator.

(** ** Record mutator: insert, delete, update

    [self._raw_text] is threaded explicitly: each operation takes the
    current value ([None] before a file is loaded) and returns the new one
    with its result.  The final [f.write(self._raw_text)] of the update
    writes exactly the returned text. *)

Section Mutator.

Import Scanner Region FlowMaps Locator Patcher Render Banner.

(** [hjson.loads(block, object_pairs_hook=dict)] of the external hjson
    library, [None] when it raises. *)
Variable hjson_loads : text -> option pydict.

(** [str.casefold] *)
Variable casefold : text -> text.

(** [str(v)] for a list or a dictionary (Python's [repr]). *)
Variable container_str : pyval -> text.

(** What [_format_editor_banner_value] returns at the time of the call. *)
Variable banner_value : text.

Definition py_str (v : pyval) : text :=
  match v with
  | PList _ | PDict _ => container_str v
  | _ => str_scalar v
  end.

Record key_style : Type := KeyStyle
  { ks_key : text; ks_name : text; ks_side : text; ks_artfileroot : text }.

Definition prefer (d : pydict) (upper lower default : text) : text :=
  if Dict.mem d upper then upper
  else if Dict.mem d lower then lower else default.

Definition _deduce_key_style (d : pydict) : key_style :=
  KeyStyle (prefer d (str "Key") (str "key") (str "Key"))
           (prefer d (str "Name") (str "name") (str "name"))
           (prefer d (str "Side") (str "side") (str "side"))
           (prefer d (str "Artfileroot") (str "artfileroot") (str "artfileroot")).

Definition default_key_style : key_style :=
  KeyStyle (str "Key") (str "name") (str "side") (str "artfileroot").

(** The spans of the top-level objects of the array region.  The region's
    offsets lie inside the text, so the iterator does not raise. *)
Definition region_spans (raw : text) (arr_start arr_end : nat)
  : list (nat * nat) :=
  fst (_iter_top_level_flow_maps raw arr_start arr_end).

Definition _ship_list_indentation (raw : text) (arr_start arr_end : nat)
  : text * text * text :=
  let lb := if contains raw [CR; LF] then [CR; LF] else [LF] in
  let line_start := after_last LF raw arr_start in
  let base_indent := slice raw line_start arr_start in
  let item_indent :=
    match region_spans raw arr_start arr_end with
    | (b_start, _) :: _ => slice raw (after_last LF raw b_start) b_start
    | [] => base_indent ++ str "  "
    end in
  (base_indent, item_indent, lb).

Definition ordering : list text :=
  [str "Key"; str "key"; str "Name"; str "name";
   str "Side"; str "side"; str "Artfileroot"; str "artfileroot"].

(** The loop that moves the keys of [ordering] to the front. *)
Fixpoint take_ordered (ks : list text) (d ordered : pydict) : pydict * pydict :=
  match ks with
  | [] => (d, ordered)
  | k :: ks' =>
      match Dict.get d k with
      | Some v => take_ordered ks' (Dict.remove d k) (Dict.set ordered k v)
      | None => take_ordered ks' d ordered
      end
  end.

Definition _render_ship_block (ship_dict : pydict) (item_indent : text) : text :=
  let '(d, ordered) := take_ordered ordering ship_dict [] in
  _repr_hjson_map_pretty (Dict.update ordered d)
    (if 2 <=? length item_indent
     then firstn (length item_indent - 2) item_indent else []).

(** [if old in s and style == new: s[new] = s.pop(old)] *)
Definition restyle (style old new : text) (d : pydict) : pydict :=
  if Dict.mem d old && text_eqb style new then Dict.rename d old new else d.

Definition apply_key_style (st : key_style) (ship : pydict) : pydict :=
  let s := restyle (ks_key st) (str "Key") (str "key") ship in
  let s := restyle (ks_key st) (str "key") (str "Key") s in
  let s := restyle (ks_name st) (str "Name") (str "name") s in
  let s := restyle (ks_name st) (str "name") (str "Name") s in
  let s := restyle (ks_side st) (str "Side") (str "side") s in
  let s := restyle (ks_side st) (str "side") (str "Side") s in
  let s := restyle (ks_artfileroot st) (str "Artfileroot") (str "artfileroot") s in
  restyle (ks_artfileroot st) (str "artfileroot") (str "Artfileroot") s.

(** [(d.get('side') or d.get('Side') or '').casefold()] *)
Definition side_of (d : pydict) : outcome text :=
  match py_or (Dict.get d (str "side")) (Dict.get d (str "Side")) with
  | Some v =>
      if truthy v then
        match v with
        | PStr x => Ok (casefold x)
        | _ => Raise AttributeError
        end
      else Ok (casefold [])
  | None => Ok (casefold [])
  end.

(** The probe for key casing: the first block that parses. *)
Fixpoint probe_style (raw : text) (spans : list (nat * nat)) : key_style :=
  match spans with
  | [] => default_key_style
  | (bs, be) :: rest =>
      match hjson_loads (slice raw bs be) with
      | Some sample => _deduce_key_style sample
      | None => probe_style raw rest
      end
  end.

(** The clustering loop: the end of the last block with the new side. *)
Fixpoint last_same_side (raw new_side : text) (spans : list (nat * nat))
  (acc : option nat) : outcome (option nat) :=
  match spans with
  | [] => Ok acc
  | (bs, be) :: rest =>
      match hjson_loads (slice raw bs be) with
      | None => last_same_side raw new_side rest acc
      | Some d =>
          match side_of d with
          | Raise e => Raise e
          | Ok side_val =>
              last_same_side raw new_side rest
                (if text_eqb side_val new_side then Some be else acc)
          end
      end
  end.

(** [while i > lo and raw[i].isspace(): i -= 1] *)
Fixpoint back_over_space (raw : text) (lo : Z) (fuel : nat) (i : Z) : Z :=
  match fuel with
  | O => i
  | S f =>
      if (lo <? i)%Z
         && match py_index raw i with Some c => isspace c | None => false end
      then back_over_space raw lo f (i - 1)
      else i
  end.

Definition skip_back (raw : text) (lo i : Z) : Z :=
  back_over_space raw lo (Z.to_nat (i - lo)) i.

(** [s.strip()] *)
Fixpoint lstrip (s : text) : text :=
  match s with
  | c :: s' => if isspace c then lstrip s' else s
  | [] => []
  end.

Definition strip (s : text) : text := rev (lstrip (rev (lstrip s))).

Definition is_empty_raw (raw : option text) : bool :=
  match raw with
  | None => true
  | Some [] => true
  | Some _ => false
  end.

(** The result of an operation on [self._raw_text]. *)
Definition effect (A : Type) : Type := scan (outcome A * option text).

Definition _surgical_insert_ship_block (raw0 : option text) (ship : pydict)
  (cluster_by_side : bool) : effect unit :=
  match raw0 with
  | None => Done (Raise (RuntimeError "No raw text captured for surgical insert."), raw0)
  | Some [] => Done (Raise (RuntimeError "No raw text captured for surgical insert."), raw0)
  | Some raw =>
      region <- _extract_ship_list_region raw ;;
      match region with
      | None =>
          Done (Raise (RuntimeError "Could not find #ship-list region for insertion."), raw0)
      | Some (arr_start, arr_end) =>
          let '(_, item_indent, lb) := _ship_list_indentation raw arr_start arr_end in
          let spans := region_spans raw arr_start arr_end in
          let s := apply_key_style (probe_style raw spans) ship in
          match side_of s with
          | Raise e => Done (Raise e, raw0)
          | Ok new_side =>
              match (if cluster_by_side && negb (text_eqb new_side [])
                     then last_same_side raw new_side spans None
                     else Ok None) with
              | Raise e => Done (Raise e, raw0)
              | Ok same_side_last_end =>
                  let '(insertion_pos, trailing_comma_needed) :=
                    match same_side_last_end with
                    | Some e => (e, true)
                    | None =>
                        let insertion_pos := arr_end - 1 in
                        let i := skip_back raw (Z.of_nat arr_start)
                                           (Z.of_nat insertion_pos - 1) in
                        (insertion_pos,
                         match py_index raw i with
                         | Some c => negb (Ascii.eqb c "[")
                         | None => false
                         end)
                    end in
                  let block_txt := _render_ship_block s item_indent in
                  let add :=
                    (if trailing_comma_needed then str "," ++ lb else [])
                    ++ item_indent ++ strip block_txt
                    ++ (match same_side_last_end with
                        | Some _ => str ","
                        | None => []
                        end)
                    ++ lb in
                  Done (Ok tt,
                        Some (firstn insertion_pos raw ++ add
                              ++ skipn insertion_pos raw))
              end
          end
      end
  end.

(** [while j < n and raw[j].isspace(): j += 1], as the number of steps. *)
Fixpoint leading_spaces (s : text) : nat :=
  match s with
  | c :: s' => if isspace c then S (leading_spaces s') else 0
  | [] => 0
  end.

(** The separator resolution of the delete, for the span [start, stop) and
    the array opening at [arr_start]. *)
Definition remove_span (raw : text) (arr_start start stop : nat) : text :=
  let i := skip_back raw (Z.of_nat arr_start) (Z.of_nat start - 1) in
  if (Z.of_nat arr_start <=? i)%Z
     && match py_index raw i with Some c => Ascii.eqb c "," | None => false end
  then firstn (Z.to_nat i) raw ++ skipn stop raw
  else
    let j := stop + leading_spaces (skipn stop raw) in
    let j := match nth_error raw j with
             | Some c => if Ascii.eqb c "," then j + 1 else j
             | None => j
             end in
    firstn start raw ++ skipn j raw.

Definition _surgical_delete_ship_by_key (raw0 : option text) (key_value : text)
  : scan (bool * option text) :=
  if is_empty_raw raw0 then Done (false, raw0)
  else
    let raw := match raw0 with Some r => r | None => [] end in
    region <- _extract_ship_list_region raw ;;
    match region with
    | None => Done (false, raw0)
    | Some (arr_start, _) =>
        matches <- _iter_object_spans_for_key raw key_value ;;
        match matches with
        | [] => Done (false, raw0)
        | (start, stop) :: _ =>
            Done (true, Some (remove_span raw arr_start start stop))
        end
    end.

(** Python's order on [str]: lexicographic by code point. *)
Fixpoint text_leb (a b : text) : bool :=
  match a, b with
  | [], _ => true
  | _ :: _, [] => false
  | x :: a', y :: b' =>
      if nat_of_ascii x <? nat_of_ascii y then true
      else if nat_of_ascii y <? nat_of_ascii x then false
      else text_leb a' b'
  end.

Fixpoint insert_sorted (k : text) (ks : list text) : list text :=
  match ks with
  | [] => [k]
  | x :: ks' => if text_leb k x then k :: ks else x :: insert_sorted k ks'
  end.

(** [sorted(updates.keys())] *)
Definition sorted_keys (d : pydict) : list text :=
  fold_right insert_sorted [] (map fst d).

Definition key_forms (k : text) : list text :=
  k :: (if text_eqb k (str "Key") then [str "key"] else [])
    ++ (if text_eqb k (str "name") then [str "Name"] else [])
    ++ (if text_eqb k (str "side") then [str "Side"] else [])
    ++ (if text_eqb k (str "artfileroot") then [str "Artfileroot"] else []).

Definition is_dict (v : pyval) : bool :=
  match v with PDict _ => true | _ => false end.

(** One turn of the update loop: the patch attempted for key [k] and value
    [v] on the current [block]. *)
Definition patch_field (block k : text) (v : pyval)
  : scan (outcome (text * nat)) :=
  match v with
  | PList l =>
      if existsb is_dict l || text_eqb k (str "torpedostart") then
        r <- _patch_list_in_block block (key_forms k) None (Some l) ;;
        Done (Ok r)
      else
        match _repr_hjson_list l with
        | Raise e => Done (Raise e)
        | Ok vstr =>
            r <- _patch_list_in_block block (key_forms k) (Some vstr) None ;;
            Done (Ok r)
        end
  | _ =>
      match _repr_hjson_scalar v with
      | Raise e => Done (Raise e)
      | Ok vstr => Done (Ok (_patch_scalar_in_block block (key_forms k) vstr))
      end
  end.

(** The update loop over the sorted keys. *)
Fixpoint apply_updates (updates : pydict) (ks : list text) (block : text)
  : scan (outcome text) :=
  match ks with
  | [] => Done (Ok block)
  | k :: ks' =>
      match Dict.get updates k with
      | None => apply_updates updates ks' block
      | Some v =>
          r <- patch_field block k v ;;
          match r with
          | Raise e => Done (Raise e)
          | Ok (new_block, n) =>
              apply_updates updates ks' (if 0 <? n then new_block else block)
          end
      end
  end.

(** The first object span for a wanted value, if any. *)
Definition first_span (raw wanted : text) : scan (option (nat * nat)) :=
  matches <- _iter_object_spans_for_key raw wanted ;;
  Done (match matches with
        | sp :: _ => Some sp
        | [] => None
        end).

Definition truthy_opt (o : option pyval) : bool :=
  match o with Some v => truthy v | None => false end.

Definition str_opt (o : option pyval) : text :=
  match o with Some v => py_str v | None => str "None" end.

(** The first part of the update: locating the record by key, then by
    name. *)
Definition locate_ship (raw : text) (key_val name_val : option pyval)
  : scan (option (nat * nat)) :=
  span <- (if truthy_opt key_val then first_span raw (str_opt key_val)
           else Done None) ;;
  match span with
  | Some _ => Done span
  | None => if truthy_opt name_val then first_span raw (str_opt name_val)
            else Done None
  end.

(** Locating the record again after it was inserted. *)
Definition relocate_ship (raw : text) (key_val name_val : option pyval)
  : scan (option (nat * nat)) :=
  if truthy_opt key_val then first_span raw (str_opt key_val)
  else if truthy_opt name_val then first_span raw (str_opt name_val)
  else Done None.

(** The last part of the update: patch, splice, stamp. *)
Definition patch_and_stamp (raw : text) (span : nat * nat) (updates : pydict)
  : effect unit :=
  let '(start, stop) := span in
  r <- apply_updates updates (sorted_keys updates) (slice raw start stop) ;;
  match r with
  | Raise e => Done (Raise e, Some raw)
  | Ok block =>
      Done (Ok tt,
            Some (_upsert_editor_banner_simple banner_value
                    (firstn start raw ++ block ++ skipn stop raw)))
  end.

Definition _surgical_save_current_ship (raw0 : option text)
  (ship updates : pydict) : effect unit :=
  if is_empty_raw raw0 then
    Done (Raise (RuntimeError "No raw text captured for surgical save."), raw0)
  else
    let raw := match raw0 with Some r => r | None => [] end in
    let key_val := py_or (Dict.get ship (str "Key")) (Dict.get ship (str "key")) in
    let name_val := Dict.get ship (str "name") in
    span <- locate_ship raw key_val name_val ;;
    match span with
    | Some sp => patch_and_stamp raw sp updates
    | None =>
        ins <- _surgical_insert_ship_block raw0 (Dict.update ship updates) true ;;
        match ins with
        | (Raise e, raw1) => Done (Raise e, raw1)
        | (Ok _, raw1) =>
            let raw' := match raw1 with Some r => r | None => [] end in
            span <- relocate_ship raw' key_val name_val ;;
            match span with
            | None =>
                Done (Raise (RuntimeError
                        "Inserted new ship, but could not re-locate it for patching."),
                      raw1)
            | Some sp => patch_and_stamp raw' sp updates
            end
        end
    end.

End Mutator.

(** ** Format detection: [_looks_hjsonish] *)

Module Detect.

Import Region.

(** The inner loop: the first significant character at or after offset
    [i].  [Done None]: the text ended first. *)
Fixpoint first_significant (t : text) (fuel i : nat) : scan (option ascii) :=
  match fuel with
  | O => OutOfFuel
  | S f =>
      match nth_error t i with
      | None => Done None
      | Some ch =>
          if isspace ch then first_significant t f (i + 1)
          else if startswith t (str "//") i || Ascii.eqb ch "#" then
            first_significant t f (match find t [LF] i with
                                   | None => length t
                                   | Some nl => nl + 1
                                   end)
          else if startswith t (str "/*") i then
            first_significant t f (match find t (str "*/") (i + 2) with
                                   | None => length t
                                   | Some e => e + 2
                                   end)
          else Done (Some ch)
      end
  end.

(** The [for k in keys] loop: a key that does not occur, that has no colon
    behind it, or behind whose colon the text ends, passes the turn to the
    next key. *)
Fixpoint looks_from (t : text) (ks : list text) : scan bool :=
  match ks with
  | [] => Done false
  | k :: ks' =>
      match find t k 0 with
      | None => looks_from t ks'
      | Some p =>
          match find t (str ":") (p + length k) with
          | None => looks_from t ks'
          | Some c =>
              ch <- first_significant t (S (length t)) (c + 1) ;;
              match ch with
              | Some ch => Done (Ascii.eqb ch "[")
              | None => looks_from t ks'
              end
          end
      end
  end.

Definition _looks_hjsonish (t : text) : scan bool := looks_from t keys.

End Detect.

(** ** Layout pass of the round-trip save: [_postprocess_hjson_text] *)

Module Layout.

Import Re.

(** The inner loop of [fix_flow_map]: the rest of a string opened by [q]
    is appended to the output; after a backslash the cursor moves two
    characters on.  The result is what was appended and the text left. *)
Fixpoint copy_quoted (q : ascii) (s : text) : text * text :=
  match s with
  | [] => ([], [])
  | c :: s' =>
      if Ascii.eqb c BSL then
        match s' with
        | [] => ([c], [])
        | _ :: s'' => let '(o, r) := copy_quoted q s'' in (c :: o, r)
        end
      else if Ascii.eqb c q then ([c], s')
      else let '(o, r) := copy_quoted q s' in (c :: o, r)
  end.

(** The outer loop of [fix_flow_map] on the text [s] left to read: the
    characters appended to [out]. *)
Fixpoint flow_loop (fuel : nat) (s : text) (depth : nat) : scan text :=
  match fuel with
  | O => OutOfFuel
  | S f =>
      match s with
      | [] => Done []
      | ch :: s' =>
          if Ascii.eqb ch DQ || Ascii.eqb ch SQ then
            let '(o, r) := copy_quoted ch s' in
            rest <- flow_loop f r depth ;;
            Done (ch :: o ++ rest)
          else if Ascii.eqb ch "{" || Ascii.eqb ch "[" then
            rest <- flow_loop f s' (depth + 1) ;;
            Done (ch :: rest)
          else if Ascii.eqb ch "}" || Ascii.eqb ch "]" then
            rest <- flow_loop f s' (Nat.max 0 (depth - 1)) ;;
            Done (ch :: rest)
          else if Ascii.eqb ch "," && (depth =? 0) then
            rest <- flow_loop f
                      (match s' with
                       | c :: s'' => if Ascii.eqb c " " then s'' else s'
                       | [] => s'
                       end) depth ;;
            Done (","%char :: LF :: rest)
          else
            rest <- flow_loop f s' depth ;;
            Done (ch :: rest)
      end
  end.

Definition fix_flow_map (inner : text) : scan text :=
  out <- flow_loop (S (length inner)) inner 0 ;;
  Done (str "{" ++ strip out ++ str "}").

(** [re.sub] with a function: the text between the matches is kept, each
    match [m] is replaced by [repl m]. *)
Fixpoint stitch (M : Type) (t : text) (start stop : M -> nat)
  (repl : M -> scan text) (pos : nat) (ms : list M) : scan text :=
  match ms with
  | [] => Done (skipn pos t)
  | m :: ms' =>
      r <- repl m ;;
      rest <- stitch t start stop repl (stop m) ms' ;;
      Done (slice t pos (start m) ++ r ++ rest)
  end.

Definition sub (M : Type) (t : text) (at_ : nat -> option M)
  (start stop : M -> nat) (repl : M -> scan text) : scan text :=
  stitch t start stop repl 0 (Locator.finditer t at_ stop).

(** A match of [\{(.*?)\}] under [re.S]: its start, the bounds of group 1
    and its end. *)
Record bmatch : Type := BMatch
  { br_start : nat; br_inner : nat; br_inner_end : nat; br_end : nat }.

Definition brace_at (t : text) (p : nat) : option bmatch :=
  first_of (fun q =>
    first_of (fun r =>
      match ends t (Ch "}") r with
      | e :: _ => Some (BMatch p q r e)
      | [] => None
      end) (ends t (LazyStar any) q)) (ends t (Ch "{") p).

(** A match of [(#ship-list|ship-list)\s*:\s*\[\s*(.*?)\s*\]] under
    [re.S]: its start, the end of group 1, the bounds of group 2 and its
    end. *)
Record amatch : Type := AMatch
  { a_start : nat; a_key_end : nat; a_body : nat; a_body_end : nat;
    a_end : nat }.

Definition ship_list_key : regex :=
  Alt (Lit (str "#ship-list")) (Lit (str "ship-list")).

Definition ship_list_open : regex :=
  Seq (Star ws) (Seq (Ch ":") (Seq (Star ws) (Seq (Ch "[") (Star ws)))).

Definition ship_list_close : regex := Seq (Star ws) (Ch "]").

Definition ship_list_at (t : text) (p : nat) : option amatch :=
  first_of (fun k =>
    first_of (fun q =>
      first_of (fun r =>
        match ends t ship_list_close r with
        | e :: _ => Some (AMatch p k q r e)
        | [] => None
        end) (ends t (LazyStar any) q)) (ends t ship_list_open k))
    (ends t ship_list_key p).

Definition per_ship_fix (t : text) (m : amatch) : scan text :=
  let arr_body := slice t (a_body m) (a_body_end m) in
  fixed <- sub arr_body (brace_at arr_body) br_start br_end
             (fun b => fix_flow_map (slice arr_body (br_inner b) (br_inner_end b))) ;;
  Done (slice t (a_start m) (a_key_end m) ++ str ": [" ++ [LF] ++ fixed
        ++ [LF] ++ str "]").

Definition _postprocess_hjson_text (t : text) : scan text :=
  sub t (ship_list_at t) a_start a_end (per_ship_fix t).

End Layout.

(** ** Block finder: [_find_ship_block_span] *)

Section Finder.

Import Region FlowMaps.

(** [hjson.loads(block, object_pairs_hook=dict)], [None] when it raises. *)
Variable hjson_loads : text -> option pydict.

(** [str(v)] for a list or a dictionary. *)
Variable container_str : pyval -> text.

(** [str(data.get(~Key~) or data.get(~key~) or data.get(~name~) or ~~)],
    with [~] for the double quote. *)
Definition ident_of (data : pydict) : text :=
  match py_or (py_or (Dict.get data (str "Key")) (Dict.get data (str "key")))
              (Dict.get data (str "name")) with
  | Some v => if truthy v then py_str container_str v else []
  | None => []
  end.

(** What the finder returns: a span, [None], or the [IndexError] of the
    iterator it runs. *)
Inductive lookup : Type :=
| Found (sp : nat * nat)
| Missing
| IndexError.

(** The loop over the blocks the iterator has yielded: a block that does
    not parse is skipped, the first one whose identifier is [id_value]
    is returned. *)
Fixpoint first_block (raw id_value : text) (spans : list (nat * nat))
  : option (nat * nat) :=
  match spans with
  | [] => None
  | (b_start, b_end) :: rest =>
      match hjson_loads (slice raw b_start b_end) with
      | None => first_block raw id_value rest
      | Some data =>
          if text_eqb (ident_of data) id_value then Some (b_start, b_end)
          else first_block raw id_value rest
      end
  end.

Definition _find_ship_block_span (raw id_value : text) : scan lookup :=
  region <- _extract_ship_list_region raw ;;
  match region with
  | None => Done Missing
  | Some (arr_start, arr_end) =>
      let '(spans, err) := _iter_top_level_flow_maps raw arr_start arr_end in
      match first_block raw id_value spans with
      | Some sp => Done (Found sp)
      | None => Done (if err then IndexError else Missing)
      end
  end.

End Finder.

(** ** Side groups of the selection list: [_build_side_groups] *)

Section Groups.

(** [str.casefold]; [str.upper] and [str.islower] of one character. *)
Variable casefold : text -> text.
Variable upper : ascii -> text.
Variable islower : ascii -> bool.

Record group : Type := Group { display : text; ships : list pydict }.

(** [d.get(k, default)] *)
Definition get_default (d : pydict) (k : text) (default : pyval) : pyval :=
  match Dict.get d k with
  | Some v => v
  | None => default
  end.

(** [v.strip()]: a value that is not a string has no such method. *)
Definition stripped (v : pyval) : outcome text :=
  match v with
  | PStr s => Ok (strip s)
  | _ => Raise AttributeError
  end.

(** [if k not in groups: groups[k] = {display, []}], then
    [groups[k][ships].append(ship)]. *)
Fixpoint group_append (groups : list (text * group)) (k disp : text)
  (ship : pydict) : list (text * group) :=
  match groups with
  | [] => [(k, Group disp [ship])]
  | (k', g) :: rest =>
      if text_eqb k' k then (k', Group (display g) (ships g ++ [ship])) :: rest
      else (k', g) :: group_append rest k disp ship
  end.

(** [invalid_keys.add(key)] *)
Definition set_add (k : text) (s : list text) : list text :=
  if existsb (text_eqb k) s then s else s ++ [k].

(** [raw[0].upper() + raw[1:] if raw and raw[0].islower() else raw] *)
Definition friendly (raw : text) : text :=
  match raw with
  | c :: rest => if islower c then upper c ++ rest else raw
  | [] => raw
  end.

(** The side of a ship when it is a string that is not blank. *)
Definition valid_side (ship : pydict) : option text :=
  match get_default ship (str "side") (PStr []) with
  | PStr s => if text_eqb (strip s) [] then None else Some (strip s)
  | _ => None
  end.

Fixpoint build_groups (ships_data : list pydict)
  (groups : list (text * group)) (invalid_keys : list text)
  : outcome (list (text * group) * list text) :=
  match ships_data with
  | [] => Ok (groups, invalid_keys)
  | ship :: rest =>
      match stripped (get_default ship (str "name") (PStr (str "Unnamed"))) with
      | Raise e => Raise e
      | Ok name =>
          match stripped (get_default ship (str "key") (PStr name)) with
          | Raise e => Raise e
          | Ok key =>
              match valid_side ship with
              | None =>
                  build_groups rest
                    (group_append groups (str "unknown") (str "Unknown") ship)
                    (set_add key invalid_keys)
              | Some raw =>
                  build_groups rest
                    (group_append groups (strip (casefold raw)) (friendly raw) ship)
                    invalid_keys
              end
          end
      end
  end.

Definition _build_side_groups (ships_data : list pydict)
  : outcome (list (text * group) * list text) :=
  build_groups ships_data [] [].

(** The key of the group a ship is filed under. *)
Definition bucket (ship : pydict) : text :=
  match valid_side ship with
  | Some raw => strip (casefold raw)
  | None => str "unknown"
  end.

(** The ships filed under a key. *)
Fixpoint ships_of (groups : list (text * group)) (k : text) : list pydict :=
  match groups with
  | [] => []
  | (k', g) :: rest => if text_eqb k' k then ships g else ships_of rest k
  end.

End Groups.

(** ** Vocabulary of the statements *)

Module Spec.

(** Spans listed in increasing order without overlap, none starting before
    [lo]. *)
Fixpoint ordered_from (lo : nat) (l : list (nat * nat)) : Prop :=
  match l with
  | [] => True
  | (s, e) :: l' => lo <= s /\ s < e /\ ordered_from e l'
  end.

(** [a] occurs in [t] as a substring. *)
Definition occurs (a t : text) : Prop := exists pre post, t = pre ++ a ++ post.

(** What is left of a text once a leading comma, if any, is removed. *)
Definition drop_comma (s : text) : text :=
  match s with
  | c :: s' => if Ascii.eqb c "," then s' else s
  | [] => []
  end.

(** The test the balancing loops make before skipping a line comment at
    offset [k], where the character is [ch]. *)
Definition comment_start (t : text) (k : nat) (ch : ascii) : bool :=
  text_eqb (slice t k (k + 2)) (str "//") || Ascii.eqb ch "#".

(** A lexer makes progress when each comment skip moves the cursor
    forward. *)
Definition progresses (lx : Scanner.lexer) : Prop :=
  forall t k ch, nth_error t k = Some ch ->
    (comment_start t k ch = true -> k < Scanner.skip_line lx t k)
    /\ k < Scanner.skip_block lx t k.

(** [q] is an offset at or after [p] that is inside the text when [p] is. *)
Definition reach (t : text) (p q : nat) : Prop :=
  p <= q /\ (p <= length t -> q <= length t).

Ltac split_ifs :=
  repeat match goal with
         | |- context [if ?b then _ else _] => destruct b eqn:?
         end.

Definition is_scalar (v : pyval) : bool :=
  match v with
  | PList _ | PDict _ => false
  | _ => true
  end.

(** The values the update loop can render for key [k]: every scalar, a
    list rendered by the pretty printer (it holds a dictionary, or the key
    is [torpedostart]) and a list of scalars. *)
Definition renders (k : text) (v : pyval) : bool :=
  match v with
  | PDict _ => false
  | PList l =>
      existsb is_dict l || text_eqb k (str "torpedostart")
      || forallb is_scalar l
  | _ => true
  end.

End Spec.

(** ** Vocabulary of the statements about the layout pass *)

Module Shapes.

(** A character the layout pass copies as it is outside a string. *)
Definition plain (c : ascii) : bool :=
  negb (existsb (Ascii.eqb c) [DQ; SQ; "{"; "["; "}"; "]"; ","]%char).

(** A character of a string opened by [q] that is neither the closing
    quote nor a backslash. *)
Definition quiet (q c : ascii) : bool :=
  negb (Ascii.eqb c q || Ascii.eqb c BSL).

(** A text made of plain characters and of quoted strings that hold no
    backslash. *)
Inductive flat : text -> Prop :=
| flat_nil : flat []
| flat_plain (c : ascii) (s : text) :
    plain c = true -> flat s -> flat (c :: s)
| flat_quoted (q : ascii) (body s : text) :
    q = DQ \/ q = SQ -> forallb (quiet q) body = true -> flat s ->
    flat (q :: body ++ q :: s).

(** The text behind a bare value token: the end of the text, or one of
    the characters at which the token pattern stops. *)
Definition closes_token (rest : text) : bool :=
  match rest with
  | [] => true
  | c :: _ => existsb (Ascii.eqb c) [","; CR; LF; "}"; "]"]%char
  end.

(** The characters of the text Python gives for a float: digits, the
    point, the exponent mark, the signs, and the letters of [inf] and
    [nan]. *)
Definition float_char (c : ascii) : bool :=
  let n := nat_of_ascii c in
  ((48 <=? n) && (n <=? 57))
  || existsb (Ascii.eqb c) ["."; "e"; "+"; "-"; "i"; "n"; "f"; "a"]%char.

(** The scalars whose rendering is fixed by the model: every scalar but a
    float whose text would be empty or hold another character. *)
Definition well_formed_scalar (v : pyval) : bool :=
  match v with
  | PFloat r => negb (text_eqb r []) && forallb float_char r
  | PList _ | PDict _ => false
  | _ => true
  end.

(** A rendered scalar is a string literal when the value is a string or
    [None]. *)
Definition renders_quoted (v : pyval) : bool :=
  match v with
  | PNone | PStr _ => true
  | _ => false
  end.

(** A character of an array body that opens no string, bracket or
    comment. *)
Definition quiet_item (c : ascii) : bool :=
  negb (existsb (Ascii.eqb c) [DQ; SQ; "["; "]"; "#"; "/"]%char).

(** An object text in which the double-quoted key [key] is followed by a
    colon, the white space [w] and the value [tok]. *)
Definition field (pre key w tok rest : text) : text :=
  pre ++ (DQ :: key ++ [DQ; ":"%char]) ++ w ++ tok ++ rest.

(** The two ways the scalar patcher reads a key: between double quotes,
    or bare. *)
Definition key_quote (quoted : bool) : text := if quoted then [DQ] else [].

(** An object text in which the key [key], between double quotes or
    bare, is followed by the white space [w0], a colon, the white space
    [w] and the value [tok]. *)
Definition entry (pre : text) (quoted : bool) (key w0 w tok rest : text)
  : text :=
  pre ++ key_quote quoted ++ key ++ key_quote quoted ++ w0
  ++ ":"%char :: w ++ tok ++ rest.

(** The text [key] stands at no offset below [n] of the text [t]. *)
Definition absent_before (key t : text) (n : nat) : bool :=
  forallb (fun p => negb (prefix_of key (skipn p t))) (seq 0 n).

End Shapes.

(** ** Documents used in the examples *)

Module Examples.

(** An array that is opened and never closed. *)
Definition unterminated_doc : text :=
  doc "{~#ship-list~: [ {~Key~:~a~}, {~Key~:~b~} }".

(** An array that is opened and never closed, whose first string holds an
    escaped quote followed by a bracket: the text is
    [{~#ship-list~:[~a\~]~,~b~] with [~] for the double quote. *)
Definition unterminated_escaped_doc : text := doc "{~#ship-list~:[~a\~]~,~b~".

(** A record whose value holds an escaped quote followed by a bracket:
    the text is [{~#ship-list~:[{~Key~:~a\~]~}]}] with [~] for the double
    quote. *)
Definition escaped_quote_doc : text := doc "{~#ship-list~:[{~Key~:~a\~]~}]}".

(** Braces at several depths, one of them unmatched. *)
Definition braces_doc : text := doc "[{a},{b{}}, }{ {c}]".

(** A one-line document and a banner value. *)
Definition one_line_doc : text := doc "{~a~:1}".
Definition stamp : text :=
  str " This file edited on 2025-01-01 12:00:00 by the Orion Ship Editor Program Version  0.9.5 for Artemis Cosmos v1.2.1".

(** A document whose opening brace ends its line. *)
Definition multi_line_doc : text := lines ["{"; "  ~a~:1"; "}"]%string.

(** A value holding a comma and escaped quotes. *)
Definition quoted_comma_block : text :=
  doc "{~q~: ~50% charge, \~approx\~~, ~n~:2}".

(** A record with a single-quoted value, and one with a number. *)
Definition single_quoted_block : text := doc "{~name~: 'abc'}".
Definition number_block : text := doc "{~id~:~b~,~n~:2}".

(** A ship list of three records, one per line. *)
Definition fleet_doc : text :=
  lines ["{";
         "  ~#ship-list~: [";
         "    {~Key~:~a~,~side~:~TSN~},";
         "    {~Key~:~b~,~side~:~Kralien~},";
         "    {~Key~:~c~,~side~:~Kralien~}";
         "  ]";
         "}"]%string.

Definition block_a : text := doc "{~Key~:~a~,~side~:~TSN~}".
Definition block_b : text := doc "{~Key~:~b~,~side~:~Kralien~}".
Definition block_c : text := doc "{~Key~:~c~,~side~:~Kralien~}".

Definition ship (key side : string) : pydict :=
  [(str "Key", PStr (str key)); (str "side", PStr (str side))].

(** What the hjson parser returns for the three blocks of [fleet_doc]
    (and, here, a failure for any other text). *)
Definition loads_fleet (block : text) : option pydict :=
  if text_eqb block block_a then Some (ship "a" "TSN")
  else if text_eqb block block_b then Some (ship "b" "Kralien")
  else if text_eqb block block_c then Some (ship "c" "Kralien")
  else None.

(** [fleet_doc] after record [d] of side [Pirate] was appended. *)
Definition fleet_with_pirate : text :=
  lines ["{";
         "  ~#ship-list~: [";
         "    {~Key~:~a~,~side~:~TSN~},";
         "    {~Key~:~b~,~side~:~Kralien~},";
         "    {~Key~:~c~,~side~:~Kralien~}";
         "  ,";
         "    {";
         "    ~Key~: ~d~,";
         "    ~side~: ~Pirate~";
         "  }";
         "]";
         "}"]%string.

(** [fleet_doc] after record [d] of side [TSN] was inserted behind record
    [a], the last of that side. *)
Definition fleet_with_tsn : text :=
  lines ["{";
         "  ~#ship-list~: [";
         "    {~Key~:~a~,~side~:~TSN~},";
         "    {";
         "    ~Key~: ~d~,";
         "    ~side~: ~TSN~";
         "  },";
         ",";
         "    {~Key~:~b~,~side~:~Kralien~},";
         "    {~Key~:~c~,~side~:~Kralien~}";
         "  ]";
         "}"]%string.

(** A ship list of two records written on one line. *)
Definition one_line_fleet : text :=
  doc "{~#ship-list~:[{~Key~:~a~},{~Key~:~b~}]}".

(** Two records with a second field each, on one line, and the same
    document without its first record. *)
Definition one_line_pair : text :=
  doc "{~#ship-list~:[{~Key~:~a~,~n~:1},{~Key~:~b~,~n~:2}]}".

Definition one_line_pair_without_a : text :=
  doc "{~#ship-list~:[{~Key~:~b~,~n~:2}]}".

(** [fleet_doc] without its first record, and without its second. *)
Definition fleet_without_a : text :=
  lines ["{";
         "  ~#ship-list~: [";
         "    ";
         "    {~Key~:~b~,~side~:~Kralien~},";
         "    {~Key~:~c~,~side~:~Kralien~}";
         "  ]";
         "}"]%string.

Definition fleet_without_b : text :=
  lines ["{";
         "  ~#ship-list~: [";
         "    {~Key~:~a~,~side~:~TSN~},";
         "    {~Key~:~c~,~side~:~Kralien~}";
         "  ]";
         "}"]%string.

(** [fleet_doc] after record [d] of side [Kralien] was inserted behind
    record [c], the last of the array. *)
Definition fleet_with_kralien : text :=
  lines ["{";
         "  ~#ship-list~: [";
         "    {~Key~:~a~,~side~:~TSN~},";
         "    {~Key~:~b~,~side~:~Kralien~},";
         "    {~Key~:~c~,~side~:~Kralien~},";
         "    {";
         "    ~Key~: ~d~,";
         "    ~side~: ~Kralien~";
         "  },";
         "";
         "  ]";
         "}"]%string.

(** [fleet_doc] with the side of record [b] set to [TSN]. *)
Definition fleet_b_tsn : text :=
  lines ["{";
         "  ~#ship-list~: [";
         "    {~Key~:~a~,~side~:~TSN~},";
         "    {~Key~:~b~,~side~:~TSN~},";
         "    {~Key~:~c~,~side~:~Kralien~}";
         "  ]";
         "}"]%string.

(** The record rendered for [d] of side [TSN]. *)
Definition rendered_d : text :=
  lines ["{"; "    ~Key~: ~d~,"; "    ~side~: ~TSN~"; "  }"]%string.

(** [str.casefold] on text made of ASCII characters. *)
Definition lower (s : text) : text :=
  map (fun c => let n := nat_of_ascii c in
                if (65 <=? n) && (n <=? 90) then ascii_of_nat (n + 32) else c) s.

(** No list or dictionary is converted to text in the examples. *)
Definition no_container_str (v : pyval) : text := [].

(** A document whose ship list has a single-quoted key, and which quotes
    the key once more behind it. *)
Definition quoted_twice_doc : text :=
  doc "{'#ship-list': [], ~x~: ~#ship-list~}".

(** A ship list as the round-trip emitter writes it, and the same after
    the layout pass. *)
Definition flow_doc : text :=
  doc "ship-list: [{Key: a, name: ~x, y~}, {Key: b}]".

Definition flow_doc_laid_out : text :=
  lines ["ship-list: [";
         "{Key: a,";
         "name: ~x, y~}, {Key: b}";
         "]"]%string.

(** A document whose ship list is empty, and the same after a first
    record was inserted. *)
Definition empty_fleet : text :=
  lines ["{"; "  ~#ship-list~: []"; "}"]%string.

Definition empty_fleet_with_d : text :=
  lines ["{";
         "  ~#ship-list~: [  ~#ship-list~:   {";
         "  ~#ship-list~:   ~Key~: ~d~,";
         "  ~#ship-list~:   ~side~: ~TSN~";
         "  ~#ship-list~: }";
         "]";
         "}"]%string.

(** A ship list whose record has a name and no key. *)
Definition named_fleet : text :=
  lines ["{";
         "  ~#ship-list~: [";
         "    {~name~:~Alpha~}";
         "  ]";
         "}"]%string.

(** Three ships: two whose sides differ by case only, one with a blank
    side. *)
Definition ship_tsn : pydict :=
  [(str "name", PStr (str "Alpha")); (str "side", PStr (str "TSN"))].
Definition ship_tsn_lower : pydict :=
  [(str "name", PStr (str "Beta")); (str "side", PStr (str " tsn "))].
Definition ship_blank : pydict :=
  [(str "name", PStr (str "Gamma")); (str "side", PStr (str "  "))].

(** Upper case of one ASCII letter, and the test for a lower-case one. *)
Definition is_lower_letter (c : ascii) : bool :=
  (97 <=? nat_of_ascii c) && (nat_of_ascii c <=? 122).
Definition upper_letter (c : ascii) : text :=
  [if is_lower_letter c then ascii_of_nat (nat_of_ascii c - 32) else c].

(** A record whose first key ends with its second, a number followed by
    a blank, and a value behind a comment and a blank. *)
Definition inside_block : text := doc "{inside: 1, side: 2}".
Definition blank_block : text := doc "{~n~: 1 }".
Definition comment_block : text := doc "{~n~: /* count */ 1}".

(** A bare key with a blank in front of its colon. *)
Definition bare_block : text := doc "{hull : 120, ~n~: 2}".

(** A ship list of two records; a comment inside the first one names a
    key that no record has.  The same list without its first record, and
    with the side of its first record changed. *)
Definition commented_fleet : text :=
  lines ["{";
         "  ~#ship-list~: [";
         "    {~Key~:~a~, // replaces Key: d";
         "     ~side~:~TSN~},";
         "    {~Key~:~b~,~side~:~Kralien~}";
         "  ]";
         "}"]%string.

Definition commented_block_a : text :=
  lines ["{~Key~:~a~, // replaces Key: d";
         "     ~side~:~TSN~}"]%string.

Definition commented_fleet_without_a : text :=
  lines ["{";
         "  ~#ship-list~: [";
         "    ";
         "    {~Key~:~b~,~side~:~Kralien~}";
         "  ]";
         "}"]%string.

Definition commented_fleet_a_pirate : text :=
  lines ["{";
         "  ~#ship-list~: [";
         "    {~Key~:~a~, // replaces Key: d";
         "     ~side~:~Pirate~},";
         "    {~Key~:~b~,~side~:~Kralien~}";
         "  ]";
         "}"]%string.

(** A parser that knows one block. *)
Definition loads_b (block : text) : option pydict :=
  if text_eqb block block_b then Some (ship "b" "Kralien") else None.

End Examples.

(** * Properties *)

Unset Implicit Arguments.

(** ** Text primitives *)

Lemma ascii_eqb_true (a b : ascii) : Ascii.eqb a b = true -> a = b.
Proof. apply Ascii.eqb_eq. Qed.

Lemma text_eqb_eq (a b : text) : text_eqb a b = true <-> a = b.
Proof.
  revert b; induction a as [|x a IH]; intros [|y b]; simpl; split; intro H;
    try reflexivity; try discriminate.
  - apply andb_true_iff in H as [H1 H2].
    apply Ascii.eqb_eq in H1; apply IH in H2; congruence.
  - injection H as -> ->. rewrite Ascii.eqb_refl. simpl. now apply IH.
Qed.

Lemma prefix_of_app (s t : text) :
  prefix_of s t = true -> exists rest, t = s ++ rest.
Proof.
  revert t; induction s as [|x s IH]; intros t H; simpl in *.
  - now exists t.
  - destruct t as [|y t]; [discriminate|].
    apply andb_true_iff in H as [H1 H2].
    apply Ascii.eqb_eq in H1; subst y.
    destruct (IH _ H2) as [rest ->]. now exists rest.
Qed.

Lemma prefix_of_self_app (s rest : text) : prefix_of s (s ++ rest) = true.
Proof.
  induction s as [|x s IH]; simpl; [reflexivity|].
  now rewrite Ascii.eqb_refl.
Qed.

Lemma find_aux_bounds (sub s : text) (i p : nat) :
  find_aux sub s i = Some p ->
  i <= p /\ p <= i + length s /\ prefix_of sub (skipn (p - i) s) = true.
Proof.
  revert i; induction s as [|c s IH]; intros i; simpl.
  - destruct (prefix_of sub []) eqn:E; [|discriminate].
    intros [= <-]. rewrite Nat.sub_diag. simpl. auto with arith.
  - destruct (prefix_of sub (c :: s)) eqn:E.
    + intros [= <-]. rewrite Nat.sub_diag. simpl. split; [lia|split; [lia|assumption]].
    + intros H. apply IH in H as (H1 & H2 & H3).
      split; [lia|split; [lia|]].
      replace (p - i) with (S (p - S i)) by lia. exact H3.
Qed.

Lemma find_bounds (t sub : text) (from p : nat) :
  find t sub from = Some p ->
  from <= p /\ p <= length t /\ prefix_of sub (skipn p t) = true.
Proof.
  unfold find. destruct (from <=? length t) eqn:E; [|discriminate].
  apply Nat.leb_le in E. intros H.
  apply find_aux_bounds in H as (H1 & H2 & H3).
  rewrite length_skipn in H2. rewrite skipn_skipn in H3.
  replace (p - from + from) with p in H3 by lia.
  repeat split; [assumption|lia|assumption].
Qed.

Lemma find_aux_none (sub s : text) (i k : nat) :
  find_aux sub s i = None -> prefix_of sub (skipn k s) = false.
Proof.
  revert i k; induction s as [|c s IH]; intros i k; simpl.
  - destruct (prefix_of sub []) eqn:E; [discriminate|].
    intros _. now destruct k.
  - destruct (prefix_of sub (c :: s)) eqn:E; [discriminate|].
    intros H. destruct k as [|k]; [exact E|]. simpl. eapply IH; eassumption.
Qed.

(** [a in t] decides whether [a] occurs in [t]. *)
Lemma contains_false_no_occurrence (t a pre post : text) :
  contains t a = false -> t <> pre ++ a ++ post.
Proof.
  unfold contains, find. simpl Nat.leb. cbn iota. simpl skipn.
  destruct (find_aux a t 0) eqn:E; [discriminate|]. intros _ H.
  apply (find_aux_none _ _ _ (length pre)) in E.
  rewrite H in E.
  rewrite skipn_app, skipn_all, Nat.sub_diag in E. simpl in E.
  rewrite prefix_of_self_app in E. discriminate.
Qed.

Lemma find_none_char (t : text) (c : ascii) :
  ~ In c t -> find t [c] 0 = None.
Proof.
  unfold find. simpl. generalize 0.
  induction t as [|x t IH]; intros i Hn; simpl; [reflexivity|].
  destruct (Ascii.eqb c x) eqn:E.
  - apply Ascii.eqb_eq in E. subst. exfalso. apply Hn. now left.
  - simpl. apply IH. intro Hin. apply Hn. now right.
Qed.

Lemma nth_error_lt (A : Type) (l : list A) (n : nat) (x : A) :
  nth_error l n = Some x -> n < length l.
Proof. intros H. apply nth_error_Some. congruence. Qed.

(** ** Bracket balancing: termination and soundness *)

Module ScannerFacts.

Import Scanner Spec.

Lemma skipn_cons_nth (t : text) (k : nat) (ch : ascii) :
  nth_error t k = Some ch -> skipn k t = ch :: skipn (S k) t.
Proof.
  revert k; induction t as [|y l IH]; intros [|k] E; try discriminate; simpl in *.
  - now injection E as ->.
  - now apply IH.
Qed.

Lemma comment_start_not_lf (t : text) (k : nat) (ch : ascii) :
  nth_error t k = Some ch -> comment_start t k ch = true ->
  Ascii.eqb ch LF = false.
Proof.
  intros Hk Hc. unfold comment_start, slice in Hc.
  rewrite (skipn_cons_nth t k ch Hk) in Hc.
  replace (k + 2 - k) with 2 in Hc by lia.
  apply orb_true_iff in Hc as [Hc|Hc].
  - simpl in Hc. apply andb_true_iff in Hc as [Hc _].
    apply Ascii.eqb_eq in Hc. now subst ch.
  - apply Ascii.eqb_eq in Hc. now subst ch.
Qed.

Lemma skip_line_find_progress (t : text) (k : nat) :
  k < length t -> k < skip_line_find t k.
Proof.
  intros Hk. unfold skip_line_find.
  destruct (find t [LF] k) as [nl|] eqn:E; [|assumption].
  apply find_bounds in E. lia.
Qed.

Lemma skip_block_find_progress (t : text) (k : nat) :
  k < length t -> k < skip_block_find t k.
Proof.
  intros Hk. unfold skip_block_find.
  destruct (find t (str "*/") (k + 2)) as [e|] eqn:E; [|assumption].
  apply find_bounds in E. lia.
Qed.

Lemma skip_line_loop_progress (t : text) (k : nat) (ch : ascii) :
  nth_error t k = Some ch -> comment_start t k ch = true ->
  k < skip_line_loop t k.
Proof.
  intros Hk Hc. unfold skip_line_loop.
  rewrite (skipn_cons_nth t k ch Hk). simpl.
  rewrite (comment_start_not_lf t k ch Hk Hc). lia.
Qed.

Lemma star_slash_ge (s : text) (j e : nat) : star_slash s j = Some e -> j < e.
Proof.
  revert j; induction s as [|c1 s IH]; intros j; simpl; [discriminate|].
  destruct s as [|c2 s']; [discriminate|].
  destruct (Ascii.eqb c1 "*" && Ascii.eqb c2 "/").
  - intros [= <-]. lia.
  - intros H. apply IH in H. lia.
Qed.

Lemma skip_block_loop_progress (t : text) (k : nat) :
  k < length t -> k < skip_block_loop t k.
Proof.
  intros Hk. unfold skip_block_loop.
  destruct (star_slash (skipn (k + 2) t) (k + 2)) as [e|] eqn:E; [|assumption].
  apply star_slash_ge in E. lia.
Qed.

Lemma region_lexer_progresses : progresses region_lexer.
Proof.
  intros t k ch Hk. apply nth_error_lt in Hk. split.
  - intros _. now apply skip_line_find_progress.
  - now apply skip_block_find_progress.
Qed.

Lemma object_lexer_progresses : progresses object_lexer.
Proof.
  intros t k ch Hk. split.
  - now apply skip_line_loop_progress.
  - apply nth_error_lt in Hk. now apply skip_block_loop_progress.
Qed.

Lemma list_lexer_progresses : progresses list_lexer.
Proof.
  intros t k ch Hk. split.
  - now apply skip_line_loop_progress.
  - apply nth_error_lt in Hk. now apply skip_block_loop_progress.
Qed.

(** The loop returns within [length t - k + 1] iterations. *)
Lemma balance_total (lx : lexer) (t : text) :
  progresses lx ->
  forall fuel k st, length t - k < fuel ->
    exists r, balance lx t fuel k st = Done r.
Proof.
  intros Hp. induction fuel as [|f IH]; intros k st Hf; [lia|].
  cbn [balance]. destruct (nth_error t k) as [ch|] eqn:Hk; [|eauto].
  destruct (Hp t k ch Hk) as [Hl Hb]. unfold comment_start in Hl.
  apply nth_error_lt in Hk.
  destruct (text_eqb (slice t k (k + 2)) (str "//") || Ascii.eqb ch "#");
    [specialize (Hl eq_refl)|clear Hl; rewrite andb_false_r];
    split_ifs; eauto; apply IH; lia.
Qed.

(** A result [Some e] is the offset just past a closing delimiter. *)
Lemma balance_sound (lx : lexer) (t : text) :
  progresses lx ->
  forall fuel k st e, balance lx t fuel k st = Done (Some e) ->
    k < e /\ nth_error t (e - 1) = Some (closer lx).
Proof.
  intros Hp. induction fuel as [|f IH]; intros k st e; cbn [balance];
    [discriminate|].
  destruct (nth_error t k) as [ch|] eqn:Hk; [|discriminate].
  destruct (Hp t k ch Hk) as [Hl Hb]. unfold comment_start in Hl.
  destruct (text_eqb (slice t k (k + 2)) (str "//") || Ascii.eqb ch "#");
    [specialize (Hl eq_refl)|clear Hl; rewrite andb_false_r];
    split_ifs; intros H;
    try (apply IH in H; destruct H as [H1 H2]; split; [lia|exact H2]);
    (injection H as <-; split; [lia|];
     replace (k + 1 - 1) with k by lia;
     match goal with E : Ascii.eqb ch (closer lx) = true |- _ =>
       apply Ascii.eqb_eq in E; now rewrite <- E end).
Qed.

End ScannerFacts.

(** ** Region locator *)

Module RegionFacts.

Import Scanner Region Spec ScannerFacts Examples.

Lemma skip_to_open_total (t : text) :
  forall fuel i, length t - i < fuel -> exists r, skip_to_open t fuel i = Done r.
Proof.
  induction fuel as [|f IH]; intros i Hf; [lia|].
  simpl. destruct (nth_error t i) as [ch|] eqn:Hi; [|eauto].
  apply nth_error_lt in Hi.
  pose proof (skip_line_find_progress t _ Hi).
  pose proof (skip_block_find_progress t _ Hi).
  split_ifs; eauto; apply IH; lia.
Qed.

Lemma skip_to_open_sound (t : text) :
  forall fuel i j, skip_to_open t fuel i = Done (Some j) ->
    i <= j /\ nth_error t j = Some "["%char.
Proof.
  induction fuel as [|f IH]; intros i j; simpl; [discriminate|].
  destruct (nth_error t i) as [ch|] eqn:Hi; [|discriminate].
  pose proof (nth_error_lt _ _ _ _ Hi) as Hlt.
  pose proof (skip_line_find_progress t _ Hlt) as Hl.
  pose proof (skip_block_find_progress t _ Hlt) as Hb.
  split_ifs; intros H; try discriminate;
    try (apply IH in H; destruct H as [H1 H2]; split; [lia|exact H2]).
  injection H as <-. split; [lia|].
  match goal with E : Ascii.eqb ch "[" = true |- _ =>
    apply Ascii.eqb_eq in E; now rewrite <- E end.
Qed.

Lemma locate_open_total (t : text) : exists r, locate_open t = Done r.
Proof.
  unfold locate_open.
  destruct (first_key t keys) as [[key_pos key_len]|]; [|eauto].
  destruct (find t (str ":") (key_pos + key_len)) as [colon|]; [|eauto].
  apply skip_to_open_total. lia.
Qed.

Lemma locate_open_sound (t : text) (i : nat) :
  locate_open t = Done (Some i) -> nth_error t i = Some "["%char.
Proof.
  unfold locate_open.
  destruct (first_key t keys) as [[key_pos key_len]|]; [|discriminate].
  destruct (find t (str ":") (key_pos + key_len)) as [colon|]; [|discriminate].
  intros H. now apply skip_to_open_sound in H.
Qed.

(** The locator always returns: the iteration budget is never exhausted. *)
Lemma extract_region_total (t : text) :
  exists r, _extract_ship_list_region t = Done r.
Proof.
  unfold _extract_ship_list_region.
  destruct (locate_open_total t) as [[i|] ->]; [|eauto].
  assert (Hf : length t - i < S (length t)) by lia.
  destruct (@balance_total region_lexer t region_lexer_progresses
              (S (length t)) i bstate0 Hf) as [[e|] ->]; eauto.
Qed.

(** A region returned starts on an opening bracket and ends just past a
    closing one. *)
Lemma extract_region_sound (t : text) (a b : nat) :
  _extract_ship_list_region t = Done (Some (a, b)) ->
  a < b /\ nth_error t a = Some "["%char /\ nth_error t (b - 1) = Some "]"%char.
Proof.
  unfold _extract_ship_list_region.
  destruct (locate_open t) as [[i|]|] eqn:Ho; try discriminate.
  destruct (balance region_lexer t (S (length t)) i bstate0) as [[e|]|] eqn:Hb;
    try discriminate.
  intros [= <- <-].
  apply locate_open_sound in Ho.
  apply (@balance_sound region_lexer t region_lexer_progresses) in Hb as [H1 H2].
  auto.
Qed.

(** When the value of the ship list opens with a bracket at offset [i] and
    no closing bracket occurs from there to the end of the text, the
    region locator terminates and returns the failure value [None]. *)
Theorem extract_region_unterminated (t : text) (i : nat) :
  locate_open t = Done (Some i) ->
  (forall k, i <= k -> nth_error t k <> Some "]"%char) ->
  _extract_ship_list_region t = Done None.
Proof.
  intros Ho Hno.
  destruct (extract_region_total t) as [[[a b]|] Hr]; [|exact Hr].
  exfalso.
  pose proof (@extract_region_sound t a b Hr) as (Hab & Ha & Hb).
  unfold _extract_ship_list_region in Hr. rewrite Ho in Hr.
  destruct (balance region_lexer t (S (length t)) i bstate0) as [[e|]|];
    try discriminate.
  injection Hr as <- <-.
  apply (Hno (e - 1)); [lia|exact Hb].
Qed.

Lemma extract_region_unterminated_witness :
  _extract_ship_list_region unterminated_doc = Done None.
Proof.
  apply (@extract_region_unterminated unterminated_doc 15).
  - vm_compute. reflexivity.
  - intros k Hk.
    assert (Hall : forallb (fun c => negb (Ascii.eqb c "]"))
                     (skipn 15 unterminated_doc) = true)
      by (vm_compute; reflexivity).
    intros Hn.
    assert (Hin : In "]"%char (skipn 15 unterminated_doc)).
    { apply nth_error_In with (n := k - 15).
      rewrite nth_error_skipn. now replace (15 + (k - 15)) with k by lia. }
    rewrite forallb_forall in Hall. apply Hall in Hin. discriminate.
Defined.

End RegionFacts.

(** ** Top-level object iterator *)

Module FlowMapsFacts.

Import FlowMaps Spec Examples.

Lemma step_spec (ch : ascii) (prev : option ascii) (i lo : nat)
  (st st' : istate) (y : option (nat * nat)) :
  step ch prev i st = (st', y) ->
  lo <= i ->
  (forall b, b_start st = Some b -> lo <= b /\ b < i) ->
  match y with
  | Some (s, e) => lo <= s /\ s < e /\ e = i + 1 /\ b_start st' = None
  | None => forall b, b_start st' = Some b -> lo <= b /\ b < i + 1
  end.
Proof.
  intros Hs Hlo Hb. unfold step in Hs.
  destruct (in_q st) as [q|].
  - destruct (_ && _) in Hs; injection Hs as <- <-; simpl;
      intros b Hb'; apply Hb in Hb'; lia.
  - destruct (_ || _) in Hs.
    { injection Hs as <- <-; simpl. intros b Hb'; apply Hb in Hb'; lia. }
    destruct (Ascii.eqb ch "{") in Hs.
    { injection Hs as <- <-; simpl.
      destruct (idepth st =? 0)%Z.
      - intros b [= <-]. lia.
      - intros b Hb'; apply Hb in Hb'; lia. }
    destruct (Ascii.eqb ch "}") in Hs.
    + destruct (b_start st) as [b0|] eqn:Eb.
      * destruct (idepth st - 1 =? 0)%Z; injection Hs as <- <-; simpl.
        -- destruct (Hb b0 eq_refl). repeat split; lia.
        -- intros b [= <-]. destruct (Hb b0 eq_refl). lia.
      * injection Hs as <- <-; simpl. discriminate.
    + injection Hs as <- <-. intros b Hb'; apply Hb in Hb'; lia.
Qed.

Lemma run_ordered (t : text) (stop : nat) :
  forall fuel i st lo,
    lo <= i ->
    (forall b, b_start st = Some b -> lo <= b /\ b < i) ->
    ordered_from lo (fst (run t fuel i stop st)).
Proof.
  induction fuel as [|f IH]; intros i st lo Hlo Hb; simpl; [exact I|].
  destruct (i <? stop); [|exact I].
  destruct (nth_error t i) as [ch|]; [|exact I].
  destruct (step ch (py_index t (Z.of_nat i - 1)) i st) as [st' y] eqn:Hs.
  pose proof (step_spec _ _ _ _ _ _ _ Hs Hlo Hb) as Hy.
  destruct (run t f (i + 1) stop st') as [ys err] eqn:Hr.
  destruct y as [[s e]|]; simpl.
  - destruct Hy as (H1 & H2 & -> & H4).
    repeat split; try assumption.
    specialize (IH (i + 1) st' (i + 1)). rewrite Hr in IH. apply IH; [lia|].
    intros b Hb'. congruence.
  - specialize (IH (i + 1) st' lo). rewrite Hr in IH. apply IH; [lia|exact Hy].
Qed.

Lemma ordered_from_weaken (l : list (nat * nat)) (lo lo' : nat) :
  lo' <= lo -> ordered_from lo l -> ordered_from lo' l.
Proof.
  destruct l as [|[s e] l]; simpl; [trivial|].
  intros Hle (H1 & H2 & H3). repeat split; try assumption. lia.
Qed.

Lemma ordered_from_nth (l : list (nat * nat)) :
  forall lo j s e, ordered_from lo l -> nth_error l j = Some (s, e) ->
    lo <= s /\ s < e.
Proof.
  induction l as [|[s0 e0] l IH]; intros lo j s e Ho Hn.
  - destruct j; discriminate.
  - destruct Ho as (H1 & H2 & H3). destruct j as [|j]; simpl in Hn.
    + injection Hn as <- <-. lia.
    + destruct (IH e0 j s e H3 Hn). lia.
Qed.

Lemma ordered_from_pairwise (l : list (nat * nat)) :
  forall lo i j s1 e1 s2 e2,
    ordered_from lo l -> i < j ->
    nth_error l i = Some (s1, e1) -> nth_error l j = Some (s2, e2) ->
    s1 < e1 /\ e1 <= s2 /\ s1 < s2 /\ s2 < e2.
Proof.
  induction l as [|[s0 e0] l IH]; intros lo i j s1 e1 s2 e2 Ho Hij Hi Hj.
  - destruct i; discriminate.
  - destruct Ho as (H1 & H2 & H3).
    destruct j as [|j]; [lia|]. simpl in Hj.
    destruct i as [|i]; simpl in Hi.
    + injection Hi as <- <-.
      destruct (ordered_from_nth _ _ _ _ _ H3 Hj). lia.
    + apply (IH e0 i j s1 e1 s2 e2 H3); [lia|assumption|assumption].
Qed.

(** C9.  For every text and every pair of offsets, any two spans the
    iterator yields, the [i]-th before the [j]-th, do not overlap and have
    strictly increasing start offsets: the first ends no later than the
    second starts. *)
Theorem flow_maps_spans_ordered (t : text) (start stop i j s1 e1 s2 e2 : nat) :
  i < j ->
  nth_error (fst (_iter_top_level_flow_maps t start stop)) i = Some (s1, e1) ->
  nth_error (fst (_iter_top_level_flow_maps t start stop)) j = Some (s2, e2) ->
  s1 < e1 /\ e1 <= s2 /\ s1 < s2 /\ s2 < e2.
Proof.
  intros Hij Hi Hj.
  apply (ordered_from_pairwise
           (fst (_iter_top_level_flow_maps t start stop)) start i j s1 e1 s2 e2);
    try assumption.
  unfold _iter_top_level_flow_maps. apply run_ordered; [lia|].
  intros b Hb. discriminate.
Qed.

Lemma flow_maps_spans_ordered_witness :
  fst (_iter_top_level_flow_maps braces_doc 0 19) = [(1, 4); (5, 10); (15, 18)]
  /\ (1 < 4 /\ 4 <= 15 /\ 1 < 15 /\ 15 < 18).
Proof.
  split; [vm_compute; reflexivity|].
  apply (@flow_maps_spans_ordered braces_doc 0 19 0 2 1 4 15 18).
  - lia.
  - vm_compute. reflexivity.
  - vm_compute. reflexivity.
Defined.

(** Inside the text the iterator never reads past the end. *)
Lemma run_no_error (t : text) (stop : nat) :
  stop <= length t ->
  forall fuel i st, snd (run t fuel i stop st) = false.
Proof.
  intros Hs. induction fuel as [|f IH]; intros i st; simpl; [reflexivity|].
  destruct (i <? stop) eqn:E; [|reflexivity].
  apply Nat.ltb_lt in E.
  destruct (nth_error t i) as [ch|] eqn:Hi.
  - destruct (step ch (py_index t (Z.of_nat i - 1)) i st) as [st' y].
    specialize (IH (i + 1) st').
    destruct (run t f (i + 1) stop st') as [ys err]. exact IH.
  - apply nth_error_None in Hi. lia.
Qed.

End FlowMapsFacts.

(** ** The escape test of the region locator *)

Module EscapeFacts.

Import Scanner Region Examples.

(** The escape test of the region locator holds of no character. *)
Lemma is_two_backslashes_never (ch : ascii) : is_two_backslashes ch = false.
Proof. unfold is_two_backslashes. simpl. now rewrite andb_false_r. Qed.

(** C1.  On a document whose only record holds the value [a\~]] (an escaped
    quote, then a bracket, inside the string; [~] is the double quote), the
    array opens at offset 14 and its matching bracket is at offset 29.  The
    region locator returns [(14, 27)]: it takes the escaped quote for the
    end of the string and stops on the bracket inside it.  The same loop
    with the one-backslash escape test of [_patch_list_in_block] returns
    the offset just past the matching bracket, 30. *)
Theorem extract_region_escaped_quote :
  _extract_ship_list_region escaped_quote_doc = Done (Some (14, 27))
  /\ nth_error escaped_quote_doc 24 = Some BSL
  /\ nth_error escaped_quote_doc 25 = Some DQ
  /\ balance list_lexer escaped_quote_doc (S (length escaped_quote_doc)) 14 bstate0
     = Done (Some 30).
Proof. repeat split; vm_compute; reflexivity. Qed.

(** C7.  On a document whose array is opened and never closed, and whose
    first string [a\~]] holds an escaped quote followed by a bracket ([~]
    is the double quote), the region locator terminates and returns the
    region [(14, 20)] instead of [None]: it takes the escaped quote for the
    end of the string and the bracket inside the string for the closing
    one.  The same loop with the one-backslash escape test of
    [_patch_list_in_block] reaches the end of the text and returns [None]. *)
Theorem extract_region_unterminated_escaped :
  _extract_ship_list_region unterminated_escaped_doc = Done (Some (14, 20))
  /\ nth_error unterminated_escaped_doc 17 = Some BSL
  /\ nth_error unterminated_escaped_doc 18 = Some DQ
  /\ nth_error unterminated_escaped_doc 19 = Some "]"%char
  /\ (forall k, 19 < k -> nth_error unterminated_escaped_doc k <> Some "]"%char)
  /\ balance list_lexer unterminated_escaped_doc
       (S (length unterminated_escaped_doc)) 14 bstate0
     = Done None.
Proof.
  repeat split; try (vm_compute; reflexivity).
  intros k Hk Hn.
  assert (Hall : forallb (fun c => negb (Ascii.eqb c "]"))
                   (skipn 20 unterminated_escaped_doc) = true)
    by (vm_compute; reflexivity).
  assert (Hin : In "]"%char (skipn 20 unterminated_escaped_doc)).
  { apply nth_error_In with (n := k - 20).
    rewrite nth_error_skipn. now replace (20 + (k - 20)) with k by lia. }
  rewrite forallb_forall in Hall. apply Hall in Hin. discriminate.
Qed.

End EscapeFacts.

(** ** Banner stamp *)

Module BannerFacts.

Import Re Banner Examples.

(** C10.  A document with no line matching the banner pattern and no
    opening brace is returned unchanged by the banner stamp. *)
Theorem banner_without_brace_is_identity (value t : text) :
  search2 t banner_indent banner_line 0 = None ->
  ~ In "{"%char t ->
  _upsert_editor_banner_simple value t = t.
Proof.
  intros Hs Hb. unfold _upsert_editor_banner_simple. rewrite Hs.
  change (str "{") with ["{"%char]. now rewrite (find_none_char _ _ Hb).
Qed.

Lemma banner_without_brace_is_identity_witness :
  _upsert_editor_banner_simple stamp (str "ship-list: []") = str "ship-list: []".
Proof.
  apply banner_without_brace_is_identity.
  - vm_compute. reflexivity.
  - intros Hin.
    assert (H : existsb (Ascii.eqb "{") (str "ship-list: []") = false)
      by (vm_compute; reflexivity).
    apply not_true_iff_false in H. apply H.
    apply existsb_exists. exists "{"%char. split; [exact Hin|apply Ascii.eqb_refl].
Defined.

(** C8.  Stamping the one-line document [{~a~:1}] twice with the same
    banner value: the first stamp inserts the banner line in front of the
    rest of the first line, the pattern (anchored at the end of a line)
    does not match the result, and the second stamp inserts a second
    banner line. *)
Theorem banner_twice_duplicates :
  let once := _upsert_editor_banner_simple stamp one_line_doc in
  let twice := _upsert_editor_banner_simple stamp once in
  once = str "{" ++ [LF] ++ str "  " ++ banner_text stamp ++ doc "~a~:1}"
  /\ search2 once banner_indent banner_line 0 = None
  /\ twice = str "{" ++ [LF] ++ str "  " ++ banner_text stamp
             ++ [LF] ++ str "  " ++ banner_text stamp ++ doc "~a~:1}"
  /\ twice <> once.
Proof.
  repeat split; try (vm_compute; reflexivity).
  intros H. apply (f_equal (@length ascii)) in H. vm_compute in H. discriminate.
Qed.

End BannerFacts.

(** ** Regular expressions *)

Module ReFacts.

Import Re Spec.

Section Bounds.

Variable t : text.


Lemma reach_refl (p : nat) : reach t p p.
Proof. split; auto. Qed.

Lemma reach_trans (p q r : nat) : reach t p q -> reach t q r -> reach t p r.
Proof. intros [H1 H2] [H3 H4]. split; [lia|auto]. Qed.

Lemma greedy_reach (step : nat -> list nat) :
  (forall p q, In q (step p) -> reach t p q) ->
  forall fuel p q, In q (greedy step fuel p) -> reach t p q.
Proof.
  intros Hs. induction fuel as [|f IH]; intros p q; simpl.
  - intros [<-|[]]. apply reach_refl.
  - intros H. apply in_app_or in H as [H|[<-|[]]]; [|apply reach_refl].
    apply in_flat_map in H as (x & Hx & Hq).
    destruct (p <? x); [|contradiction].
    apply reach_trans with x; auto.
Qed.

Lemma lazy_reach (step : nat -> list nat) :
  (forall p q, In q (step p) -> reach t p q) ->
  forall fuel p q, In q (lazy step fuel p) -> reach t p q.
Proof.
  intros Hs. induction fuel as [|f IH]; intros p q; simpl.
  - intros [<-|[]]. apply reach_refl.
  - intros [<-|H]; [apply reach_refl|].
    apply in_flat_map in H as (x & Hx & Hq).
    destruct (p <? x); [|contradiction].
    apply reach_trans with x; auto.
Qed.

(** A match ends at or after its start, and inside the text. *)
Lemma ends_reach (r : regex) : forall p q, In q (ends t r p) -> reach t p q.
Proof.
  induction r as [|f|a IHa b IHb|a IHa b IHb|a IHa|a IHa| |]; intros p q; simpl.
  - intros [<-|[]]. apply reach_refl.
  - destruct (nth_error t p) as [c|] eqn:E; [|contradiction].
    destruct (f c); [|contradiction].
    intros [<-|[]]. apply nth_error_lt in E. split; lia.
  - intros H. apply in_flat_map in H as (x & Hx & Hq).
    apply reach_trans with x; auto.
  - intros H. apply in_app_or in H as [H|H]; auto.
  - apply greedy_reach. exact IHa.
  - apply lazy_reach. exact IHa.
  - destruct (bol t p); [|contradiction]. intros [<-|[]]. apply reach_refl.
  - destruct (eol t p); [|contradiction]. intros [<-|[]]. apply reach_refl.
Qed.

Lemma flat_map_agree (A B : Type) (f g : A -> list B) (l : list A) :
  (forall a, In a l -> f a = g a) -> flat_map f l = flat_map g l.
Proof.
  induction l as [|x l IH]; intros H; simpl; [reflexivity|].
  rewrite (H x), IH; [reflexivity| |now left].
  intros a Ha. apply H. now right.
Qed.

Lemma flat_map_empty (A B : Type) (l : list A) :
  flat_map (fun _ : A => @nil B) l = [].
Proof. induction l; simpl; auto. Qed.

(** The budget given to a repetition is enough: a larger one yields the
    same matches. *)
Lemma greedy_budget (step : nat -> list nat) :
  (forall p q, In q (step p) -> reach t p q) ->
  forall f p, p <= length t -> length t - p <= f ->
    greedy step f p = greedy step (length t - p) p.
Proof.
  intros Hs. induction f as [f IH] using lt_wf_ind. intros p Hp Hf.
  destruct f as [|f']; [now replace (length t - p) with 0 by lia|].
  destruct (length t - p) as [|m'] eqn:Em; cbn [greedy]; f_equal.
  - rewrite (flat_map_agree _ _ _ (fun _ => [])); [now rewrite flat_map_empty|].
    intros q Hq. apply Hs in Hq as [H1 H2].
    replace (p <? q) with false; [reflexivity|].
    symmetry. apply Nat.ltb_ge. specialize (H2 Hp). lia.
  - apply flat_map_agree. intros q Hq. apply Hs in Hq as [H1 H2].
    specialize (H2 Hp).
    destruct (p <? q) eqn:E; [|reflexivity]. apply Nat.ltb_lt in E.
    rewrite (IH f'), (IH m'); try lia. reflexivity.
Qed.

Lemma lazy_budget (step : nat -> list nat) :
  (forall p q, In q (step p) -> reach t p q) ->
  forall f p, p <= length t -> length t - p <= f ->
    lazy step f p = lazy step (length t - p) p.
Proof.
  intros Hs. induction f as [f IH] using lt_wf_ind. intros p Hp Hf.
  destruct f as [|f']; [now replace (length t - p) with 0 by lia|].
  destruct (length t - p) as [|m'] eqn:Em; cbn [lazy]; f_equal.
  - rewrite (flat_map_agree _ _ _ (fun _ => [])); [now rewrite flat_map_empty|].
    intros q Hq. apply Hs in Hq as [H1 H2].
    replace (p <? q) with false; [reflexivity|].
    symmetry. apply Nat.ltb_ge. specialize (H2 Hp). lia.
  - apply flat_map_agree. intros q Hq. apply Hs in Hq as [H1 H2].
    specialize (H2 Hp).
    destruct (p <? q) eqn:E; [|reflexivity]. apply Nat.ltb_lt in E.
    rewrite (IH f'), (IH m'); try lia. reflexivity.
Qed.

Lemma star_budget (a : regex) (f p : nat) :
  p <= length t -> length t - p <= f ->
  greedy (ends t a) f p = ends t (Star a) p.
Proof.
  intros Hp Hf. cbn [ends]. apply greedy_budget; [|exact Hp|exact Hf].
  intros x y Hy. now apply (ends_reach a).
Qed.

Lemma first_from_some (A : Type) (f : nat -> option A) :
  forall count p a, first_from f p count = Some a ->
    exists k, p <= k /\ k < p + count /\ f k = Some a.
Proof.
  induction count as [|c IH]; intros p a; simpl; [discriminate|].
  destruct (f p) as [x|] eqn:E.
  - intros [= <-]. exists p. repeat split; [lia|lia|exact E].
  - intros H. apply IH in H as (k & H1 & H2 & H3).
    exists k. repeat split; [lia|lia|exact H3].
Qed.

Lemma first_from_none (A : Type) (f : nat -> option A) :
  (forall k, f k = None) -> forall count p, first_from f p count = None.
Proof.
  intros Hf. induction count as [|c IH]; intros p; simpl; [reflexivity|].
  now rewrite Hf.
Qed.

Lemma first_of_some (A : Type) (f : nat -> option A) :
  forall qs a, first_of f qs = Some a -> exists q, In q qs /\ f q = Some a.
Proof.
  induction qs as [|q qs IH]; intros a; simpl; [discriminate|].
  destruct (f q) as [x|] eqn:E.
  - intros [= <-]. exists q. split; [now left|exact E].
  - intros H. apply IH in H as (k & H1 & H2). exists k. split; [now right|exact H2].
Qed.

(** Matching two adjacent groups is matching their concatenation: the
    match found has the same start and the same end. *)
Lemma match2_at_is_Seq (h v : regex) (p : nat) :
  match match2_at t h v p with
  | Some (p', _, e) => p' = p /\ hd_error (ends t (Seq h v) p) = Some e
  | None => ends t (Seq h v) p = []
  end.
Proof.
  unfold match2_at. cbn [ends].
  induction (ends t h p) as [|q qs IH]; simpl; [reflexivity|].
  destruct (ends t v q) as [|e tail]; simpl; [exact IH|].
  split; reflexivity.
Qed.

Lemma search2_is_search (h v : regex) (pos p q r : nat) :
  search2 t h v pos = Some (p, q, r) -> search t (Seq h v) pos = Some (p, r).
Proof.
  unfold search2, search. generalize (S (length t) - pos). intros count.
  revert pos. induction count as [|c IH]; intros pos; cbn [first_from];
    [discriminate|].
  pose proof (match2_at_is_Seq h v pos) as Hm.
  destruct (match2_at t h v pos) as [[[p' q'] e]|].
  - destruct Hm as [-> He]. intros [= <- <- <-].
    destruct (ends t (Seq h v) pos) as [|e' tail]; [discriminate|].
    simpl in He. congruence.
  - rewrite Hm. apply IH.
Qed.

(** The three offsets of a match of a two-group pattern are in order and
    inside the text. *)
Lemma search2_bounds (h v : regex) (p q r : nat) :
  search2 t h v 0 = Some (p, q, r) ->
  p <= q /\ q <= r /\ r <= length t.
Proof.
  unfold search2. intros H.
  apply first_from_some in H as (k & _ & Hk & H).
  unfold match2_at in H. apply first_of_some in H as (x & Hx & H).
  destruct (ends t v x) as [|e tail] eqn:Ev; [discriminate|].
  injection H as <- <- <-.
  apply ends_reach in Hx as [H1 H2].
  assert (He : In e (ends t v x)) by (rewrite Ev; now left).
  apply ends_reach in He as [H3 H4].
  repeat split; try assumption. apply H4, H2. lia.
Qed.

Lemma ends_Seq (a b : regex) (p : nat) :
  ends t (Seq a b) p = flat_map (ends t b) (ends t a p).
Proof. reflexivity. Qed.

Lemma ends_Alt (a b : regex) (p : nat) :
  ends t (Alt a b) p = ends t a p ++ ends t b p.
Proof. reflexivity. Qed.

(** A literal matches only where it stands in the text. *)
Lemma ends_Lit_prefix (a : text) :
  forall p q, In q (ends t (Lit a) p) -> prefix_of a (skipn p t) = true.
Proof.
  induction a as [|c a IH]; intros p q; simpl; [reflexivity|].
  intros H. apply in_flat_map in H as (x & Hx & Hq).
  destruct (nth_error t p) as [c'|] eqn:E; [|contradiction].
  destruct (Ascii.eqb c c') eqn:Ec; [|contradiction].
  destruct Hx as [<-|[]].
  apply IH in Hq.
  assert (Hs : skipn p t = c' :: skipn (S p) t).
  { clear -E. revert p E. induction t as [|y l IHl]; intros [|p] E;
      try discriminate; simpl in *.
    - now injection E as ->.
    - now apply IHl. }
  rewrite Hs. now rewrite Ec.
Qed.

Lemma prefix_occurs (a : text) (p : nat) :
  prefix_of a (skipn p t) = true -> occurs a t.
Proof.
  intros H. apply prefix_of_app in H as [rest Hr].
  exists (firstn p t), rest. rewrite <- Hr. symmetry. apply firstn_skipn.
Qed.

Lemma ends_Alts_Lit (ks : list text) :
  ks <> [] ->
  forall p q, In q (ends t (Alts (map Lit ks)) p) ->
    exists a, In a ks /\ In q (ends t (Lit a) p).
Proof.
  induction ks as [|k ks IH]; intros Hne p q; [congruence|].
  destruct ks as [|k' ks].
  - simpl. intros H. exists k. split; [now left|exact H].
  - change (Alts (map Lit (k :: k' :: ks)))
      with (Alt (Lit k) (Alts (map Lit (k' :: ks)))).
    simpl ends. intros H. apply in_app_or in H as [H|H].
    + exists k. split; [now left|exact H].
    + apply IH in H as (a & Ha & Hq); [|discriminate].
      exists a. split; [now right|exact Hq].
Qed.

End Bounds.

End ReFacts.

(** ** Field patcher *)

Module PatcherFacts.

Import Re Render Patcher Spec Examples ReFacts.

Lemma slice_join (t : text) (p q r : nat) :
  p <= q -> q <= r -> r <= length t ->
  firstn p t ++ slice t p q ++ slice t q r ++ skipn r t = t.
Proof.
  intros Hpq Hqr Hr. unfold slice.
  assert (H1 : forall a b, a <= b -> b <= length t ->
             firstn a t ++ firstn (b - a) (skipn a t) = firstn b t).
  { intros a b Hab Hb.
    assert (La : length (firstn a t) = a) by (rewrite length_firstn; lia).
    transitivity (firstn b (firstn a t ++ skipn a t));
      [|now rewrite firstn_skipn].
    rewrite firstn_app, La.
    rewrite (firstn_all2 (firstn a t)) by lia. reflexivity. }
  rewrite app_assoc, H1 by lia.
  rewrite app_assoc, H1 by lia.
  apply firstn_skipn.
Qed.

(** Group 1 of the patchers' pattern matches only when one of the key
    names occurs in the text. *)
Lemma key_head_occurs (t : text) (k : text) (aliases : list text) (p q : nat) :
  In q (ends t (key_head (k :: aliases)) p) ->
  exists a, In a (k :: aliases) /\ occurs a t.
Proof.
  unfold key_head, key_alt. intros H.
  rewrite ends_Seq in H.
  apply in_flat_map in H as (x & Hx & _).
  rewrite ends_Alt in Hx. apply in_app_or in Hx as [Hx|Hx].
  - rewrite ends_Seq in Hx. apply in_flat_map in Hx as (y & _ & Hy).
    rewrite ends_Seq in Hy. apply in_flat_map in Hy as (z & Hz & _).
    apply ends_Alts_Lit in Hz as (a & Ha & Hz); [|discriminate].
    exists a. split; [exact Ha|].
    eapply prefix_occurs, ends_Lit_prefix; eassumption.
  - apply ends_Alts_Lit in Hx as (a & Ha & Hx); [|discriminate].
    exists a. split; [exact Ha|].
    eapply prefix_occurs, ends_Lit_prefix; eassumption.
Qed.

Lemma key_head_absent (t : text) (k : text) (aliases : list text) :
  (forall a, In a (k :: aliases) -> ~ occurs a t) ->
  forall p, ends t (key_head (k :: aliases)) p = [].
Proof.
  intros Habs p.
  destruct (ends t (key_head (k :: aliases)) p) as [|q l] eqn:E; [reflexivity|].
  exfalso.
  assert (Hq : In q (ends t (key_head (k :: aliases)) p)) by (rewrite E; now left).
  apply key_head_occurs in Hq as (a & Ha & Ho). exact (Habs a Ha Ho).
Qed.

Lemma patch_scalar_absent (block k : text) (aliases : list text) (value_str : text) :
  (forall a, In a (k :: aliases) -> ~ occurs a block) ->
  _patch_scalar_in_block block (k :: aliases) value_str = (block, 0).
Proof.
  intros Habs. unfold _patch_scalar_in_block, search2.
  rewrite first_from_none; [reflexivity|].
  intros p. unfold match2_at. now rewrite key_head_absent.
Qed.

Lemma patch_list_absent (block k : text) (aliases : list text)
  (new_list_str : option text) (new_list_obj : option (list pyval)) :
  (forall a, In a (k :: aliases) -> ~ occurs a block) ->
  _patch_list_in_block block (k :: aliases) new_list_str new_list_obj
  = Done (block, 0).
Proof.
  intros Habs. unfold _patch_list_in_block, search.
  rewrite first_from_none; [reflexivity|].
  intros p. now rewrite key_head_absent.
Qed.

End PatcherFacts.

(** ** Record mutator *)

Module MutatorFacts.

Import Scanner Region Locator Patcher Render Banner Spec Examples.
Import RegionFacts PatcherFacts.

Lemma py_index_nat (t : text) (k : nat) : py_index t (Z.of_nat k) = nth_error t k.
Proof.
  unfold py_index.
  destruct (0 <=? Z.of_nat k)%Z eqn:E.
  - now rewrite Nat2Z.id.
  - apply Z.leb_gt in E. lia.
Qed.

(** The backward loop stops on the first offset, going down from [i + d],
    that is not above [lo] or does not hold white space. *)
Lemma back_over_space_stops (raw : text) (lo i : nat) :
  lo <= i ->
  (i = lo \/ exists c, nth_error raw i = Some c /\ isspace c = false) ->
  forall d,
    (forall k, i < k -> k <= i + d ->
       exists w, nth_error raw k = Some w /\ isspace w = true) ->
    back_over_space raw (Z.of_nat lo) (i + d - lo) (Z.of_nat (i + d)) = Z.of_nat i.
Proof.
  intros Hlo Hstop. induction d as [|d IH]; intros Hsp.
  - rewrite Nat.add_0_r. destruct (i - lo) as [|f] eqn:Ef; simpl; [reflexivity|].
    destruct Hstop as [->|(c & Hc & Hs)]; [lia|].
    rewrite py_index_nat, Hc, Hs. now rewrite andb_false_r.
  - replace (i + S d - lo) with (S (i + d - lo)) by lia. simpl.
    destruct (Hsp (i + S d)) as (w & Hw & Hs); [lia|lia|].
    rewrite py_index_nat, Hw, Hs.
    replace (Z.of_nat lo <? Z.of_nat (i + S d))%Z with true
      by (symmetry; apply Z.ltb_lt; lia).
    simpl. replace (Z.of_nat (i + S d) - 1)%Z with (Z.of_nat (i + d)) by lia.
    apply IH. intros k H1 H2. apply Hsp; lia.
Qed.

Lemma skip_back_stops (raw : text) (lo i start : nat) :
  lo <= i -> i < start ->
  (i = lo \/ exists c, nth_error raw i = Some c /\ isspace c = false) ->
  (forall k, i < k -> k < start ->
     exists w, nth_error raw k = Some w /\ isspace w = true) ->
  skip_back raw (Z.of_nat lo) (Z.of_nat start - 1) = Z.of_nat i.
Proof.
  intros Hlo Hi Hstop Hsp. unfold skip_back.
  replace (Z.of_nat start - 1)%Z with (Z.of_nat (i + (start - 1 - i))) by lia.
  replace (Z.to_nat (Z.of_nat (i + (start - 1 - i)) - Z.of_nat lo))
    with (i + (start - 1 - i) - lo) by lia.
  apply back_over_space_stops; try assumption.
  intros k H1 H2. apply Hsp; lia.
Qed.

Lemma skipn_leading_spaces (s : text) : skipn (leading_spaces s) s = lstrip s.
Proof.
  induction s as [|c s IH]; simpl; [reflexivity|].
  destruct (isspace c); simpl; [exact IH|reflexivity].
Qed.

Lemma nth_error_skipn_hd (A : Type) (l : list A) (n : nat) :
  nth_error l n = hd_error (skipn n l).
Proof.
  revert l; induction n as [|n IH]; intros [|x l]; simpl; auto.
Qed.

Lemma skipn_S_tl (A : Type) (l : list A) (n : nat) :
  skipn (n + 1) l = tl (skipn n l).
Proof.
  revert l; induction n as [|n IH]; intros [|x l]; simpl; auto.
Qed.

(** The forward part of the removal leaves the text that follows the span,
    without its leading white space and without one leading comma. *)
Lemma forward_cut (raw : text) (stop : nat) :
  let j := stop + leading_spaces (skipn stop raw) in
  skipn (match nth_error raw j with
         | Some c => if Ascii.eqb c "," then j + 1 else j
         | None => j
         end) raw
  = drop_comma (lstrip (skipn stop raw)).
Proof.
  intros j.
  assert (Hj : skipn j raw = lstrip (skipn stop raw)).
  { unfold j. rewrite Nat.add_comm, <- skipn_skipn. apply skipn_leading_spaces. }
  rewrite nth_error_skipn_hd, Hj.
  destruct (lstrip (skipn stop raw)) as [|c s'] eqn:E; simpl.
  - exact Hj.
  - destruct (Ascii.eqb c ","); [|exact Hj].
    now rewrite skipn_S_tl, Hj.
Qed.

Lemma remove_span_spec (raw : text) (arr_start start stop i : nat) (c : ascii) :
  arr_start <= i -> i < start ->
  nth_error raw i = Some c -> isspace c = false ->
  (forall k, i < k -> k < start ->
     exists w, nth_error raw k = Some w /\ isspace w = true) ->
  remove_span raw arr_start start stop
  = if Ascii.eqb c "," then firstn i raw ++ skipn stop raw
    else firstn start raw ++ drop_comma (lstrip (skipn stop raw)).
Proof.
  intros Hlo Hi Hc Hs Hsp. unfold remove_span.
  rewrite (skip_back_stops raw arr_start i start Hlo Hi); [|right; eauto|exact Hsp].
  rewrite py_index_nat, Hc, Nat2Z.id.
  replace (Z.of_nat arr_start <=? Z.of_nat i)%Z with true
    by (symmetry; apply Z.leb_le; lia).
  simpl. destruct (Ascii.eqb c ","); [reflexivity|].
  f_equal. apply forward_cut.
Qed.

(** A span that starts at or before the opening bracket of the array is
    removed without a look at what precedes it: the loop's bound and the
    test [i >= arr_start] keep the delete from reading before the array. *)
Lemma remove_span_before_region (raw : text) (arr_start start stop : nat) :
  start <= arr_start ->
  remove_span raw arr_start start stop
  = firstn start raw ++ drop_comma (lstrip (skipn stop raw)).
Proof.
  intros Hle. unfold remove_span, skip_back.
  replace (Z.to_nat (Z.of_nat start - 1 - Z.of_nat arr_start)) with 0 by lia.
  cbn [back_over_space].
  replace (Z.of_nat arr_start <=? Z.of_nat start - 1)%Z with false
    by (symmetry; apply Z.leb_gt; lia).
  cbn [andb]. f_equal. apply forward_cut.
Qed.

(** Let the delete locate the record span [start, stop) inside the
    array region (which opens at [arr_start]), and let [c], at offset [i],
    be the first character before the span that is not white space.  If
    [c] is a comma, the text from that comma to the end of the span is
    removed.  Otherwise the span is removed together with the white space
    that follows it and at most one comma after that white space. *)
Theorem delete_resolves_separator (raw key : text)
  (arr_start arr_end start stop : nat) (rest : list (nat * nat))
  (i : nat) (c : ascii) :
  _extract_ship_list_region raw = Done (Some (arr_start, arr_end)) ->
  _iter_object_spans_for_key raw key = Done ((start, stop) :: rest) ->
  arr_start < start ->
  i < start -> nth_error raw i = Some c -> isspace c = false ->
  (forall k, i < k -> k < start ->
     exists w, nth_error raw k = Some w /\ isspace w = true) ->
  _surgical_delete_ship_by_key (Some raw) key
  = Done (true,
          Some (if Ascii.eqb c "," then firstn i raw ++ skipn stop raw
                else firstn start raw ++ drop_comma (lstrip (skipn stop raw)))).
Proof.
  intros Hr Hm Hin Hi Hc Hs Hsp.
  assert (Hlo : arr_start <= i).
  { destruct (Nat.le_gt_cases arr_start i) as [H|H]; [exact H|exfalso].
    apply extract_region_sound in Hr as (_ & Ha & _).
    destruct (Hsp arr_start H Hin) as (w & Hw & Hws).
    rewrite Ha in Hw. injection Hw as <-. vm_compute in Hws. discriminate. }
  unfold _surgical_delete_ship_by_key.
  destruct raw as [|x raw']; [destruct i; discriminate|].
  cbn [is_empty_raw]. rewrite Hr. cbn [scan_bind]. rewrite Hm. cbn [scan_bind].
  now rewrite (remove_span_spec _ arr_start start stop i c Hlo Hi Hc Hs Hsp).
Qed.

Lemma spaces_between (raw : text) (i start : nat) :
  forallb isspace (firstn (start - S i) (skipn (S i) raw)) = true ->
  start <= length raw ->
  forall k, i < k -> k < start ->
    exists w, nth_error raw k = Some w /\ isspace w = true.
Proof.
  intros Hall Hlen k H1 H2.
  destruct (nth_error raw k) as [w|] eqn:E.
  - exists w. split; [reflexivity|].
    rewrite forallb_forall in Hall. apply Hall.
    apply nth_error_In with (n := k - S i).
    rewrite nth_error_firstn.
    replace (k - S i <? start - S i) with true by (symmetry; apply Nat.ltb_lt; lia).
    rewrite nth_error_skipn. now replace (S i + (k - S i)) with k by lia.
  - apply nth_error_None in E. lia.
Qed.

(** Deleting the middle record [b] of [fleet_doc]: the comma that
    precedes it goes with it. *)
Lemma delete_resolves_separator_witness :
  _surgical_delete_ship_by_key (Some fleet_doc) (str "b")
  = Done (true, Some (firstn 48 fleet_doc ++ skipn 82 fleet_doc)).
Proof.
  apply (delete_resolves_separator fleet_doc (str "b") 18 120 54 82 [] 48 ","%char).
  - vm_compute. reflexivity.
  - vm_compute. reflexivity.
  - lia.
  - lia.
  - vm_compute. reflexivity.
  - vm_compute. reflexivity.
  - apply spaces_between; [vm_compute; reflexivity|vm_compute; lia].
Defined.

(** Deleting the first record: the next record becomes the first token
    after the opening bracket, with no comma in front of it. *)
Example delete_first_record :
  _surgical_delete_ship_by_key (Some fleet_doc) (str "a")
  = Done (true, Some fleet_without_a).
Proof. vm_compute. reflexivity. Qed.

(** Deleting a middle record leaves a single comma between its
    neighbours. *)
Example delete_middle_record :
  _surgical_delete_ship_by_key (Some fleet_doc) (str "b")
  = Done (true, Some fleet_without_b).
Proof. vm_compute. reflexivity. Qed.

Lemma scalar_parts_ok (l : list pyval) :
  forallb is_scalar l = true -> exists parts, scalar_parts l = Ok parts.
Proof.
  induction l as [|v l IH]; simpl; [eauto|].
  intros H. apply andb_true_iff in H as [Hv Hl].
  destruct (IH Hl) as [parts ->].
  destruct v; try discriminate; simpl; eauto.
Qed.

(** C6, as amended.  When none of the spellings of a key occurs in the
    text of an object span, the scalar patcher and the array patcher both
    return the text unchanged with a replacement count of zero; and when
    the new value of that key is one the update can render, the turn of
    the update loop for that key leaves the text as it is and the loop
    goes on with the remaining keys. *)
Theorem absent_key_is_not_patched (block k : text) (aliases : list text) :
  (forall a, In a (k :: aliases) -> ~ occurs a block) ->
  (forall value_str,
      _patch_scalar_in_block block (k :: aliases) value_str = (block, 0))
  /\ (forall new_list_str new_list_obj,
         _patch_list_in_block block (k :: aliases) new_list_str new_list_obj
         = Done (block, 0))
  /\ (forall updates ks v,
         key_forms k = k :: aliases ->
         Dict.get updates k = Some v ->
         renders k v = true ->
         apply_updates updates (k :: ks) block = apply_updates updates ks block).
Proof.
  intros Habs. split; [|split].
  - intros value_str. now apply patch_scalar_absent.
  - intros nl no. now apply patch_list_absent.
  - intros updates ks v Hk Hv Hr.
    cbn [apply_updates]. rewrite Hv.
    assert (Hp : patch_field block k v = Done (Ok (block, 0))).
    { unfold patch_field. rewrite Hk.
      destruct v as [| | | | |l|d]; unfold renders in Hr; try discriminate;
        try (cbn [_repr_hjson_scalar]; now rewrite patch_scalar_absent).
      destruct (existsb is_dict l || text_eqb k (str "torpedostart")) eqn:E.
      - now rewrite patch_list_absent.
      - cbn [orb] in Hr. destruct (scalar_parts_ok l Hr) as [parts Hparts].
        unfold _repr_hjson_list. rewrite Hparts.
        now rewrite patch_list_absent. }
    rewrite Hp. reflexivity.
Qed.

(** The block of record [a] has no key [hull]: an update of [hull] and
    [side] patches [side] only. *)
Lemma absent_key_is_not_patched_witness :
  apply_updates [(str "hull", PInt 3); (str "side", PStr (str "USFP"))]
                [str "hull"; str "side"] block_a
  = Done (Ok (doc "{~Key~:~a~,~side~:~USFP~}")).
Proof.
  assert (Habs : forall a, In a [str "hull"] -> ~ occurs a block_a).
  { intros a [<-|[]] (pre & post & H).
    revert H. apply contains_false_no_occurrence. vm_compute. reflexivity. }
  destruct (absent_key_is_not_patched block_a (str "hull") [] Habs) as (_ & _ & H3).
  rewrite (H3 _ _ (PInt 3)); [vm_compute; reflexivity|reflexivity|reflexivity|reflexivity].
Defined.

(** C3.  Inserting record [d] of side [TSN] into [fleet_doc], whose last
    record of that side, [a], is followed by two more records: the new
    record is placed right behind [a] with a comma before it and a comma
    after it, in front of the comma that already followed [a].  The array
    now holds two commas in a row between [d] and [b]. *)
Theorem insert_behind_middle_record_doubles_comma :
  _surgical_insert_ship_block loads_fleet lower (Some fleet_doc)
    (ship "d" "TSN") true
  = Done (Ok tt, Some fleet_with_tsn)
  /\ slice fleet_with_tsn 24 48 = block_a
  /\ slice fleet_with_tsn 48 54 = str "," ++ [LF] ++ str "    "
  /\ slice fleet_with_tsn 54 93 = rendered_d
  /\ slice fleet_with_tsn 93 96 = str "," ++ [LF] ++ str ",".
Proof. repeat split; vm_compute; reflexivity. Qed.

End MutatorFacts.

(** ** Every operation returns

    None of the loops run with an iteration budget exhausts it: the
    scanners, the locator, the patchers and the three record operations
    return on every input. *)

Module Totality.

Import Re Scanner Region FlowMaps Locator Patcher Render Banner Spec.
Import ScannerFacts RegionFacts FlowMapsFacts.

Lemma seek_bracket_total (t : text) :
  forall fuel i, length t - i < fuel -> exists r, seek_bracket t fuel i = Done r.
Proof.
  induction fuel as [|f IH]; intros i Hf; [lia|].
  cbn [seek_bracket]. destruct (nth_error t i) as [ch|] eqn:Hi; [|eauto].
  pose proof (skip_line_loop_progress t i ch Hi) as Hl. unfold comment_start in Hl.
  pose proof (skip_block_loop_progress t i (nth_error_lt _ _ _ _ Hi)) as Hb.
  apply nth_error_lt in Hi.
  destruct (text_eqb (slice t i (i + 2)) (str "//") || Ascii.eqb ch "#");
    [specialize (Hl eq_refl); apply IH; lia|].
  split_ifs; eauto; apply IH; lia.
Qed.

Lemma patch_list_total (block : text) (key_names : list text)
  (new_list_str : option text) (new_list_obj : option (list pyval)) :
  exists r, _patch_list_in_block block key_names new_list_str new_list_obj = Done r.
Proof.
  unfold _patch_list_in_block.
  destruct (search block (key_head key_names) 0) as [[p pos]|]; [|eauto].
  destruct (seek_bracket_total block (S (length block)) pos) as [found ->]; [lia|].
  cbn [scan_bind]. destruct found as [i|]; [|eauto].
  destruct (nth_error block i) as [ch|]; [|eauto].
  destruct (Ascii.eqb ch "["); [|eauto].
  destruct (balance_total list_lexer block list_lexer_progresses
              (S (length block)) i bstate0) as [e ->]; [lia|].
  cbn [scan_bind]. destruct e; eauto.
Qed.

Lemma find_object_bounds_total (t : text) (anchor : nat) :
  exists r, find_object_bounds t anchor = Done r.
Proof.
  unfold find_object_bounds.
  destruct (match back_walk t (S anchor) bstate0 with
            | Some i => Some i
            | None => last_line_brace t anchor
            end) as [start|]; [|eauto].
  destruct (balance_total object_lexer t object_lexer_progresses
              (S (length t)) start bstate0) as [e ->]; [lia|].
  cbn [scan_bind]. destruct e; eauto.
Qed.

Lemma spans_of_total (t wanted : text) (ms : list kmatch) :
  exists r, spans_of t wanted ms = Done r.
Proof.
  induction ms as [|m ms [rest IH]]; cbn [spans_of]; [eauto|].
  destruct (negb (text_eqb (mv m) wanted)); [eauto|].
  destruct (find_object_bounds_total t (m_start m)) as [b ->].
  cbn [scan_bind]. rewrite IH. cbn [scan_bind]. eauto.
Qed.

(** The record locator returns on every text. *)
Lemma iter_object_spans_total (raw wanted : text) :
  exists r, _iter_object_spans_for_key raw wanted = Done r.
Proof. apply spans_of_total. Qed.

(** Over a region the locator returned, the object iterator reads no
    character past the end of the text. *)
Lemma region_spans_no_error (t : text) (a b : nat) :
  _extract_ship_list_region t = Done (Some (a, b)) ->
  snd (_iter_top_level_flow_maps t a b) = false.
Proof.
  intros H. apply extract_region_sound in H as (Hab & _ & Hb).
  apply nth_error_lt in Hb. apply run_no_error. lia.
Qed.

Lemma patch_field_total (block k : text) (v : pyval) :
  exists r, patch_field block k v = Done r.
Proof.
  unfold patch_field. destruct v as [| | | | |l|d];
    try (destruct (_repr_hjson_scalar _); eauto).
  destruct (existsb is_dict l || text_eqb k (str "torpedostart")).
  - destruct (patch_list_total block (key_forms k) None (Some l)) as [r ->].
    cbn [scan_bind]. eauto.
  - destruct (_repr_hjson_list l) as [vstr|e]; [|eauto].
    destruct (patch_list_total block (key_forms k) (Some vstr) None) as [r ->].
    cbn [scan_bind]. eauto.
Qed.

Lemma apply_updates_total (updates : pydict) (ks : list text) :
  forall block, exists r, apply_updates updates ks block = Done r.
Proof.
  induction ks as [|k ks IH]; intros block; cbn [apply_updates]; [eauto|].
  destruct (Dict.get updates k) as [v|]; [|apply IH].
  destruct (patch_field_total block k v) as [r ->]. cbn [scan_bind].
  destruct r as [[new_block n]|e]; [apply IH|eauto].
Qed.

Section Operations.

Variable hjson_loads : text -> option pydict.
Variable casefold : text -> text.
Variable container_str : pyval -> text.
Variable banner_value : text.

Lemma delete_total (raw0 : option text) (key_value : text) :
  exists r, _surgical_delete_ship_by_key raw0 key_value = Done r.
Proof.
  unfold _surgical_delete_ship_by_key.
  destruct (is_empty_raw raw0); [eauto|].
  destruct (extract_region_total (match raw0 with Some r => r | None => [] end))
    as [[[a b]|] ->]; cbn [scan_bind]; [|eauto].
  destruct (iter_object_spans_total
              (match raw0 with Some r => r | None => [] end) key_value)
    as [[|[s e] rest] ->]; cbn [scan_bind]; eauto.
Qed.

Lemma insert_total (raw0 : option text) (ship : pydict) (cluster : bool) :
  exists r, _surgical_insert_ship_block hjson_loads casefold raw0 ship cluster
            = Done r.
Proof.
  unfold _surgical_insert_ship_block.
  destruct raw0 as [[|x raw]|]; [eauto| |eauto].
  destruct (extract_region_total (x :: raw)) as [[[a b]|] ->]; cbn [scan_bind];
    [|eauto].
  destruct (_ship_list_indentation (x :: raw) a b) as [[base item] lb].
  destruct (side_of casefold _) as [new_side|e]; [|eauto].
  destruct (if cluster && negb (text_eqb new_side []) then _ else _)
    as [[last|]|e]; eauto.
Qed.

Lemma first_span_total (raw wanted : text) :
  exists r, first_span raw wanted = Done r.
Proof.
  unfold first_span.
  destruct (iter_object_spans_total raw wanted) as [ms ->]. cbn [scan_bind]. eauto.
Qed.

Lemma patch_and_stamp_total (raw : text) (span : nat * nat) (updates : pydict) :
  exists r, patch_and_stamp banner_value raw span updates = Done r.
Proof.
  unfold patch_and_stamp. destruct span as [start stop].
  destruct (apply_updates_total updates (sorted_keys updates)
              (slice raw start stop)) as [[block|e] ->]; cbn [scan_bind]; eauto.
Qed.

(** The update returns on every input: with a new text, or with the
    exception it raises. *)
Lemma save_total (raw0 : option text) (ship updates : pydict) :
  exists r, _surgical_save_current_ship hjson_loads casefold container_str
              banner_value raw0 ship updates = Done r.
Proof.
  unfold _surgical_save_current_ship.
  destruct (is_empty_raw raw0); [eauto|].
  set (raw := match raw0 with Some r => r | None => [] end).
  set (key_val := py_or _ _). set (name_val := Dict.get ship (str "name")).
  assert (Hloc : exists r, locate_ship container_str raw key_val name_val = Done r).
  { unfold locate_ship. destruct (truthy_opt key_val).
    - destruct (first_span_total raw (str_opt container_str key_val)) as [[sp|] ->];
        cbn [scan_bind]; [eauto|].
      destruct (truthy_opt name_val); [apply first_span_total|eauto].
    - cbn [scan_bind]. destruct (truthy_opt name_val); [apply first_span_total|eauto]. }
  destruct Hloc as [[sp|] ->]; cbn [scan_bind]; [apply patch_and_stamp_total|].
  destruct (insert_total raw0 (Dict.update ship updates) true) as [[[u|e] raw1] ->];
    cbn [scan_bind]; [|eauto].
  assert (Hrel : exists r, relocate_ship container_str
                             (match raw1 with Some r => r | None => [] end)
                             key_val name_val = Done r).
  { unfold relocate_ship. destruct (truthy_opt key_val); [apply first_span_total|].
    destruct (truthy_opt name_val); [apply first_span_total|eauto]. }
  destruct Hrel as [[sp|] ->]; cbn [scan_bind]; [apply patch_and_stamp_total|eauto].
Qed.

End Operations.

(** The region locator returns on every text. *)
Theorem region_locator_returns (t : text) :
  exists r, _extract_ship_list_region t = Done r.
Proof. apply extract_region_total. Qed.

(** A region the locator returns starts on an opening bracket, ends just
    past a closing bracket and lies inside the text. *)
Theorem region_is_bracketed (t : text) (a b : nat) :
  _extract_ship_list_region t = Done (Some (a, b)) ->
  a < b /\ b <= length t
  /\ nth_error t a = Some "["%char /\ nth_error t (b - 1) = Some "]"%char.
Proof.
  intros H. apply extract_region_sound in H as (H1 & H2 & H3).
  pose proof (nth_error_lt _ _ _ _ H3). repeat split; try assumption. lia.
Qed.

Lemma region_is_bracketed_witness :
  18 < 120 /\ 120 <= length Examples.fleet_doc
  /\ nth_error Examples.fleet_doc 18 = Some "["%char
  /\ nth_error Examples.fleet_doc (120 - 1) = Some "]"%char.
Proof.
  apply (region_is_bracketed Examples.fleet_doc 18 120).
  vm_compute. reflexivity.
Defined.

(** The record locator, run to exhaustion, returns on every text. *)
Theorem record_locator_returns (raw wanted : text) :
  exists r, _iter_object_spans_for_key raw wanted = Done r.
Proof. apply iter_object_spans_total. Qed.

(** The delete returns on every raw text and key value. *)
Theorem delete_returns (raw0 : option text) (key_value : text) :
  exists r, _surgical_delete_ship_by_key raw0 key_value = Done r.
Proof. apply delete_total. Qed.

(** The update returns on every input: with a new text, or with the
    exception it raises. *)
Theorem update_returns (hjson_loads : text -> option pydict)
  (casefold : text -> text) (container_str : pyval -> text)
  (banner_value : text) (raw0 : option text) (ship updates : pydict) :
  exists r, _surgical_save_current_ship hjson_loads casefold container_str
              banner_value raw0 ship updates = Done r.
Proof. apply save_total. Qed.

End Totality.

(** ** The guard of the delete *)

Module DeleteGuard.

Import Region Locator Spec Examples MutatorFacts.

(** When the located span starts at or before the opening bracket of the
    array, the delete removes the span, the white space after it and at
    most one following comma, whatever precedes the span. *)
Theorem delete_before_region (raw key : text)
  (arr_start arr_end start stop : nat) (rest : list (nat * nat)) :
  raw <> [] ->
  _extract_ship_list_region raw = Done (Some (arr_start, arr_end)) ->
  _iter_object_spans_for_key raw key = Done ((start, stop) :: rest) ->
  start <= arr_start ->
  _surgical_delete_ship_by_key (Some raw) key
  = Done (true, Some (firstn start raw ++ drop_comma (lstrip (skipn stop raw)))).
Proof.
  intros Hne Hr Hm Hle. unfold _surgical_delete_ship_by_key.
  destruct raw as [|x raw']; [congruence|].
  cbn [is_empty_raw]. rewrite Hr. cbn [scan_bind]. rewrite Hm. cbn [scan_bind].
  now rewrite remove_span_before_region.
Qed.

(** A one-line document: the backward walk of the locator starts on the
    quote that opens the key and misses the brace of the record, the
    line-anchored fall-back finds the brace of the whole document, and the
    delete removes everything. *)
Lemma delete_before_region_witness :
  _surgical_delete_ship_by_key (Some one_line_fleet) (str "a")
  = Done (true, Some []).
Proof.
  rewrite (delete_before_region one_line_fleet (str "a") 14 39 0 40 []).
  - vm_compute. reflexivity.
  - discriminate.
  - vm_compute. reflexivity.
  - vm_compute. reflexivity.
  - lia.
Defined.

(** C4.  The ship list of [one_line_pair] holds the records [a] and [b]
    on one line; the record [a] is the text at [15, 32), the first
    character before it that is not white space is the opening bracket,
    and removing [a] with the comma that follows it gives
    [one_line_pair_without_a].  The delete locates the span [0, 52) for
    the key [a], which is the whole document, and leaves an empty text. *)
Theorem delete_first_record_on_one_line :
  _extract_ship_list_region one_line_pair = Done (Some (14, 51))
  /\ slice one_line_pair 15 32 = doc "{~Key~:~a~,~n~:1}"
  /\ nth_error one_line_pair 14 = Some "["%char
  /\ firstn 15 one_line_pair ++ drop_comma (lstrip (skipn 32 one_line_pair))
     = one_line_pair_without_a
  /\ _iter_object_spans_for_key one_line_pair (str "a") = Done [(0, 52)]
  /\ _surgical_delete_ship_by_key (Some one_line_pair) (str "a")
     = Done (true, Some []).
Proof. repeat split; vm_compute; reflexivity. Qed.

End DeleteGuard.

(** ** Scenarios *)

Module Scenarios.

Import Region Patcher Banner Examples.

(** Patching field [n] of a record to 5 rewrites that token only. *)
Example patch_number :
  _patch_scalar_in_block number_block [str "n"] (str "5")
  = (doc "{~id~:~b~,~n~:5}", 1).
Proof. vm_compute. reflexivity. Qed.

(** A quoted value holding a comma and escaped quotes is replaced as a
    whole. *)
Example patch_quoted_value_with_comma :
  _patch_scalar_in_block quoted_comma_block [str "q"] (doc "~x~")
  = (doc "{~q~: ~x~, ~n~:2}", 1).
Proof. vm_compute. reflexivity. Qed.

(** A bare token runs up to the next delimiter: the blank after the number
    belongs to the token and goes with it. *)
Example patch_takes_trailing_blank :
  _patch_scalar_in_block (doc "{~n~: 1 }") [str "n"] (str "1")
  = (doc "{~n~: 1}", 1).
Proof. vm_compute. reflexivity. Qed.

(** When the opening brace ends its line, the second stamp replaces the
    banner line the first one inserted. *)
Example banner_twice_on_lines :
  _upsert_editor_banner_simple stamp
    (_upsert_editor_banner_simple stamp multi_line_doc)
  = _upsert_editor_banner_simple stamp multi_line_doc.
Proof. vm_compute. reflexivity. Qed.

(** Clustering behind the last record of the array: a comma after the
    former last record, and a comma after the new one. *)
Example insert_behind_last_record :
  _surgical_insert_ship_block loads_fleet lower (Some fleet_doc)
    (ship "d" "Kralien") true
  = Done (Ok tt, Some fleet_with_kralien).
Proof. vm_compute. reflexivity. Qed.

(** A side no record has: the new record goes in front of the closing
    bracket, behind a comma. *)
Example insert_new_side :
  _surgical_insert_ship_block loads_fleet lower (Some fleet_doc)
    (ship "d" "Pirate") true
  = Done (Ok tt, Some fleet_with_pirate).
Proof. vm_compute. reflexivity. Qed.

(** Updating field [side] of record [b] in place. *)
Example update_in_place :
  _surgical_save_current_ship loads_fleet lower no_container_str stamp
    (Some fleet_doc) (ship "b" "Kralien")
    [(str "side", PStr (str "TSN")); (str "hull", PInt 3)]
  = Done (Ok tt, Some (_upsert_editor_banner_simple stamp fleet_b_tsn)).
Proof. vm_compute. reflexivity. Qed.

End Scenarios.

(** ** Format detection *)

Module DetectFacts.

Import Region Detect Spec Examples RegionFacts.

(** Where the region locator stops on a bracket, the detector reads that
    bracket as the first significant character. *)
Lemma significant_of_open (t : text) :
  forall fuel i j, skip_to_open t fuel i = Done (Some j) ->
    first_significant t fuel i = Done (Some "["%char).
Proof.
  induction fuel as [|f IH]; intros i j; cbn [skip_to_open first_significant];
    [discriminate|].
  destruct (nth_error t i) as [ch|]; [|discriminate].
  unfold Scanner.skip_line_find, Scanner.skip_block_find.
  destruct (isspace ch); [apply IH|].
  destruct (startswith t (str "//") i || Ascii.eqb ch "#"); [apply IH|].
  destruct (startswith t (str "/*") i); [apply IH|].
  destruct (Ascii.eqb ch "[") eqn:E; [|discriminate].
  intros _. apply Ascii.eqb_eq in E. now subst ch.
Qed.

Lemma looks_from_first_key (t : text) :
  forall ks key_pos key_len colon j,
    first_key t ks = Some (key_pos, key_len) ->
    find t (str ":") (key_pos + key_len) = Some colon ->
    skip_to_open t (S (length t)) (colon + 1) = Done (Some j) ->
    looks_from t ks = Done true.
Proof.
  induction ks as [|k ks IH]; intros key_pos key_len colon j; cbn [first_key looks_from];
    [discriminate|].
  destruct (find t k 0) as [p|]; [|apply IH].
  intros [= <- <-] Hc Ho. rewrite Hc.
  now rewrite (significant_of_open _ _ _ _ Ho).
Qed.

(** A key of the ship list cannot be found in a text in which [ship-list]
    does not occur. *)
Lemma key_not_found (t k : text) :
  ~ occurs (str "ship-list") t -> In k keys -> find t k 0 = None.
Proof.
  intros Hno Hk. destruct (find t k 0) as [p|] eqn:E; [|reflexivity].
  exfalso. apply Hno.
  apply find_bounds in E as (_ & _ & Hp).
  apply prefix_of_app in Hp as [rest Hr].
  assert (Ht : t = firstn p t ++ k ++ rest)
    by (rewrite <- Hr; symmetry; apply firstn_skipn).
  unfold keys in Hk. simpl in Hk.
  destruct Hk as [<-|[<-|[<-|[<-|[<-|[<-|[]]]]]]].
  - exists (firstn p t ++ [DQ; "#"%char]), (DQ :: rest).
    rewrite Ht at 1. rewrite <- !app_assoc. reflexivity.
  - exists (firstn p t ++ [SQ; "#"%char]), (SQ :: rest).
    rewrite Ht at 1. rewrite <- !app_assoc. reflexivity.
  - exists (firstn p t ++ ["#"%char]), rest.
    rewrite Ht at 1. rewrite <- !app_assoc. reflexivity.
  - exists (firstn p t ++ [DQ]), (DQ :: rest).
    rewrite Ht at 1. rewrite <- !app_assoc. reflexivity.
  - exists (firstn p t ++ [SQ]), (SQ :: rest).
    rewrite Ht at 1. rewrite <- !app_assoc. reflexivity.
  - exists (firstn p t), rest. exact Ht.
Qed.

Lemma looks_from_not_found (t : text) :
  forall ks, (forall k, In k ks -> find t k 0 = None) -> looks_from t ks = Done false.
Proof.
  induction ks as [|k ks IH]; intros H; cbn [looks_from]; [reflexivity|].
  rewrite (H k (or_introl eq_refl)). apply IH. intros k' Hk'. apply H. now right.
Qed.

Lemma first_key_not_found (t : text) :
  forall ks, (forall k, In k ks -> find t k 0 = None) -> first_key t ks = None.
Proof.
  induction ks as [|k ks IH]; intros H; cbn [first_key]; [reflexivity|].
  rewrite (H k (or_introl eq_refl)). apply IH. intros k' Hk'. apply H. now right.
Qed.

(** Every text in which the region locator finds the ship list is taken
    for a bracketed (HJSON-style) file by the detector, which is what
    selects the surgical save mode at load time. *)
Theorem located_region_looks_hjsonish (t : text) (a b : nat) :
  _extract_ship_list_region t = Done (Some (a, b)) ->
  _looks_hjsonish t = Done true.
Proof.
  unfold _extract_ship_list_region, locate_open, _looks_hjsonish.
  destruct (first_key t keys) as [[key_pos key_len]|] eqn:Hk; [|discriminate].
  destruct (find t (str ":") (key_pos + key_len)) as [colon|] eqn:Hc;
    [|discriminate].
  destruct (skip_to_open t (S (length t)) (colon + 1)) as [[j|]|] eqn:Ho;
    try discriminate.
  intros _. eapply looks_from_first_key; eassumption.
Qed.

Lemma located_region_looks_hjsonish_witness :
  _looks_hjsonish fleet_doc = Done true.
Proof.
  apply (located_region_looks_hjsonish fleet_doc 18 120).
  vm_compute. reflexivity.
Defined.

(** The converse fails: the detector tries the next key when a key has no
    colon behind it, the region locator does not.  Here the double-quoted
    key is found first, in the value of [x]. *)
Example looks_hjsonish_without_region :
  _looks_hjsonish quoted_twice_doc = Done true
  /\ _extract_ship_list_region quoted_twice_doc = Done None.
Proof. split; vm_compute; reflexivity. Qed.

(** A text in which [ship-list] does not occur is not taken for a
    bracketed file, and it has no ship list region. *)
Theorem no_ship_list_key (t : text) :
  ~ occurs (str "ship-list") t ->
  _looks_hjsonish t = Done false /\ _extract_ship_list_region t = Done None.
Proof.
  intros Hno. split.
  - apply looks_from_not_found. intros k Hk. now apply key_not_found.
  - unfold _extract_ship_list_region, locate_open.
    rewrite first_key_not_found; [reflexivity|].
    intros k Hk. now apply key_not_found.
Qed.

Lemma no_ship_list_key_witness :
  _looks_hjsonish one_line_doc = Done false
  /\ _extract_ship_list_region one_line_doc = Done None.
Proof.
  apply (no_ship_list_key one_line_doc).
  intros (pre & post & H). revert H.
  apply contains_false_no_occurrence. vm_compute. reflexivity.
Defined.

End DetectFacts.

(** ** Layout pass *)

Module LayoutFacts.

Import Re Locator Layout Render Spec Shapes Examples ReFacts.

Lemma copy_quoted_length (q : ascii) :
  forall n s, length s <= n -> length (snd (copy_quoted q s)) <= length s.
Proof.
  induction n as [|n IH]; intros [|c s] H; simpl in *; try lia.
  destruct (Ascii.eqb c BSL).
  - destruct s as [|c' s']; simpl; [lia|].
    specialize (IH s'). simpl in H.
    destruct (copy_quoted q s') as [o r]. simpl in *. lia.
  - destruct (Ascii.eqb c q); simpl; [lia|].
    specialize (IH s).
    destruct (copy_quoted q s) as [o r]. simpl in *. lia.
Qed.

(** The loop ends within [length s + 1] turns, whatever budget it has. *)
Lemma flow_loop_fuel :
  forall f1 f2 s d, length s < f1 -> length s < f2 ->
    flow_loop f1 s d = flow_loop f2 s d.
Proof.
  induction f1 as [|f1 IH]; intros f2 s d H1 H2; [lia|].
  destruct f2 as [|f2]; [lia|].
  destruct s as [|ch s]; [reflexivity|]. simpl in H1, H2. cbn [flow_loop].
  pose proof (copy_quoted_length ch (length s) s (le_n _)) as Hq.
  destruct (copy_quoted ch s) as [o r]. simpl in Hq.
  assert (Hl : length (match s with
                       | c :: s'' => if Ascii.eqb c " " then s'' else s
                       | [] => s
                       end) <= length s).
  { destruct s as [|c s'']; [lia|]. destruct (Ascii.eqb c " "); simpl; lia. }
  split_ifs;
    match goal with
    | |- scan_bind (flow_loop f1 ?x ?y) _ = _ =>
        rewrite (IH f2 x y); [reflexivity|idtac|idtac]
    end.
  all: try lia.
  all: eapply Nat.le_lt_trans; [exact Hl|lia].
Qed.

Lemma flow_loop_total :
  forall fuel s d, length s < fuel -> exists out, flow_loop fuel s d = Done out.
Proof.
  induction fuel as [|f IH]; intros s d H; [lia|].
  destruct s as [|ch s]; [now exists []|]. simpl in H. cbn [flow_loop].
  pose proof (copy_quoted_length ch (length s) s (le_n _)) as Hq.
  destruct (copy_quoted ch s) as [o r]. simpl in Hq.
  assert (Hl : length (match s with
                       | c :: s'' => if Ascii.eqb c " " then s'' else s
                       | [] => s
                       end) <= length s).
  { destruct s as [|c s'']; [lia|]. destruct (Ascii.eqb c " "); simpl; lia. }
  split_ifs;
    match goal with
    | |- exists _, scan_bind (flow_loop f ?x ?y) _ = _ =>
        let o := fresh "o" in let E := fresh "E" in
        destruct (IH x y) as [o E];
          [first [lia|eapply Nat.le_lt_trans; [exact Hl|lia]]|];
          rewrite E; cbn [scan_bind]; eauto
    end.
Qed.

(** A string without backslash is copied up to its closing quote. *)
Lemma copy_quoted_quiet (q : ascii) (rest : text) :
  Ascii.eqb q BSL = false ->
  forall body, forallb (quiet q) body = true ->
    copy_quoted q (body ++ q :: rest) = (body ++ [q], rest).
Proof.
  intros Hq. induction body as [|c body IH]; intros H; simpl.
  - now rewrite Hq, Ascii.eqb_refl.
  - simpl in H. apply andb_true_iff in H as [Hc Hb].
    unfold quiet in Hc. apply negb_true_iff, orb_false_iff in Hc as [Hc Hs].
    rewrite Hs, Hc, (IH Hb). reflexivity.
Qed.

Lemma plain_tests (c : ascii) :
  plain c = true ->
  Ascii.eqb c DQ || Ascii.eqb c SQ = false
  /\ Ascii.eqb c "{" || Ascii.eqb c "[" = false
  /\ Ascii.eqb c "}" || Ascii.eqb c "]" = false
  /\ Ascii.eqb c "," = false.
Proof.
  unfold plain. cbn [existsb]. intros H. apply negb_true_iff in H.
  repeat (apply orb_false_iff in H; destruct H as [? H]).
  repeat split; try assumption; apply orb_false_iff; auto.
Qed.

(** A flat text in front of [rest] is copied as it is, at depth zero. *)
Lemma flow_loop_flat (it : text) :
  flat it ->
  forall rest out f,
    flow_loop (S (length rest)) rest 0 = Done out ->
    length (it ++ rest) < f ->
    flow_loop f (it ++ rest) 0 = Done (it ++ out).
Proof.
  induction 1 as [|c s Hc Hs IH|q body s Hq Hb Hs IH]; intros rest out f Ho Hf.
  - cbn [app] in *.
    transitivity (flow_loop (S (length rest)) rest 0);
      [apply flow_loop_fuel; lia|exact Ho].
  - destruct f as [|f]; [simpl in Hf; lia|].
    destruct (plain_tests c Hc) as (H1 & H2 & H3 & H4).
    simpl app. cbn [flow_loop]. rewrite H1, H2, H3, H4. cbn [andb].
    rewrite (IH rest out f Ho); [reflexivity|simpl in Hf; lia].
  - destruct f as [|f]; [simpl in Hf; lia|].
    assert (Hqb : Ascii.eqb q BSL = false) by (destruct Hq; subst q; reflexivity).
    assert (Hqq : Ascii.eqb q DQ || Ascii.eqb q SQ = true)
      by (destruct Hq; subst q; reflexivity).
    replace ((q :: body ++ q :: s) ++ rest) with (q :: body ++ q :: (s ++ rest))
      by (simpl; now rewrite <- app_assoc).
    cbn [flow_loop]. rewrite Hqq, (copy_quoted_quiet q (s ++ rest) Hqb body Hb).
    rewrite (IH rest out f Ho).
    + cbn [scan_bind]. f_equal. simpl. rewrite <- !app_assoc. reflexivity.
    + simpl in Hf. rewrite ?length_app in *. simpl in Hf.
      rewrite ?length_app in *. lia.
Qed.

Lemma flow_loop_comma (f : nat) (rest : text) :
  flow_loop (S f) (","%char :: " "%char :: rest) 0
  = (r <- flow_loop f rest 0 ;; Done (","%char :: LF :: r)).
Proof. reflexivity. Qed.

Lemma flow_loop_items :
  forall items, Forall flat items ->
  forall f, length (join (str ", ") items) < f ->
    flow_loop f (join (str ", ") items) 0 = Done (join [","%char; LF] items).
Proof.
  induction items as [|x items IH]; intros Hall f Hf.
  - destruct f; [simpl in Hf; lia|reflexivity].
  - apply Forall_cons_iff in Hall as [Hx Hall].
    destruct items as [|y items].
    + cbn [join] in *.
      rewrite <- (app_nil_r x) at 1.
      rewrite (flow_loop_flat x Hx [] [] f); [now rewrite app_nil_r|reflexivity|].
      now rewrite app_nil_r.
    + change (join (str ", ") (x :: y :: items))
        with (x ++ str ", " ++ join (str ", ") (y :: items)) in *.
      change (join [","%char; LF] (x :: y :: items))
        with (x ++ [","%char; LF] ++ join [","%char; LF] (y :: items)).
      apply flow_loop_flat; [exact Hx| |exact Hf].
      change (str ", " ++ join (str ", ") (y :: items))
        with (","%char :: " "%char :: join (str ", ") (y :: items)).
      rewrite flow_loop_comma, (IH Hall); [reflexivity|simpl; lia].
Qed.

(** One pair per line.  When the inside of a flow map is a list of items
    separated by a comma and a space, each item being made of plain
    characters and of quoted strings without backslash, the pass puts a
    line feed in place of the space behind each separating comma and
    leaves the items, commas inside strings included, as they are. *)
Theorem flow_map_one_item_per_line (items : list text) :
  Forall flat items ->
  fix_flow_map (join (str ", ") items)
  = Done (str "{" ++ strip (join [","%char; LF] items) ++ str "}").
Proof.
  intros Hall. unfold fix_flow_map.
  rewrite (flow_loop_items items Hall); [reflexivity|lia].
Qed.

Lemma flow_map_one_item_per_line_witness :
  fix_flow_map (doc "Key: ~a, b~, n: 1")
  = Done (lines ["{Key: ~a, b~,"; "n: 1}"]%string).
Proof.
  change (doc "Key: ~a, b~, n: 1")
    with (join (str ", ") [doc "Key: ~a, b~"; str "n: 1"]).
  rewrite flow_map_one_item_per_line; [vm_compute; reflexivity|].
  constructor; [|constructor; [|constructor]].
  - vm_compute. repeat (apply flat_plain; [reflexivity|]).
    apply (@flat_quoted DQ (str "a, b") []); [now left|reflexivity|constructor].
  - vm_compute. repeat (apply flat_plain; [reflexivity|]). constructor.
Defined.

Lemma copy_quoted_escape (q c : ascii) (b rest : text) :
  Ascii.eqb q BSL = false ->
  forallb (quiet q) b = true ->
  forall a, forallb (quiet q) a = true ->
    copy_quoted q (a ++ BSL :: c :: b ++ q :: rest)
    = (a ++ BSL :: b ++ [q], rest).
Proof.
  intros Hq Hb. induction a as [|x a IH]; intros Ha.
  - simpl. now rewrite (copy_quoted_quiet q rest Hq b Hb).
  - simpl in Ha. apply andb_true_iff in Ha as [Hx Ha].
    unfold quiet in Hx. apply negb_true_iff, orb_false_iff in Hx as [Hx Hs].
    simpl. rewrite Hs, Hx, (IH Ha). reflexivity.
Qed.

Lemma strip_between (q : ascii) (x : text) :
  isspace q = false -> strip (q :: x ++ [q]) = q :: x ++ [q].
Proof.
  intros Hq. unfold strip. cbn [lstrip]. rewrite Hq.
  replace (rev (q :: x ++ [q])) with (q :: rev x ++ [q])
    by (simpl; now rewrite rev_app_distr).
  cbn [lstrip]. rewrite Hq. simpl. rewrite rev_app_distr, rev_involutive.
  reflexivity.
Qed.

(** Inside a quoted string the pass copies a backslash and steps over the
    character behind it: that character is missing from the result. *)
Theorem flow_map_loses_escaped_character (q c : ascii) (a b : text) :
  q = DQ \/ q = SQ ->
  forallb (quiet q) a = true -> forallb (quiet q) b = true ->
  fix_flow_map (q :: a ++ BSL :: c :: b ++ [q])
  = Done (str "{" ++ (q :: a ++ BSL :: b ++ [q]) ++ str "}").
Proof.
  intros Hq Ha Hb. unfold fix_flow_map.
  assert (Hqb : Ascii.eqb q BSL = false) by (destruct Hq; subst q; reflexivity).
  assert (Hqq : Ascii.eqb q DQ || Ascii.eqb q SQ = true)
    by (destruct Hq; subst q; reflexivity).
  assert (Hsp : isspace q = false) by (destruct Hq; subst q; reflexivity).
  cbn [length flow_loop]. rewrite Hqq.
  rewrite (copy_quoted_escape q c b [] Hqb Hb a Ha).
  destruct (length (a ++ BSL :: c :: b ++ [q])) eqn:E; cbn [flow_loop scan_bind].
  - rewrite length_app in E. simpl in E. lia.
  - rewrite app_nil_r.
    replace (q :: a ++ BSL :: b ++ [q]) with (q :: (a ++ BSL :: b) ++ [q])
      by (now rewrite <- app_assoc).
    now rewrite (strip_between q _ Hsp).
Qed.

Lemma flow_map_loses_escaped_character_witness :
  fix_flow_map (doc "~a\~b~") = Done (doc "{~a\b~}").
Proof.
  apply (flow_map_loses_escaped_character DQ DQ (str "a") (str "b"));
    [now left|reflexivity|reflexivity].
Defined.

Lemma finditer_from_none (M : Type) (at_ : nat -> option M) (stop : M -> nat) :
  (forall p, at_ p = None) ->
  forall count p pos, finditer_from at_ stop p count pos = [].
Proof.
  intros H. induction count as [|c IH]; intros p pos; simpl; [reflexivity|].
  destruct (p <? pos); [apply IH|]. rewrite H. apply IH.
Qed.

Lemma ship_list_at_none (t : text) :
  ~ occurs (str "ship-list") t -> forall p, ship_list_at t p = None.
Proof.
  intros Hno p. unfold ship_list_at.
  destruct (ends t ship_list_key p) as [|k l] eqn:E; [reflexivity|].
  exfalso. apply Hno.
  assert (Hin : In k (ends t ship_list_key p)) by (rewrite E; now left).
  unfold ship_list_key in Hin. rewrite ends_Alt in Hin.
  apply in_app_or in Hin as [Hin|Hin];
    apply ends_Lit_prefix, prefix_occurs in Hin.
  - destruct Hin as (pre & post & ->).
    exists (pre ++ ["#"%char]), post. now rewrite <- app_assoc.
  - exact Hin.
Qed.

(** A text in which [ship-list] does not occur goes through the layout
    pass unchanged. *)
Theorem postprocess_without_ship_list (t : text) :
  ~ occurs (str "ship-list") t -> _postprocess_hjson_text t = Done t.
Proof.
  intros Hno. unfold _postprocess_hjson_text, sub, finditer.
  rewrite finditer_from_none; [reflexivity|].
  now apply ship_list_at_none.
Qed.

Lemma postprocess_without_ship_list_witness :
  _postprocess_hjson_text one_line_doc = Done one_line_doc.
Proof.
  apply postprocess_without_ship_list.
  intros (pre & post & H). revert H.
  apply contains_false_no_occurrence. vm_compute. reflexivity.
Defined.

(** The pass on a ship list of two flow maps: the first is laid out one
    pair per line, the comma inside the string stays. *)
Example postprocess_flow_doc :
  _postprocess_hjson_text flow_doc = Done flow_doc_laid_out.
Proof. vm_compute. reflexivity. Qed.

End LayoutFacts.

(** ** Spans of the top-level object iterator *)

Module SpanFacts.

Import FlowMaps Examples.

Definition braced (t : text) (lo stop : nat) (sp : nat * nat) : Prop :=
  lo <= fst sp /\ fst sp < snd sp /\ snd sp <= stop
  /\ nth_error t (fst sp) = Some "{"%char
  /\ nth_error t (snd sp - 1) = Some "}"%char.

Lemma step_braced (t : text) (ch : ascii) (prev : option ascii) (i lo stop : nat)
  (st st' : istate) (y : option (nat * nat)) :
  step ch prev i st = (st', y) ->
  nth_error t i = Some ch -> lo <= i -> i < stop ->
  (forall b, FlowMaps.b_start st = Some b ->
     lo <= b /\ b < i /\ nth_error t b = Some "{"%char) ->
  (forall b, FlowMaps.b_start st' = Some b ->
     lo <= b /\ b < i + 1 /\ nth_error t b = Some "{"%char)
  /\ (forall sp, y = Some sp -> braced t lo stop sp).
Proof.
  intros Hs Hch Hlo Hstop Hb. unfold step in Hs.
  destruct (in_q st) as [q|].
  - destruct (_ && _) in Hs; injection Hs as <- <-; simpl; split;
      try discriminate; intros b Hb'; apply Hb in Hb'; intuition lia.
  - destruct (_ || _) in Hs.
    { injection Hs as <- <-; simpl. split; [|discriminate].
      intros b Hb'; apply Hb in Hb'; intuition lia. }
    destruct (Ascii.eqb ch "{") eqn:Eo in Hs.
    { apply Ascii.eqb_eq in Eo. subst ch.
      injection Hs as <- <-; simpl. split; [|discriminate].
      destruct (idepth st =? 0)%Z.
      - intros b [= <-]. repeat split; try lia. exact Hch.
      - intros b Hb'; apply Hb in Hb'; intuition lia. }
    destruct (Ascii.eqb ch "}") eqn:Ec in Hs.
    + apply Ascii.eqb_eq in Ec. subst ch.
      destruct (FlowMaps.b_start st) as [b0|] eqn:Eb.
      * destruct (Hb b0 eq_refl) as (H1 & H2 & H3).
        destruct (idepth st - 1 =? 0)%Z; injection Hs as <- <-; simpl.
        -- split; [discriminate|]. intros sp [= <-]. unfold braced. simpl.
           replace (i + 1 - 1) with i by lia. repeat split; try lia; assumption.
        -- split; [|discriminate]. intros b [= <-]. repeat split; try lia.
           exact H3.
      * injection Hs as <- <-; simpl. split; discriminate.
    + injection Hs as <- <-. split; [|discriminate].
      intros b Hb'; apply Hb in Hb'; intuition lia.
Qed.

Lemma run_braced (t : text) (stop lo : nat) :
  forall fuel i st,
    lo <= i ->
    (forall b, FlowMaps.b_start st = Some b ->
       lo <= b /\ b < i /\ nth_error t b = Some "{"%char) ->
    forall sp, In sp (fst (run t fuel i stop st)) -> braced t lo stop sp.
Proof.
  induction fuel as [|f IH]; intros i st Hlo Hb sp; simpl; [contradiction|].
  destruct (i <? stop) eqn:Ei; [|contradiction]. apply Nat.ltb_lt in Ei.
  destruct (nth_error t i) as [ch|] eqn:Hch; [|contradiction].
  destruct (step ch (py_index t (Z.of_nat i - 1)) i st) as [st' y] eqn:Hs.
  destruct (step_braced t _ _ _ lo stop _ _ _ Hs Hch Hlo Ei Hb) as [Hb' Hy].
  specialize (IH (i + 1) st').
  destruct (run t f (i + 1) stop st') as [ys err].
  destruct y as [sp0|]; simpl; intros Hin.
  - destruct Hin as [<-|Hin]; [now apply Hy|].
    apply IH; [lia|exact Hb'|exact Hin].
  - apply IH; [lia|exact Hb'|exact Hin].
Qed.

(** Every span the iterator yields lies inside the range it was given,
    starts on an opening brace and ends just past a closing brace. *)
Theorem flow_map_spans_are_braced (t : text) (start stop s e : nat) :
  In (s, e) (fst (_iter_top_level_flow_maps t start stop)) ->
  start <= s /\ s < e /\ e <= stop
  /\ nth_error t s = Some "{"%char /\ nth_error t (e - 1) = Some "}"%char.
Proof.
  intros Hin.
  apply (run_braced t stop start (stop - start) start istate0 (le_n _)) in Hin;
    [exact Hin|].
  intros b Hb. discriminate.
Qed.

Lemma flow_map_spans_brace_bounds (t : text) (start stop s e : nat) :
  In (s, e) (fst (_iter_top_level_flow_maps t start stop)) ->
  start <= s /\ s < e /\ e <= stop
  /\ nth_error t s = Some "{"%char /\ nth_error t (e - 1) = Some "}"%char.
Proof.
  intros Hin.
  apply (run_braced t stop start (stop - start) start istate0 (le_n _)) in Hin;
    [exact Hin|].
  intros b Hb. discriminate.
Qed.

Lemma flow_map_spans_are_braced_witness :
  0 <= 5 /\ 5 < 10 /\ 10 <= 19
  /\ nth_error braces_doc 5 = Some "{"%char
  /\ nth_error braces_doc (10 - 1) = Some "}"%char.
Proof.
  apply (flow_map_spans_are_braced braces_doc 0 19 5 10).
  vm_compute. right. left. reflexivity.
Defined.

End SpanFacts.

(** ** Insertion and update: what they leave alone *)

Module FrameFacts.

Import Scanner Region FlowMaps Locator Patcher Render Banner Spec Examples.
Import RegionFacts SpanFacts Totality.

Section Frame.

Variable hjson_loads : text -> option pydict.
Variable casefold : text -> text.
Variable container_str : pyval -> text.
Variable banner_value : text.

Lemma last_same_side_in (raw new_side : text) :
  forall spans acc e,
    last_same_side hjson_loads casefold raw new_side spans acc = Ok (Some e) ->
    acc = Some e \/ exists s, In (s, e) spans.
Proof.
  induction spans as [|[bs be] spans IH]; intros acc e; cbn [last_same_side].
  - intros [= ->]. now left.
  - destruct (hjson_loads (slice raw bs be)) as [d|].
    + destruct (side_of casefold d) as [side_val|ex]; [|discriminate].
      intros H. apply IH in H as [H|[s H]].
      * destruct (text_eqb side_val new_side).
        -- injection H as <-. right. exists bs. now left.
        -- now left.
      * right. exists s. now right.
    + intros H. apply IH in H as [H|[s H]]; [now left|].
      right. exists s. now right.
Qed.

Lemma insert_outcome (raw : text) (ship : pydict)
  (cluster : bool) (r : outcome unit) (raw1 : option text) :
  _surgical_insert_ship_block hjson_loads casefold (Some raw) ship cluster
  = Done (r, raw1) ->
  match r with
  | Raise _ => raw1 = Some raw
  | Ok _ =>
      exists a b pos add,
        _extract_ship_list_region raw = Done (Some (a, b))
        /\ a < pos /\ pos < b /\ add <> []
        /\ raw1 = Some (firstn pos raw ++ add ++ skipn pos raw)
  end.
Proof.
  unfold _surgical_insert_ship_block.
  destruct raw as [|x raw']; [intros [= <- <-]; reflexivity|].
  set (raw := x :: raw').
  destruct (_extract_ship_list_region raw) as [[[a b]|]|] eqn:Hr;
    cbn [scan_bind]; [| intros [= <- <-]; reflexivity | discriminate].
  pose proof (extract_region_sound raw a b Hr) as (Hab & Ha & Hb).
  destruct (_ship_list_indentation raw a b) as [[base item_indent] lb] eqn:Hi.
  assert (Hlb : lb <> []).
  { unfold _ship_list_indentation in Hi. injection Hi as _ _ <-.
    destruct (contains raw [CR; LF]); discriminate. }
  destruct (side_of casefold _) as [new_side|ex];
    [|intros [= <- <-]; reflexivity].
  destruct (if cluster && negb (text_eqb new_side []) then _ else _)
    as [[e|]|ex] eqn:Hc; [| |intros [= <- <-]; reflexivity].
  - intros [= <- <-]. exists a, b, e. eexists. split; [reflexivity|].
    assert (Hin : exists s, In (s, e) (region_spans raw a b)).
    { destruct (cluster && negb (text_eqb new_side [])); [|discriminate].
      apply last_same_side_in in Hc as [Hc|Hc]; [discriminate|exact Hc]. }
    destruct Hin as [s Hin]. unfold region_spans in Hin.
    apply flow_map_spans_brace_bounds in Hin as (H1 & H2 & H3 & H4 & H5).
    assert (a <> s) by (intros ->; rewrite Ha in H4; discriminate).
    assert (e - 1 <> b - 1) by (intros E; rewrite E, Hb in H5; discriminate).
    split; [lia|]. split; [lia|]. split.
    2: match goal with
       | |- Some (?pre ++ ?c :: ?m ++ ?post) = _ =>
           exact (eq_refl (Some (pre ++ (c :: m) ++ post)))
       end.
    discriminate.
  - intros [= <- <-]. exists a, b, (b - 1). eexists. split; [reflexivity|].
    assert (a <> b - 1) by (intros E; rewrite E, Hb in Ha; discriminate).
    split; [lia|]. split; [lia|]. split.
    2: reflexivity.
    intros E. repeat (apply app_eq_nil in E as [_ E]). contradiction.
Qed.

(** The insertion returns on every text.  When it fails it leaves the text
    as it was.  When it succeeds it gives the old text with a piece put in
    at one offset, which lies strictly between the brackets of the ship
    list: no character of the old text is changed or removed. *)
Theorem insert_splices_inside_brackets (raw : text) (ship : pydict)
  (cluster : bool) :
  exists r raw1,
    _surgical_insert_ship_block hjson_loads casefold (Some raw) ship cluster
    = Done (r, raw1)
    /\ match r with
       | Raise _ => raw1 = Some raw
       | Ok _ =>
           exists a b pos add,
             _extract_ship_list_region raw = Done (Some (a, b))
             /\ a < pos /\ pos < b /\ add <> []
             /\ raw1 = Some (firstn pos raw ++ add ++ skipn pos raw)
       end.
Proof.
  destruct (insert_total hjson_loads casefold (Some raw) ship cluster)
    as [[r raw1] H].
  exists r, raw1. split; [exact H|]. exact (insert_outcome raw ship cluster r raw1 H).
Qed.

Lemma scalar_parts_raise (l : list pyval) :
  forallb is_scalar l = false ->
  scalar_parts l = Raise (TypeError "_repr_hjson_scalar received non-scalar").
Proof.
  induction l as [|v l IH]; simpl; [discriminate|].
  intros H. apply andb_false_iff in H.
  destruct v; simpl; try reflexivity;
    (destruct H as [H|H]; [discriminate|]); rewrite (IH H); reflexivity.
Qed.

Lemma patch_field_raise (block k : text) (v : pyval) (e : exn) :
  patch_field block k v = Done (Raise e) ->
  e = TypeError "_repr_hjson_scalar received non-scalar".
Proof.
  unfold patch_field. destruct v as [| | | | |l|d];
    try (simpl; discriminate); try (simpl; now intros [= <-]).
  destruct (existsb is_dict l || text_eqb k (str "torpedostart")).
  - destruct (_patch_list_in_block _ _ _ _); cbn [scan_bind]; discriminate.
  - unfold _repr_hjson_list.
    destruct (scalar_parts l) as [parts|e'] eqn:E.
    + destruct (_patch_list_in_block _ _ _ _); cbn [scan_bind]; discriminate.
    + intros [= <-]. clear -E. revert e' E.
      induction l as [|v l IH]; simpl; [discriminate|].
      destruct v; simpl; try (now intros e' [= <-]);
        destruct (scalar_parts l); try discriminate;
        intros e' [= <-]; now apply IH.
Qed.

Lemma patch_field_unrenderable (block k : text) (v : pyval) :
  renders k v = false ->
  patch_field block k v
  = Done (Raise (TypeError "_repr_hjson_scalar received non-scalar")).
Proof.
  unfold renders, patch_field. destruct v as [| | | | |l|d]; try discriminate;
    [|reflexivity].
  intros H. apply orb_false_iff in H as [H1 H2]. rewrite H1.
  unfold _repr_hjson_list. now rewrite scalar_parts_raise.
Qed.

Lemma apply_updates_unrenderable (updates : pydict) (k : text) (v : pyval) :
  Dict.get updates k = Some v -> renders k v = false ->
  forall ks block, In k ks ->
    apply_updates updates ks block
    = Done (Raise (TypeError "_repr_hjson_scalar received non-scalar")).
Proof.
  intros Hv Hr. induction ks as [|k' ks IH]; intros block Hin; [contradiction|].
  cbn [apply_updates].
  destruct (Dict.get updates k') as [v'|] eqn:Hv'.
  - destruct (patch_field_total block k' v') as [[[nb n]|e] Hp].
    + rewrite Hp. cbn [scan_bind].
      destruct Hin as [->|Hin]; [|now apply IH].
      rewrite Hv in Hv'. injection Hv' as <-.
      rewrite (patch_field_unrenderable block k v Hr) in Hp. discriminate.
    + rewrite Hp. cbn [scan_bind].
      now rewrite (patch_field_raise _ _ _ _ Hp).
  - destruct Hin as [->|Hin]; [congruence|now apply IH].
Qed.

Lemma insert_sorted_in (k x : text) (ks : list text) :
  In x (insert_sorted k ks) <-> x = k \/ In x ks.
Proof.
  induction ks as [|y ks IH]; simpl; [intuition|].
  destruct (text_leb k y); simpl; rewrite ?IH; intuition.
Qed.

Lemma get_in_sorted_keys (d : pydict) (k : text) (v : pyval) :
  Dict.get d k = Some v -> In k (sorted_keys d).
Proof.
  unfold sorted_keys. induction d as [|[k' v'] d IH]; simpl; [discriminate|].
  destruct (text_eqb k' k) eqn:E.
  - intros _. apply text_eqb_eq in E. subst. apply insert_sorted_in. now left.
  - intros H. apply insert_sorted_in. right. now apply IH.
Qed.

(** The update of a located record renders each new value before it
    patches it.  A value that is a dictionary, or a list that holds a list
    and no dictionary (under a key other than [torpedostart]), cannot be
    rendered: the update raises [TypeError], nothing is written and the
    text stays as it was, whatever the other fields are. *)
Theorem update_with_unrenderable_value_raises (raw : text)
  (ship updates : pydict) (sp : nat * nat) (k : text) (v : pyval) :
  raw <> [] ->
  locate_ship container_str raw
    (py_or (Dict.get ship (str "Key")) (Dict.get ship (str "key")))
    (Dict.get ship (str "name")) = Done (Some sp) ->
  Dict.get updates k = Some v ->
  renders k v = false ->
  _surgical_save_current_ship hjson_loads casefold container_str banner_value
    (Some raw) ship updates
  = Done (Raise (TypeError "_repr_hjson_scalar received non-scalar"), Some raw).
Proof.
  intros Hne Hloc Hv Hr. unfold _surgical_save_current_ship.
  replace (is_empty_raw (Some raw)) with false
    by (destruct raw; [congruence|reflexivity]).
  rewrite Hloc. cbn [scan_bind]. unfold patch_and_stamp. destruct sp as [start stop].
  rewrite (apply_updates_unrenderable updates k v Hv Hr);
    [reflexivity|exact (get_in_sorted_keys _ _ _ Hv)].
Qed.

End Frame.

(** Record [b] of [fleet_doc] with a dictionary for its field [side]. *)
Lemma update_with_unrenderable_value_raises_witness :
  _surgical_save_current_ship loads_fleet lower no_container_str stamp
    (Some fleet_doc) (ship "b" "Kralien")
    [(str "hull", PInt 3); (str "side", PDict [])]
  = Done (Raise (TypeError "_repr_hjson_scalar received non-scalar"),
          Some fleet_doc).
Proof.
  apply (update_with_unrenderable_value_raises loads_fleet lower
           no_container_str stamp fleet_doc (ship "b" "Kralien")
           [(str "hull", PInt 3); (str "side", PDict [])]
           (54, 82) (str "side") (PDict [])).
  - discriminate.
  - vm_compute. reflexivity.
  - reflexivity.
  - reflexivity.
Defined.

End FrameFacts.

(** ** Rendered scalars and the value pattern of the patcher *)

Module TokenFacts.

Import Re Render Patcher Spec Shapes Examples ReFacts.

Lemma nth_error_middle (pre more : text) (x : ascii) :
  nth_error (pre ++ x :: more) (length pre) = Some x.
Proof.
  rewrite nth_error_app2, Nat.sub_diag; [reflexivity|lia].
Qed.

Lemma greedy_single (step : nat -> list nat) (f p q : nat) :
  step p = [q] -> p < q -> greedy step (S f) p = greedy step f q ++ [p].
Proof.
  intros Hs Hlt. cbn [greedy]. rewrite Hs. cbn [flat_map].
  replace (p <? q) with true by (symmetry; now apply Nat.ltb_lt).
  now rewrite app_nil_r.
Qed.

Lemma greedy_stuck (step : nat -> list nat) (f p : nat) :
  step p = [] -> greedy step f p = [p].
Proof. intros Hs. destruct f; cbn [greedy]; [reflexivity|now rewrite Hs]. Qed.

(** A run of [n] characters of a class, then a character outside it or the
    end of the text: the greedy loop first stops behind the run. *)
Lemma greedy_run (t : text) (f : ascii -> bool) :
  forall run pre rest fuel,
    t = pre ++ run ++ rest ->
    forallb f run = true ->
    match rest with [] => true | c :: _ => negb (f c) end = true ->
    length run <= fuel ->
    exists l, greedy (ends t (Chr f)) fuel (length pre)
              = (length pre + length run) :: l.
Proof.
  induction run as [|c run IH]; intros pre rest fuel Ht Hall Hrest Hf.
  - rewrite greedy_stuck; [rewrite Nat.add_0_r; eauto|].
    cbn [ends]. simpl in Ht. subst t.
    destruct rest as [|c rest].
    + rewrite app_nil_r.
      now replace (nth_error pre (length pre)) with (@None ascii)
        by (symmetry; apply nth_error_None; lia).
    + rewrite nth_error_middle. apply negb_true_iff in Hrest. now rewrite Hrest.
  - simpl in Hall. apply andb_true_iff in Hall as [Hc Hall].
    destruct fuel as [|fuel]; [simpl in Hf; lia|].
    rewrite (greedy_single _ fuel (length pre) (S (length pre))); [| |lia].
    + destruct (IH (pre ++ [c]) rest fuel) as [l Hl];
        [rewrite Ht, <- app_assoc; reflexivity|exact Hall|exact Hrest
        |simpl in Hf; lia|].
      rewrite length_app in Hl. cbn [length] in Hl.
      replace (length pre + 1) with (S (length pre)) in Hl by lia.
      rewrite Hl. cbn [length app].
      replace (length pre + S (length run))
        with (S (length pre) + length run) by lia.
      eauto.
    + cbn [ends]. rewrite Ht. simpl. rewrite nth_error_middle. now rewrite Hc.
Qed.

(** What the two replacements make of one character. *)
Definition escaped (c : ascii) : text :=
  if Ascii.eqb c BSL then [BSL; BSL]
  else if Ascii.eqb c DQ then [BSL; DQ] else [c].

Lemma replace_char_app (c : ascii) (by_ a b : text) :
  replace_char c by_ (a ++ b) = replace_char c by_ a ++ replace_char c by_ b.
Proof.
  induction a as [|x a IH]; simpl; [reflexivity|].
  now rewrite IH, app_assoc.
Qed.

Lemma escape_quoted_cons (c : ascii) (s : text) :
  escape_quoted (c :: s) = escaped c ++ escape_quoted s.
Proof.
  unfold escape_quoted, escaped. simpl replace_char at 2.
  rewrite replace_char_app.
  destruct (Ascii.eqb c BSL) eqn:Eb; [reflexivity|].
  simpl. destruct (Ascii.eqb c DQ); reflexivity.
Qed.

(** The loop body of a double-quoted literal: [\\.|[^~\\]] with [~] for
    the double quote. *)
Definition dq_unit : regex := Alt (Seq (Ch BSL) any) (none_of [DQ; BSL]).

Lemma ends_Chr (t : text) (f : ascii -> bool) (p : nat) :
  ends t (Chr f) p = match nth_error t p with
                     | Some c => if f c then [S p] else []
                     | None => []
                     end.
Proof. reflexivity. Qed.

Lemma ends_unit_backslash (pre more : text) (y : ascii) :
  ends (pre ++ BSL :: y :: more) dq_unit (length pre) = [length pre + 2].
Proof.
  unfold dq_unit, any, none_of, Ch. rewrite ends_Alt, ends_Seq, !ends_Chr.
  rewrite (nth_error_middle pre (y :: more) BSL).
  replace (Ascii.eqb BSL BSL) with true by reflexivity.
  cbn [flat_map existsb orb negb app]. rewrite ends_Chr.
  replace (pre ++ BSL :: y :: more) with ((pre ++ [BSL]) ++ y :: more)
    by (now rewrite <- app_assoc).
  replace (S (length pre)) with (length (pre ++ [BSL]))
    by (rewrite length_app; simpl; lia).
  rewrite (nth_error_middle (pre ++ [BSL]) more y).
  rewrite length_app. simpl. f_equal. lia.
Qed.

Lemma ends_unit_plain (pre more : text) (c : ascii) :
  Ascii.eqb c BSL = false -> Ascii.eqb c DQ = false ->
  ends (pre ++ c :: more) dq_unit (length pre) = [length pre + 1].
Proof.
  intros Hb Hd.
  unfold dq_unit, any, none_of, Ch. rewrite ends_Alt, ends_Seq, !ends_Chr.
  rewrite (nth_error_middle pre more c).
  rewrite (Ascii.eqb_sym BSL c), Hb. cbn [flat_map existsb app].
  rewrite Hd, Hb. simpl. f_equal. lia.
Qed.

Lemma dq_unit_escaped (t pre more : text) (c : ascii) :
  t = pre ++ escaped c ++ more ->
  ends t dq_unit (length pre) = [length pre + length (escaped c)].
Proof.
  intros ->. unfold escaped.
  destruct (Ascii.eqb c BSL) eqn:Eb; [apply ends_unit_backslash|].
  destruct (Ascii.eqb c DQ) eqn:Ed; [apply ends_unit_backslash|].
  now apply ends_unit_plain.
Qed.

Lemma escaped_length (c : ascii) : 0 < length (escaped c).
Proof. unfold escaped. destruct (Ascii.eqb c BSL), (Ascii.eqb c DQ); simpl; lia. Qed.

(** Over the escaped form of a string the greedy loop of the literal
    first stops in front of the closing quote. *)
Lemma greedy_escaped (rest : text) :
  forall s pre t fuel,
    t = pre ++ escape_quoted s ++ DQ :: rest ->
    length s <= fuel ->
    exists l, greedy (ends t dq_unit) fuel (length pre)
              = (length pre + length (escape_quoted s)) :: l.
Proof.
  induction s as [|c s IH]; intros pre t fuel Ht Hf.
  - rewrite greedy_stuck; [rewrite Nat.add_0_r; eauto|].
    subst t. unfold dq_unit, any, none_of. rewrite ends_Alt, ends_Seq.
    cbn [ends Ch]. simpl app. rewrite nth_error_middle. reflexivity.
  - destruct fuel as [|fuel]; [simpl in Hf; lia|].
    rewrite escape_quoted_cons, <- app_assoc in Ht.
    pose proof (dq_unit_escaped t pre _ c Ht) as Hu.
    pose proof (escaped_length c) as Hl.
    rewrite (greedy_single _ fuel _ _ Hu); [|lia].
    destruct (IH (pre ++ escaped c) t fuel) as [l Hg];
      [rewrite Ht, <- app_assoc; reflexivity|simpl in Hf; lia|].
    rewrite length_app in Hg. rewrite Hg.
    rewrite escape_quoted_cons, length_app. simpl.
    rewrite Nat.add_assoc. eauto.
Qed.

Lemma escape_quoted_length (s : text) : length s <= length (escape_quoted s).
Proof.
  induction s as [|c s IH]; [simpl; lia|].
  rewrite escape_quoted_cons, length_app. simpl.
  pose proof (escaped_length c). lia.
Qed.

(** A rendered string literal, wherever it stands, is one token. *)
Lemma quoted_token_at (pre s rest : text) :
  exists l,
    ends (pre ++ (DQ :: escape_quoted s ++ [DQ]) ++ rest) value_tok (length pre)
    = (length pre + length (DQ :: escape_quoted s ++ [DQ])) :: l.
Proof.
  set (t := pre ++ (DQ :: escape_quoted s ++ [DQ]) ++ rest).
  assert (Ht : t = (pre ++ [DQ]) ++ escape_quoted s ++ DQ :: rest).
  { unfold t. cbn [app]. rewrite <- !app_assoc. reflexivity. }
  assert (Hlen : length t = length pre + 1 + length (escape_quoted s) + 1 + length rest).
  { rewrite Ht. rewrite !length_app. simpl. lia. }
  destruct (greedy_escaped rest s (pre ++ [DQ]) t (length t - S (length pre)) Ht)
    as [l Hl].
  { pose proof (escape_quoted_length s). lia. }
  assert (Hp : length (pre ++ [DQ]) = S (length pre))
    by (rewrite length_app; simpl; lia).
  rewrite Hp in Hl.
  unfold value_tok. rewrite ends_Alt, ends_Seq.
  assert (H0 : ends t (Ch DQ) (length pre) = [S (length pre)]).
  { unfold Ch. rewrite ends_Chr. unfold t. cbn [app].
    rewrite nth_error_middle. now rewrite Ascii.eqb_refl. }
  rewrite H0. cbn [flat_map]. rewrite app_nil_r, ends_Seq.
  change (ends t (Star (Alt (Seq (Ch BSL) any) (none_of [DQ; BSL]))) (S (length pre)))
    with (greedy (ends t dq_unit) (length t - S (length pre)) (S (length pre))).
  rewrite Hl. cbn [flat_map].
  assert (H1 : ends t (Ch DQ) (S (length pre) + length (escape_quoted s))
               = [S (S (length pre) + length (escape_quoted s))]).
  { unfold Ch. rewrite ends_Chr. rewrite Ht.
    replace ((pre ++ [DQ]) ++ escape_quoted s ++ DQ :: rest)
      with (((pre ++ [DQ]) ++ escape_quoted s) ++ DQ :: rest)
      by (now rewrite <- app_assoc).
    replace (S (length pre) + length (escape_quoted s))
      with (length ((pre ++ [DQ]) ++ escape_quoted s))
      by (rewrite length_app, Hp; reflexivity).
    rewrite nth_error_middle. now rewrite Ascii.eqb_refl. }
  rewrite H1. cbn [app length]. rewrite length_app. cbn [length].
  replace (length pre + S (length (escape_quoted s) + 1))
    with (S (S (length pre) + length (escape_quoted s))) by lia.
  eexists. reflexivity.
Qed.

(** The characters of a bare value token: [[^,\r\n}\]]]. *)
Definition bare_char (c : ascii) : bool :=
  negb (existsb (Ascii.eqb c) [","%char; CR; LF; "}"%char; "]"%char]).

Lemma bare_token_at (pre rest : text) (c : ascii) (tok' : text) :
  Ascii.eqb DQ c = false -> Ascii.eqb SQ c = false ->
  forallb bare_char (c :: tok') = true ->
  closes_token rest = true ->
  exists l, ends (pre ++ (c :: tok') ++ rest) value_tok (length pre)
            = (length pre + length (c :: tok')) :: l.
Proof.
  intros Hd Hs Hall Hrest.
  set (t := pre ++ (c :: tok') ++ rest).
  assert (Hc0 : nth_error t (length pre) = Some c)
    by (unfold t; cbn [app]; apply nth_error_middle).
  unfold value_tok. rewrite !ends_Alt, !ends_Seq.
  assert (H1 : ends t (Ch DQ) (length pre) = [])
    by (unfold Ch; rewrite ends_Chr, Hc0; now rewrite Hd).
  assert (H2 : ends t (Ch SQ) (length pre) = [])
    by (unfold Ch; rewrite ends_Chr, Hc0; now rewrite Hs).
  rewrite H1, H2. cbn [flat_map app].
  unfold Plus. rewrite ends_Seq.
  simpl in Hall. apply andb_true_iff in Hall as [Hc Hall].
  assert (H3 : ends t (none_of [","%char; CR; LF; "}"%char; "]"%char]) (length pre)
               = [S (length pre)]).
  { unfold none_of. rewrite ends_Chr, Hc0. unfold bare_char in Hc. now rewrite Hc. }
  rewrite H3. cbn [flat_map]. rewrite app_nil_r.
  destruct (greedy_run t bare_char tok' (pre ++ [c]) rest (length t - S (length pre)))
    as [l Hl].
  - unfold t. cbn [app]. rewrite <- app_assoc. reflexivity.
  - exact Hall.
  - unfold closes_token in Hrest. destruct rest as [|x rest]; [reflexivity|].
    unfold bare_char. now rewrite Hrest.
  - unfold t. rewrite !length_app. simpl. lia.
  - assert (Hp : length (pre ++ [c]) = S (length pre))
      by (rewrite length_app; simpl; lia).
    rewrite Hp in Hl.
    change (ends t (Star (none_of [","%char; CR; LF; "}"%char; "]"%char])) (S (length pre)))
      with (greedy (ends t (Chr bare_char)) (length t - S (length pre)) (S (length pre))).
    rewrite Hl. cbn [length].
    replace (length pre + S (length tok')) with (S (length pre) + length tok') by lia.
    eauto.
Qed.

Lemma float_char_bare (c : ascii) :
  float_char c = true ->
  bare_char c = true /\ Ascii.eqb DQ c = false /\ Ascii.eqb SQ c = false
  /\ isspace c = false /\ Ascii.eqb "/" c = false /\ Ascii.eqb "#" c = false.
Proof.
  destruct c as [[] [] [] [] [] [] [] []]; vm_compute; intros H;
    try discriminate; auto 7.
Qed.

Lemma float_text_token_at (pre r rest : text) :
  r <> [] -> forallb float_char r = true -> closes_token rest = true ->
  exists l, ends (pre ++ r ++ rest) value_tok (length pre)
            = (length pre + length r) :: l.
Proof.
  intros Hne Hall Hrest. destruct r as [|c r']; [congruence|].
  assert (Hc : float_char c = true) by (simpl in Hall; now apply andb_true_iff in Hall).
  destruct (float_char_bare c Hc) as (_ & Hd & Hs & _).
  apply (bare_token_at pre rest c r' Hd Hs); [|exact Hrest].
  apply forallb_forall. intros x Hx.
  rewrite forallb_forall in Hall. now apply float_char_bare, Hall.
Qed.

Lemma uint_digits (d : Decimal.uint) :
  forallb float_char (str (NilEmpty.string_of_uint d)) = true.
Proof. induction d; simpl; auto. Qed.

Lemma dec_digits (z : Z) : dec z <> [] /\ forallb float_char (dec z) = true.
Proof.
  unfold dec. destruct (Z.to_int z) as [d|d]; simpl.
  - destruct d; simpl; try (split; [discriminate|]; try reflexivity; apply uint_digits).
  - split; [discriminate|].
    destruct d; simpl; try reflexivity; apply uint_digits.
Qed.

(** The text of a scalar that is not a string: not empty, and made of
    characters of numbers and words. *)
Lemma bare_rendering (v : pyval) (tok : text) :
  _repr_hjson_scalar v = Ok tok ->
  well_formed_scalar v = true -> renders_quoted v = false ->
  tok <> [] /\ forallb float_char tok = true
  \/ In tok [str "true"; str "false"].
Proof.
  intros Hr Hw Hq.
  destruct v as [|b|z|r|s|l|d]; simpl in Hr, Hw, Hq; try discriminate;
    injection Hr as <-.
  - right. destruct b; simpl; auto.
  - left. apply dec_digits.
  - left. apply andb_true_iff in Hw as [Hne Hall]. split; [|exact Hall].
    intros ->. discriminate.
Qed.

(** A rendered scalar, wherever it stands, is one token. *)
Lemma rendered_token_at (pre : text) (v : pyval) (tok rest : text) :
  _repr_hjson_scalar v = Ok tok ->
  well_formed_scalar v = true ->
  renders_quoted v || closes_token rest = true ->
  exists l, ends (pre ++ tok ++ rest) value_tok (length pre)
            = (length pre + length tok) :: l.
Proof.
  intros Hr Hw Hq.
  destruct (renders_quoted v) eqn:Eq.
  - destruct v as [|b|z|r|s|l|d]; simpl in Hr, Eq; try discriminate;
      injection Hr as <-.
    + apply (quoted_token_at pre (str "None") rest).
    + apply (quoted_token_at pre s rest).
  - cbn [orb] in Hq.
    destruct (bare_rendering v tok Hr Hw Eq) as [[Hne Hall]|[<-|[<-|[]]]].
    + now apply float_text_token_at.
    + now apply (bare_token_at pre rest "t"%char (str "rue")).
    + now apply (bare_token_at pre rest "f"%char (str "alse")).
Qed.

(** The first character of a rendered scalar is neither white space nor
    the start of a comment. *)
Lemma rendered_token_head (v : pyval) (tok : text) :
  _repr_hjson_scalar v = Ok tok ->
  well_formed_scalar v = true ->
  exists c tok', tok = c :: tok' /\ isspace c = false
                 /\ Ascii.eqb "/" c = false /\ Ascii.eqb "#" c = false.
Proof.
  intros Hr Hw.
  destruct (renders_quoted v) eqn:Eq.
  - destruct v as [|b|z|r|s|l|d]; simpl in Hr, Eq; try discriminate;
      injection Hr as <-; eexists; eexists; (split; [reflexivity|]);
      repeat split; reflexivity.
  - destruct (bare_rendering v tok Hr Hw Eq) as [[Hne Hall]|[<-|[<-|[]]]].
    + destruct tok as [|c tok']; [congruence|].
      simpl in Hall. apply andb_true_iff in Hall as [Hc _].
      destruct (float_char_bare c Hc) as (_ & _ & _ & H1 & H2 & H3).
      exists c, tok'. auto.
    + exists "t"%char, (str "rue"). repeat split; reflexivity.
    + exists "f"%char, (str "alse"). repeat split; reflexivity.
Qed.

(** Render, then read.  The text [_repr_hjson_scalar] gives for a scalar
    is read back as one whole value token by the pattern of the scalar
    patcher, wherever it stands: a string literal whatever follows it, a
    number or a boolean when it is followed by a comma, a line end, a
    closing brace or bracket, or the end of the text. *)
Theorem rendered_scalar_is_one_token (pre : text) (v : pyval) (tok rest : text) :
  _repr_hjson_scalar v = Ok tok ->
  well_formed_scalar v = true ->
  renders_quoted v || closes_token rest = true ->
  exists l, ends (pre ++ tok ++ rest) value_tok (length pre)
            = (length pre + length tok) :: l.
Proof. apply rendered_token_at. Qed.

Lemma rendered_scalar_is_one_token_witness :
  exists l, ends (doc "{~q~: ~a\~b~, ~n~:2}") value_tok 6 = 12 :: l.
Proof.
  apply (rendered_scalar_is_one_token (doc "{~q~: ") (PStr (doc "a~b"))
           (doc "~a\~b~") (doc ", ~n~:2}")); reflexivity.
Defined.

End TokenFacts.

(** ** Spans of the record locator *)

Module LocatorFacts.

Import Re Scanner Locator Spec Examples ScannerFacts ReFacts.

Lemma back_walk_sound (t : text) :
  forall upto st i, back_walk t upto st = Some i ->
    i < upto /\ nth_error t i = Some "{"%char.
Proof.
  induction upto as [|k IH]; intros st i; cbn [back_walk]; [discriminate|].
  destruct (nth_error t k) as [ch|] eqn:Hk; [|discriminate].
  destruct (back_step ch st) as [st'|[]] eqn:Hs.
  - intros H. apply IH in H as [H1 H2]. split; [lia|exact H2].
  - intros [= <-]. split; [lia|].
    unfold back_step in Hs.
    destruct (in_dq st || in_sq st).
    { destruct (esc st); [discriminate|].
      destruct (is_backslash ch); [discriminate|].
      destruct (in_dq st && Ascii.eqb ch DQ); [discriminate|].
      destruct (in_sq st && Ascii.eqb ch SQ); discriminate. }
    destruct (Ascii.eqb ch DQ); [discriminate|].
    destruct (Ascii.eqb ch SQ); [discriminate|].
    destruct (Ascii.eqb ch "}"); [discriminate|].
    destruct (Ascii.eqb ch "{") eqn:E; [|discriminate].
    apply Ascii.eqb_eq in E. now subst ch.
Qed.

Lemma finditer_from_in (M : Type) (at_ : nat -> option M) (stop : M -> nat) (m : M) :
  forall count p pos, In m (finditer_from at_ stop p count pos) ->
    exists q, p <= q /\ at_ q = Some m.
Proof.
  induction count as [|c IH]; intros p pos; cbn [finditer_from]; [contradiction|].
  destruct (p <? pos).
  - intros H. apply IH in H as (q & Hq & Hm). exists q. split; [lia|exact Hm].
  - destruct (at_ p) as [m'|] eqn:E.
    + intros [<-|H]; [exists p; split; [lia|exact E]|].
      apply IH in H as (q & Hq & Hm). exists q. split; [lia|exact Hm].
    + intros H. apply IH in H as (q & Hq & Hm). exists q. split; [lia|exact Hm].
Qed.

Lemma ends_line_brace (t : text) (p e : nat) :
  In e (ends t line_brace p) -> 0 < e /\ nth_error t (e - 1) = Some "{"%char.
Proof.
  unfold line_brace. rewrite !ends_Seq. intros H.
  apply in_flat_map in H as (x & _ & H).
  apply in_flat_map in H as (y & _ & H).
  unfold Ch in H. cbn [ends] in H.
  destruct (nth_error t y) as [c|] eqn:Hy; [|contradiction].
  destruct (Ascii.eqb "{" c) eqn:E; [|contradiction].
  destruct H as [<-|[]]. apply Ascii.eqb_eq in E. subst c.
  split; [lia|]. now replace (S y - 1) with y by lia.
Qed.

Lemma last_line_brace_sound (t : text) (anchor i : nat) :
  last_line_brace t anchor = Some i ->
  i < anchor /\ nth_error t i = Some "{"%char.
Proof.
  unfold last_line_brace.
  destruct (rev (finditer (firstn anchor t) _ _)) as [|e l] eqn:E; [discriminate|].
  intros [= <-].
  assert (Hin : In e (rev (finditer (firstn anchor t)
                  (fun p => match ends (firstn anchor t) line_brace p with
                            | e :: _ => Some e
                            | [] => None
                            end) (fun e => e))))
    by (rewrite E; now left).
  apply in_rev in Hin. unfold finditer in Hin.
  apply finditer_from_in in Hin as (q & _ & Hq).
  destruct (ends (firstn anchor t) line_brace q) as [|e' l'] eqn:Ee; [discriminate|].
  injection Hq as ->.
  assert (He : In e (ends (firstn anchor t) line_brace q)) by (rewrite Ee; now left).
  apply ends_line_brace in He as [H0 H1].
  pose proof (nth_error_lt _ _ _ _ H1) as Hlt. rewrite length_firstn in Hlt.
  split; [lia|].
  rewrite nth_error_firstn in H1.
  destruct (e - 1 <? anchor); [exact H1|discriminate].
Qed.

Lemma find_object_bounds_sound (t : text) (anchor s e : nat) :
  find_object_bounds t anchor = Done (Some (s, e)) ->
  s <= anchor /\ s < e
  /\ nth_error t s = Some "{"%char /\ nth_error t (e - 1) = Some "}"%char.
Proof.
  unfold find_object_bounds.
  destruct (back_walk t (S anchor) bstate0) as [i|] eqn:Hw.
  - apply back_walk_sound in Hw as [H1 H2].
    destruct (balance object_lexer t (S (length t)) i bstate0) as [[e'|]|] eqn:Hb;
      cbn [scan_bind]; try discriminate.
    intros [= <- <-].
    apply (balance_sound object_lexer t object_lexer_progresses) in Hb as [H3 H4].
    repeat split; try assumption; lia.
  - destruct (last_line_brace t anchor) as [i|] eqn:Hl; [|discriminate].
    apply last_line_brace_sound in Hl as [H1 H2].
    destruct (balance object_lexer t (S (length t)) i bstate0) as [[e'|]|] eqn:Hb;
      cbn [scan_bind]; try discriminate.
    intros [= <- <-].
    apply (balance_sound object_lexer t object_lexer_progresses) in Hb as [H3 H4].
    repeat split; try assumption; lia.
Qed.

Lemma spans_of_in (t wanted : text) (sp : nat * nat) :
  forall ms spans, spans_of t wanted ms = Done spans -> In sp spans ->
    exists m, In m ms /\ mv m = wanted
              /\ find_object_bounds t (m_start m) = Done (Some sp).
Proof.
  induction ms as [|m ms IH]; intros spans; cbn [spans_of].
  - intros [= <-] [].
  - destruct (text_eqb (mv m) wanted) eqn:Ev; cbn [negb].
    + apply text_eqb_eq in Ev.
      destruct (find_object_bounds t (m_start m)) as [b|] eqn:Hb;
        cbn [scan_bind]; [|discriminate].
      destruct (spans_of t wanted ms) as [rest|] eqn:Hr;
        cbn [scan_bind]; [|discriminate].
      intros [= <-] Hin.
      destruct b as [sp0|].
      * destruct Hin as [<-|Hin].
        -- exists m. repeat split; [now left|exact Ev|exact Hb].
        -- destruct (IH rest eq_refl Hin) as (m' & H1 & H2 & H3).
           exists m'. repeat split; [now right|exact H2|exact H3].
      * destruct (IH rest eq_refl Hin) as (m' & H1 & H2 & H3).
        exists m'. repeat split; [now right|exact H2|exact H3].
    + intros Hs Hin. destruct (IH spans Hs Hin) as (m' & H1 & H2 & H3).
      exists m'. repeat split; [now right|exact H2|exact H3].
Qed.

(** Behind every span the locator yields there is a match of the key
    pattern whose value is the wanted one and from whose start the span
    was worked out. *)
Lemma span_key_match (raw wanted : text) (spans : list (nat * nat))
  (sp : nat * nat) :
  _iter_object_spans_for_key raw wanted = Done spans ->
  In sp spans ->
  exists m, key_pat_at raw (m_start m) = Some m /\ mv m = wanted
            /\ find_object_bounds raw (m_start m) = Done (Some sp).
Proof.
  unfold _iter_object_spans_for_key. intros Hs Hin.
  destruct (spans_of_in raw wanted sp _ spans Hs Hin) as (m & Hm & Hv & Hb).
  exists m. repeat split; try assumption.
  unfold finditer in Hm. apply finditer_from_in in Hm as (q & _ & Hq).
  assert (Hq' : m_start m = q).
  { unfold key_pat_at in Hq. clear -Hq.
    induction (ends raw key_pat_head q) as [|x l IH]; simpl in Hq; [discriminate|].
    destruct (val_at raw x) as [[r v]|]; [now injection Hq as <-|now apply IH]. }
  now rewrite Hq'.
Qed.

(** Every span the record locator yields starts on an opening brace, at
    or before a key whose value is the wanted one, and ends just past a
    closing brace. *)
Theorem object_spans_are_braced (raw wanted : text) (spans : list (nat * nat))
  (s e : nat) :
  _iter_object_spans_for_key raw wanted = Done spans ->
  In (s, e) spans ->
  s < e /\ e <= length raw
  /\ nth_error raw s = Some "{"%char /\ nth_error raw (e - 1) = Some "}"%char
  /\ exists m, key_pat_at raw (m_start m) = Some m
               /\ mv m = wanted /\ s <= m_start m.
Proof.
  intros Hs Hin.
  destruct (span_key_match raw wanted spans (s, e) Hs Hin) as (m & Hm & Hv & Hb).
  apply find_object_bounds_sound in Hb as (H1 & H2 & H3 & H4).
  pose proof (nth_error_lt _ _ _ _ H4) as Hlt.
  repeat split; try assumption; [lia|].
  exists m. repeat split; assumption.
Qed.

Lemma object_spans_are_braced_witness :
  54 < 82 /\ 82 <= length fleet_doc
  /\ nth_error fleet_doc 54 = Some "{"%char
  /\ nth_error fleet_doc (82 - 1) = Some "}"%char
  /\ exists m, key_pat_at fleet_doc (m_start m) = Some m
               /\ mv m = str "b" /\ 54 <= m_start m.
Proof.
  apply (object_spans_are_braced fleet_doc (str "b") [(54, 82)] 54 82).
  - vm_compute. reflexivity.
  - now left.
Defined.

End LocatorFacts.

(** ** Block finder *)

Module FinderFacts.

Import Region FlowMaps Spec Examples RegionFacts SpanFacts Totality.

Section Finder.

Variable hjson_loads : text -> option pydict.
Variable container_str : pyval -> text.

Lemma first_block_in (raw id_value : text) (s e : nat) :
  forall spans,
    first_block hjson_loads container_str raw id_value spans = Some (s, e) ->
    In (s, e) spans
    /\ exists data, hjson_loads (slice raw s e) = Some data
                    /\ ident_of container_str data = id_value.
Proof.
  induction spans as [|[bs be] spans IH]; cbn [first_block]; [discriminate|].
  destruct (hjson_loads (slice raw bs be)) as [data|] eqn:Hl.
  - destruct (text_eqb (ident_of container_str data) id_value) eqn:E.
    + intros [= <- <-]. split; [now left|].
      exists data. split; [exact Hl|now apply text_eqb_eq].
    + intros H. apply IH in H as [H1 H2]. split; [now right|exact H2].
  - intros H. apply IH in H as [H1 H2]. split; [now right|exact H2].
Qed.

Lemma first_block_none (raw id_value : text) :
  forall spans,
    first_block hjson_loads container_str raw id_value spans = None ->
    forall s e data, In (s, e) spans ->
      hjson_loads (slice raw s e) = Some data ->
      ident_of container_str data <> id_value.
Proof.
  induction spans as [|[bs be] spans IH]; cbn [first_block]; [intros _ s e d []|].
  intros H s e data [[= <- <-]|Hin] Hl.
  - rewrite Hl in H.
    destruct (text_eqb (ident_of container_str data) id_value) eqn:E;
      [discriminate|].
    intros Heq. apply text_eqb_eq in Heq. congruence.
  - destruct (hjson_loads (slice raw bs be)) as [d0|].
    + destruct (text_eqb (ident_of container_str d0) id_value); [discriminate|].
      now apply (IH H s e data).
    + now apply (IH H s e data).
Qed.

Lemma find_outcome (raw id_value : text) (r : lookup) :
  _find_ship_block_span hjson_loads container_str raw id_value = Done r ->
  match r with
  | Found (s, e) =>
      exists a b data,
        _extract_ship_list_region raw = Done (Some (a, b))
        /\ a < s /\ s < e /\ e < b
        /\ nth_error raw s = Some "{"%char
        /\ nth_error raw (e - 1) = Some "}"%char
        /\ hjson_loads (slice raw s e) = Some data
        /\ ident_of container_str data = id_value
  | Missing =>
      forall a b s e data,
        _extract_ship_list_region raw = Done (Some (a, b)) ->
        In (s, e) (fst (_iter_top_level_flow_maps raw a b)) ->
        hjson_loads (slice raw s e) = Some data ->
        ident_of container_str data <> id_value
  | IndexError => False
  end.
Proof.
  unfold _find_ship_block_span.
  destruct (_extract_ship_list_region raw) as [[[a b]|]|] eqn:Hr;
    cbn [scan_bind]; [| |discriminate].
  - pose proof (region_spans_no_error raw a b Hr) as Herr.
    pose proof (extract_region_sound raw a b Hr) as (Hab & Ha & Hb).
    destruct (_iter_top_level_flow_maps raw a b) as [spans err] eqn:Hi.
    simpl in Herr. subst err.
    destruct (first_block hjson_loads container_str raw id_value spans)
      as [[s e]|] eqn:Hf.
    + intros [= <-]. apply first_block_in in Hf as [Hin (data & Hl & Hid)].
      assert (Hin' : In (s, e) (fst (_iter_top_level_flow_maps raw a b)))
        by (rewrite Hi; exact Hin).
      apply flow_map_spans_brace_bounds in Hin' as (H1 & H2 & H3 & H4 & H5).
      assert (a <> s) by (intros ->; rewrite Ha in H4; discriminate).
      assert (e - 1 <> b - 1) by (intros E; rewrite E, Hb in H5; discriminate).
      exists a, b, data. repeat split; try assumption; lia.
    + intros [= <-] a' b' s e data [= <- <-] Hin Hl.
      rewrite Hi in Hin. now apply (first_block_none raw id_value spans Hf s e data).
  - intros [= <-] a b s e data H. discriminate.
Qed.

(** The finder returns on every text and never raises.  A span it returns
    is a block of the ship list: it lies strictly between the brackets of
    the region, starts on an opening brace, ends just past a closing
    brace, and the parser reads from it a record whose identifier is the
    wanted one.  When it returns [None], no top-level block of the region
    reads as such a record. *)
Theorem found_block_is_a_record_of_the_list (raw id_value : text) :
  exists r,
    _find_ship_block_span hjson_loads container_str raw id_value = Done r
    /\ match r with
       | Found (s, e) =>
           exists a b data,
             _extract_ship_list_region raw = Done (Some (a, b))
             /\ a < s /\ s < e /\ e < b
             /\ nth_error raw s = Some "{"%char
             /\ nth_error raw (e - 1) = Some "}"%char
             /\ hjson_loads (slice raw s e) = Some data
             /\ ident_of container_str data = id_value
       | Missing =>
           forall a b s e data,
             _extract_ship_list_region raw = Done (Some (a, b)) ->
             In (s, e) (fst (_iter_top_level_flow_maps raw a b)) ->
             hjson_loads (slice raw s e) = Some data ->
             ident_of container_str data <> id_value
       | IndexError => False
       end.
Proof.
  assert (Ht : exists r,
             _find_ship_block_span hjson_loads container_str raw id_value = Done r).
  { unfold _find_ship_block_span.
    destruct (extract_region_total raw) as [[[a b]|] ->]; cbn [scan_bind]; [|eauto].
    destruct (_iter_top_level_flow_maps raw a b) as [spans err].
    destruct (first_block hjson_loads container_str raw id_value spans); eauto. }
  destruct Ht as [r H]. exists r. split; [exact H|]. exact (find_outcome raw id_value r H).
Qed.

End Finder.

(** Record [b] of [fleet_doc] is found at its span. *)
Example find_record_b :
  _find_ship_block_span loads_fleet no_container_str fleet_doc (str "b")
  = Done (Found (54, 82)).
Proof. vm_compute. reflexivity. Qed.

End FinderFacts.

(** ** Side groups *)

Module GroupFacts.

Import Examples.

Lemma text_eqb_refl (a : text) : text_eqb a a = true.
Proof. now apply text_eqb_eq. Qed.

Lemma text_eqb_false (a b : text) : text_eqb a b = false <-> a <> b.
Proof.
  split.
  - intros H E. apply text_eqb_eq in E. congruence.
  - intros H. destruct (text_eqb a b) eqn:E; [|reflexivity].
    apply text_eqb_eq in E. contradiction.
Qed.

Section Groups.

Variable casefold : text -> text.
Variable upper : ascii -> text.
Variable islower : ascii -> bool.

Lemma ships_of_append (groups : list (text * group)) (k disp : text)
  (ship : pydict) (k' : text) :
  ships_of (group_append groups k disp ship) k'
  = if text_eqb k k' then ships_of groups k' ++ [ship] else ships_of groups k'.
Proof.
  induction groups as [|[k0 g] groups IH]; cbn [group_append ships_of].
  - destruct (text_eqb k k'); reflexivity.
  - destruct (text_eqb k0 k) eqn:E0; cbn [ships_of].
    + apply text_eqb_eq in E0. subst k0.
      destruct (text_eqb k k'); reflexivity.
    + destruct (text_eqb k0 k') eqn:E1; [|exact IH].
      apply text_eqb_eq in E1. subst k0.
      replace (text_eqb k k') with false; [reflexivity|].
      symmetry. apply text_eqb_false. apply text_eqb_false in E0. congruence.
Qed.

Lemma keys_append (groups : list (text * group)) (k disp : text) (ship : pydict) :
  NoDup (map fst groups) ->
  NoDup (map fst (group_append groups k disp ship))
  /\ (forall x, In x (map fst (group_append groups k disp ship))
                <-> x = k \/ In x (map fst groups)).
Proof.
  induction groups as [|[k0 g] groups IH]; cbn [group_append]; intros Hnd.
  - split; [repeat constructor; intros []|]. simpl. intuition.
  - inversion Hnd as [|? ? Hk0 Hnd']; subst.
    destruct (text_eqb k0 k) eqn:E0.
    + apply text_eqb_eq in E0. subst k0. split; [exact Hnd|].
      simpl. intuition.
    + destruct (IH Hnd') as [H1 H2]. apply text_eqb_false in E0. split.
      * simpl. constructor; [|exact H1].
        intros Hin. apply H2 in Hin as [->|Hin]; [congruence|contradiction].
      * intros x. simpl. rewrite H2. intuition.
Qed.

Lemma build_groups_spec :
  forall ships_data groups invalid groups' invalid',
    build_groups casefold upper islower ships_data groups invalid
    = Ok (groups', invalid') ->
    NoDup (map fst groups) ->
    NoDup (map fst groups')
    /\ forall k, ships_of groups' k
                 = ships_of groups k
                   ++ filter (fun s => text_eqb (bucket casefold s) k) ships_data.
Proof.
  induction ships_data as [|ship rest IH]; intros groups invalid groups' invalid';
    cbn [build_groups].
  - intros [= <- <-] Hnd. split; [exact Hnd|]. intros k. now rewrite app_nil_r.
  - destruct (stripped _) as [name|ex]; [|discriminate].
    destruct (stripped _) as [key|ex]; [|discriminate].
    unfold bucket. cbn [filter].
    destruct (valid_side ship) as [raw|]; intros H Hnd;
      apply IH in H as [H1 H2];
      try (apply keys_append; exact Hnd);
      (split; [exact H1|]); intros k; rewrite H2, ships_of_append;
      match goal with
      | |- context [text_eqb ?a k] => destruct (text_eqb a k)
      end; try reflexivity; now rewrite <- app_assoc.
Qed.

(** The groups are a partition of the ship list.  When the function
    returns, no two groups have the same key, and the ships filed under a
    key are exactly the ships of the list whose side folds to that key
    (the ships without a usable side being those of [unknown]), in the
    order of the list: no ship is lost and none is filed twice. *)
Theorem side_groups_partition (ships_data : list pydict)
  (groups : list (text * group)) (invalid : list text) :
  _build_side_groups casefold upper islower ships_data = Ok (groups, invalid) ->
  NoDup (map fst groups)
  /\ forall k, ships_of groups k
               = filter (fun s => text_eqb (bucket casefold s) k) ships_data.
Proof.
  intros H. apply build_groups_spec in H; [exact H|constructor].
Qed.

End Groups.

Lemma side_groups_partition_witness :
  NoDup [str "tsn"; str "unknown"]
  /\ forall k,
       ships_of [(str "tsn", Group (str "TSN") [ship_tsn; ship_tsn_lower]);
                 (str "unknown", Group (str "Unknown") [ship_blank])] k
       = filter (fun s => text_eqb (bucket lower s) k)
                [ship_tsn; ship_blank; ship_tsn_lower].
Proof.
  apply (side_groups_partition lower upper_letter is_lower_letter
           [ship_tsn; ship_blank; ship_tsn_lower]
           [(str "tsn", Group (str "TSN") [ship_tsn; ship_tsn_lower]);
            (str "unknown", Group (str "Unknown") [ship_blank])]
           [str "Gamma"]).
  vm_compute. reflexivity.
Defined.

End GroupFacts.

(** ** The record that is rendered for an insertion *)

Module RenderFacts.

Import Render Examples GroupFacts.

Definition keys_of (d : pydict) : list text := map fst d.

Lemma get_absent (d : pydict) (k : text) :
  ~ In k (keys_of d) -> Dict.get d k = None.
Proof.
  induction d as [|[k0 v0] d IH]; simpl; [reflexivity|].
  intros H. destruct (text_eqb k0 k) eqn:E.
  - apply text_eqb_eq in E. subst. exfalso. apply H. now left.
  - apply IH. intros Hin. apply H. now right.
Qed.

Lemma get_present (d : pydict) (k : text) (v : pyval) :
  Dict.get d k = Some v -> In k (keys_of d).
Proof.
  induction d as [|[k0 v0] d IH]; simpl; [discriminate|].
  destruct (text_eqb k0 k) eqn:E.
  - apply text_eqb_eq in E. now left.
  - intros H. right. now apply IH.
Qed.

Lemma get_set (d : pydict) (k : text) (v : pyval) (k' : text) :
  Dict.get (Dict.set d k v) k'
  = if text_eqb k k' then Some v else Dict.get d k'.
Proof.
  induction d as [|[k0 v0] d IH]; simpl.
  - destruct (text_eqb k k'); reflexivity.
  - destruct (text_eqb k0 k) eqn:E0; simpl.
    + apply text_eqb_eq in E0. subst k0. destruct (text_eqb k k'); reflexivity.
    + destruct (text_eqb k0 k') eqn:E1; [|exact IH].
      apply text_eqb_eq in E1. subst k0.
      replace (text_eqb k k') with false; [reflexivity|].
      symmetry. apply text_eqb_false. apply text_eqb_false in E0. congruence.
Qed.

Lemma keys_set_new (d : pydict) (k : text) (v : pyval) :
  ~ In k (keys_of d) -> keys_of (Dict.set d k v) = keys_of d ++ [k].
Proof.
  induction d as [|[k0 v0] d IH]; simpl; [reflexivity|].
  intros H. destruct (text_eqb k0 k) eqn:E.
  - apply text_eqb_eq in E. subst. exfalso. apply H. now left.
  - simpl. f_equal. apply IH. intros Hin. apply H. now right.
Qed.

Lemma keys_remove (d : pydict) (k : text) :
  NoDup (keys_of d) ->
  keys_of (Dict.remove d k) = filter (fun x => negb (text_eqb x k)) (keys_of d).
Proof.
  induction d as [|[k0 v0] d IH]; simpl; [reflexivity|].
  intros Hnd. inversion Hnd as [|? ? Hk0 Hnd']; subst.
  destruct (text_eqb k0 k) eqn:E; simpl.
  - apply text_eqb_eq in E. subst k0.
    symmetry. clear -Hk0. induction d as [|[k1 v1] d IH]; simpl; [reflexivity|].
    destruct (text_eqb k1 k) eqn:E; simpl.
    + apply text_eqb_eq in E. subst. exfalso. apply Hk0. now left.
    + f_equal. apply IH. intros Hin. apply Hk0. now right.
  - f_equal. now apply IH.
Qed.

Lemma get_remove (d : pydict) (k k' : text) :
  NoDup (keys_of d) ->
  Dict.get (Dict.remove d k) k'
  = if text_eqb k k' then None else Dict.get d k'.
Proof.
  induction d as [|[k0 v0] d IH]; simpl; intros Hnd.
  - destruct (text_eqb k k'); reflexivity.
  - inversion Hnd as [|? ? Hk0 Hnd']; subst.
    destruct (text_eqb k0 k) eqn:E0; simpl.
    + apply text_eqb_eq in E0. subst k0.
      destruct (text_eqb k k') eqn:E1; [|reflexivity].
      apply text_eqb_eq in E1. subst k'. now apply get_absent.
    + destruct (text_eqb k0 k') eqn:E1; [|now apply IH].
      apply text_eqb_eq in E1. subst k0.
      replace (text_eqb k k') with false; [reflexivity|].
      symmetry. apply text_eqb_false. apply text_eqb_false in E0. congruence.
Qed.

Lemma filter_nodup (f : text -> bool) (l : list text) :
  NoDup l -> NoDup (filter f l).
Proof.
  induction 1 as [|x l Hx Hnd IH]; simpl; [constructor|].
  destruct (f x); [|exact IH]. constructor; [|exact IH].
  intros Hin. apply filter_In in Hin as [Hin _]. contradiction.
Qed.

Lemma get_update (a b : pydict) (k : text) :
  NoDup (keys_of b) ->
  Dict.get (Dict.update a b) k
  = match Dict.get b k with
    | Some v => Some v
    | None => Dict.get a k
    end.
Proof.
  unfold Dict.update. revert a.
  induction b as [|[k0 v0] b IH]; intros a Hnd; [reflexivity|].
  inversion Hnd as [|? ? Hk0 Hnd']; subst.
  cbn [fold_left fst snd]. rewrite (IH _ Hnd'), get_set. simpl.
  destruct (text_eqb k0 k) eqn:E; [|reflexivity].
  apply text_eqb_eq in E. subst k0. now rewrite (get_absent b k Hk0).
Qed.

Lemma keys_update (a b : pydict) :
  NoDup (keys_of b) ->
  (forall k, In k (keys_of b) -> ~ In k (keys_of a)) ->
  keys_of (Dict.update a b) = keys_of a ++ keys_of b.
Proof.
  unfold Dict.update. revert a.
  induction b as [|[k0 v0] b IH]; intros a Hnd Hdis; simpl.
  - now rewrite app_nil_r.
  - inversion Hnd as [|? ? Hk0 Hnd']; subst.
    rewrite IH; [|exact Hnd'|].
    + rewrite keys_set_new; [now rewrite <- app_assoc|].
      apply Hdis. now left.
    + intros k Hk. rewrite keys_set_new; [|apply Hdis; now left].
      intros Hin. apply in_app_or in Hin as [Hin|[<-|[]]].
      * apply (Hdis k); [now right|exact Hin].
      * contradiction.
Qed.

(** The loop that moves the keys of [ks] to the front: what is left in
    [d], what has gone to [ordered]. *)
Lemma take_ordered_spec :
  forall ks d ordered d' ordered',
    take_ordered ks d ordered = (d', ordered') ->
    NoDup ks -> NoDup (keys_of d) ->
    (forall k, In k ks -> ~ In k (keys_of ordered)) ->
    NoDup (keys_of d')
    /\ keys_of d' = filter (fun x => negb (existsb (text_eqb x) ks)) (keys_of d)
    /\ keys_of ordered' = keys_of ordered ++ filter (Dict.mem d) ks
    /\ (forall k, match Dict.get d' k with
                  | Some v => Some v
                  | None => Dict.get ordered' k
                  end
                  = match Dict.get d k with
                    | Some v => Some v
                    | None => Dict.get ordered k
                    end).
Proof.
  induction ks as [|k ks IH]; intros d ordered d' ordered'; cbn [take_ordered].
  - intros [= <- <-] _ Hnd _. repeat split; try assumption.
    + clear. induction (keys_of d) as [|x l IHl]; simpl; [reflexivity|].
      f_equal. exact IHl.
    + simpl. now rewrite app_nil_r.
  - intros H Hks Hnd Hdis. inversion Hks as [|? ? Hk Hks']; subst.
    cbn [filter]. unfold Dict.mem at 1.
    destruct (Dict.get d k) as [v|] eqn:Hg.
    + apply IH in H as (H1 & H2 & H3 & H4); try assumption.
      * repeat split; try assumption.
        -- rewrite H2, keys_remove by assumption.
           clear. induction (keys_of d) as [|x l IHl]; simpl; [reflexivity|].
           destruct (text_eqb x k); simpl; [exact IHl|].
           destruct (existsb (text_eqb x) ks); simpl; [exact IHl|now rewrite IHl].
        -- rewrite H3, keys_set_new by (apply Hdis; now left).
           rewrite <- app_assoc. simpl. f_equal. f_equal.
           apply filter_ext_in. intros x Hx. unfold Dict.mem.
           rewrite get_remove by assumption.
           replace (text_eqb k x) with false; [reflexivity|].
           symmetry. apply text_eqb_false. intros ->. contradiction.
        -- intros k'. rewrite H4, get_remove, get_set by assumption.
           destruct (text_eqb k k') eqn:E; [|reflexivity].
           apply text_eqb_eq in E. subst k'. now rewrite Hg.
      * rewrite keys_remove by assumption. now apply filter_nodup.
      * intros x Hx. rewrite keys_set_new by (apply Hdis; now left).
        intros Hin. apply in_app_or in Hin as [Hin|[<-|[]]].
        -- apply (Hdis x); [now right|exact Hin].
        -- contradiction.
    + apply IH in H as (H1 & H2 & H3 & H4); try assumption.
      * repeat split; try assumption.
        rewrite H2. apply filter_ext_in. intros x Hx. simpl.
        replace (text_eqb x k) with false; [reflexivity|].
        symmetry. apply text_eqb_false. intros ->.
        assert (Hn : Dict.get d k <> None).
        { clear -Hx. induction d as [|[k0 v0] d IHd]; simpl in *; [contradiction|].
          destruct (text_eqb k0 k) eqn:E; [discriminate|].
          destruct Hx as [->|Hx]; [now rewrite text_eqb_refl in E|now apply IHd]. }
        contradiction.
      * intros x Hx. apply Hdis. now right.
Qed.

(** The dictionary that [_render_ship_block] hands to the pretty printer
    holds every field of the ship, with its value, and no other field;
    the identity keys the ship has come first, in the order [Key], [key],
    [Name], [name], [Side], [side], [Artfileroot], [artfileroot], and the
    other keys follow in the order the ship has them. *)
Theorem rendered_record_keeps_fields (ship_dict d ordered : pydict)
  (item_indent : text) :
  NoDup (map fst ship_dict) ->
  take_ordered ordering ship_dict [] = (d, ordered) ->
  _render_ship_block ship_dict item_indent
  = _repr_hjson_map_pretty (Dict.update ordered d)
      (if 2 <=? length item_indent
       then firstn (length item_indent - 2) item_indent else [])
  /\ (forall k, Dict.get (Dict.update ordered d) k = Dict.get ship_dict k)
  /\ map fst (Dict.update ordered d)
     = filter (Dict.mem ship_dict) ordering
       ++ filter (fun k => negb (existsb (text_eqb k) ordering))
                 (map fst ship_dict).
Proof.
  intros Hnd Ht.
  assert (Hord : NoDup ordering).
  { unfold ordering. repeat constructor; simpl; intros H;
      repeat (destruct H as [H|H]; [discriminate|]); contradiction. }
  destruct (take_ordered_spec ordering ship_dict [] d ordered Ht Hord Hnd)
    as (H1 & H2 & H3 & H4); [intros k _ []|].
  split; [unfold _render_ship_block; now rewrite Ht|]. split.
  - intros k. rewrite get_update by exact H1. rewrite H4.
    destruct (Dict.get ship_dict k); reflexivity.
  - fold (keys_of (Dict.update ordered d)). rewrite keys_update.
    + rewrite H3, H2. reflexivity.
    + exact H1.
    + intros k Hk. rewrite H3. cbn [keys_of map app]. rewrite H2 in Hk.
      apply filter_In in Hk as [_ Hk]. apply negb_true_iff in Hk.
      intros Hin. apply filter_In in Hin as [Hin _].
      assert (He : existsb (text_eqb k) ordering = true).
      { apply existsb_exists. exists k. split; [exact Hin|apply text_eqb_refl]. }
      congruence.
Qed.

Lemma rendered_record_keeps_fields_witness :
  _render_ship_block
    [(str "hull", PInt 3); (str "side", PStr (str "TSN")); (str "Key", PStr (str "d"))]
    (str "    ")
  = _repr_hjson_map_pretty
      [(str "Key", PStr (str "d")); (str "side", PStr (str "TSN")); (str "hull", PInt 3)]
      (str "  ")
  /\ (forall k,
        Dict.get [(str "Key", PStr (str "d")); (str "side", PStr (str "TSN"));
                  (str "hull", PInt 3)] k
        = Dict.get [(str "hull", PInt 3); (str "side", PStr (str "TSN"));
                    (str "Key", PStr (str "d"))] k)
  /\ [str "Key"; str "side"; str "hull"] = [str "Key"; str "side"] ++ [str "hull"].
Proof.
  apply (rendered_record_keeps_fields
           [(str "hull", PInt 3); (str "side", PStr (str "TSN"));
            (str "Key", PStr (str "d"))]
           [(str "hull", PInt 3)]
           [(str "Key", PStr (str "d")); (str "side", PStr (str "TSN"))]
           (str "    ")).
  - repeat constructor; simpl; intros H;
      repeat (destruct H as [H|H]; [discriminate|]); contradiction.
  - vm_compute. reflexivity.
Defined.

End RenderFacts.

(** ** Insertion into an empty list, removal, look-up by name *)

Module EdgeFacts.

Import Scanner Region FlowMaps Locator Patcher Render Banner Spec Examples.
Import RegionFacts MutatorFacts LocatorFacts.

Lemma isspace_inert (c : ascii) :
  isspace c = true ->
  Ascii.eqb c DQ || Ascii.eqb c SQ = false
  /\ Ascii.eqb c "{" = false /\ Ascii.eqb c "}" = false.
Proof.
  destruct c as [[] [] [] [] [] [] [] []]; vm_compute; intros H;
    try discriminate; auto.
Qed.

(** Over characters that are neither quotes nor braces the iterator
    yields nothing. *)
Lemma run_inert (t : text) (lo stop : nat) :
  (forall k c, lo <= k -> k < stop -> nth_error t k = Some c ->
     Ascii.eqb c DQ || Ascii.eqb c SQ = false
     /\ Ascii.eqb c "{" = false /\ Ascii.eqb c "}" = false) ->
  forall fuel i, lo <= i -> fst (run t fuel i stop istate0) = [].
Proof.
  intros H. induction fuel as [|f IH]; intros i Hi; cbn [run]; [reflexivity|].
  destruct (i <? stop) eqn:Ei; [|reflexivity]. apply Nat.ltb_lt in Ei.
  destruct (nth_error t i) as [ch|] eqn:Hch; [|reflexivity].
  destruct (H i ch Hi Ei Hch) as (H1 & H2 & H3).
  unfold step. cbn [in_q istate0]. rewrite H1, H2, H3.
  specialize (IH (i + 1)). destruct (run t f (i + 1) stop istate0).
  apply IH. lia.
Qed.

Section Edge.

Variable hjson_loads : text -> option pydict.
Variable casefold : text -> text.
Variable container_str : pyval -> text.

(** The first record of a list.  When nothing but white space stands
    between the brackets of the ship list, the insertion takes for the
    indentation of the new record the whole text that precedes the opening
    bracket on its line, key and colon included, followed by two spaces:
    the record is rendered with that text in front of each of its lines
    and put in front of the closing bracket. *)
Theorem insert_into_blank_list (raw : text) (ship : pydict) (cluster : bool)
  (a b : nat) (new_side : text) :
  _extract_ship_list_region raw = Done (Some (a, b)) ->
  (forall k, a < k -> k < b - 1 ->
     exists c, nth_error raw k = Some c /\ isspace c = true) ->
  side_of casefold (apply_key_style default_key_style ship) = Ok new_side ->
  _surgical_insert_ship_block hjson_loads casefold (Some raw) ship cluster
  = Done (Ok tt,
          Some (firstn (b - 1) raw
                ++ ((slice raw (after_last LF raw a) a ++ str "  ")
                    ++ strip (_render_ship_block
                                (apply_key_style default_key_style ship)
                                (slice raw (after_last LF raw a) a ++ str "  "))
                    ++ (if contains raw [CR; LF] then [CR; LF] else [LF]))
                ++ skipn (b - 1) raw)).
Proof.
  intros Hr Hblank Hside.
  pose proof (extract_region_sound raw a b Hr) as (Hab & Ha & Hb).
  assert (Hne : a <> b - 1) by (intros E; rewrite E, Hb in Ha; discriminate).
  assert (Hspans : region_spans raw a b = []).
  { unfold region_spans, _iter_top_level_flow_maps.
    apply (run_inert raw a b); [|lia].
    intros k c Hlo Hk Hc.
    destruct (Nat.eq_dec k a) as [->|Hka].
    - rewrite Ha in Hc. injection Hc as <-. repeat split; reflexivity.
    - destruct (Nat.eq_dec k (b - 1)) as [->|Hk'].
      + rewrite Hb in Hc. injection Hc as <-. repeat split; reflexivity.
      + destruct (Hblank k) as (c' & Hc' & Hs); [lia|lia|].
        rewrite Hc in Hc'. injection Hc' as <-. now apply isspace_inert. }
  unfold _surgical_insert_ship_block.
  destruct raw as [|x raw']; [destruct a; discriminate|].
  set (raw := x :: raw') in *.
  rewrite Hr. cbn [scan_bind].
  unfold _ship_list_indentation. rewrite Hspans. cbn [probe_style].
  rewrite Hside.
  replace (if cluster && negb (text_eqb new_side [])
           then last_same_side hjson_loads casefold raw new_side [] None
           else Ok None) with (@Ok (option nat) None)
    by (destruct (cluster && negb (text_eqb new_side [])); reflexivity).
  rewrite (skip_back_stops raw a a (b - 1)); [|lia|lia|now left|exact Hblank].
  rewrite py_index_nat, Ha. cbn [Ascii.eqb negb app].
  reflexivity.
Qed.

Lemma back_over_space_range (raw : text) (lo : Z) :
  forall fuel i,
    (back_over_space raw lo fuel i <= i)%Z
    /\ forall k, (back_over_space raw lo fuel i < k)%Z -> (k <= i)%Z ->
         exists c, py_index raw k = Some c /\ isspace c = true.
Proof.
  induction fuel as [|f IH]; intros i; cbn [back_over_space].
  - split; [lia|]. intros k H1 H2. lia.
  - destruct (lo <? i)%Z; cbn [andb]; [|split; [lia|intros k H1 H2; lia]].
    destruct (py_index raw i) as [c|] eqn:Hc; [|split; [lia|intros k H1 H2; lia]].
    destruct (isspace c) eqn:Hs; [|split; [lia|intros k H1 H2; lia]].
    destruct (IH (i - 1)%Z) as [H1 H2]. split; [lia|].
    intros k Hk1 Hk2. destruct (Z.eq_dec k i) as [->|Hne]; [eauto|].
    apply H2; lia.
Qed.

Lemma leading_spaces_range (s : text) :
  forall k, k < leading_spaces s ->
    exists c, nth_error s k = Some c /\ isspace c = true.
Proof.
  induction s as [|c s IH]; simpl; intros k Hk; [lia|].
  destruct (isspace c) eqn:Hs; [|lia].
  destruct k as [|k]; simpl; [eauto|]. apply IH. lia.
Qed.

(** The forward case of the removal: the span, the white space behind it
    and at most one comma. *)
Lemma delete_forward_piece (raw : text) (start stop : nat) :
  exists lo hi,
    lo <= start /\ stop <= hi
    /\ Some (firstn start raw
             ++ skipn (match nth_error raw (stop + leading_spaces (skipn stop raw)) with
                       | Some c => if Ascii.eqb c ","
                                   then stop + leading_spaces (skipn stop raw) + 1
                                   else stop + leading_spaces (skipn stop raw)
                       | None => stop + leading_spaces (skipn stop raw)
                       end) raw)
       = Some (firstn lo raw ++ skipn hi raw)
    /\ forall k, (lo <= k /\ k < start) \/ (stop <= k /\ k < hi) ->
         exists c, nth_error raw k = Some c
                   /\ (isspace c = true \/ c = ","%char).
Proof.
  set (j := stop + leading_spaces (skipn stop raw)).
  assert (Hws : forall k, stop <= k -> k < j ->
                  exists c, nth_error raw k = Some c /\ isspace c = true).
  { intros k H1 H2.
    destruct (leading_spaces_range (skipn stop raw) (k - stop)) as (c & Hc & Hs);
      [unfold j in H2; lia|].
    rewrite nth_error_skipn in Hc.
    replace (stop + (k - stop)) with k in Hc by lia. eauto. }
  exists start. destruct (nth_error raw j) as [c|] eqn:Hc.
  - destruct (Ascii.eqb c ",") eqn:Ec.
    + apply Ascii.eqb_eq in Ec. subst c. exists (j + 1).
      split; [lia|]. split; [unfold j; lia|]. split; [reflexivity|].
      intros k [[H1 H2]|[H1 H2]]; [lia|].
      destruct (Nat.eq_dec k j) as [->|Hne]; [eauto|].
      destruct (Hws k) as (w & Hw & Hs); [lia|lia|eauto].
    + exists j. split; [lia|]. split; [unfold j; lia|]. split; [reflexivity|].
      intros k [[H1 H2]|[H1 H2]]; [lia|].
      destruct (Hws k) as (w & Hw & Hs); [lia|lia|eauto].
  - exists j. split; [lia|]. split; [unfold j; lia|]. split; [reflexivity|].
    intros k [[H1 H2]|[H1 H2]]; [lia|].
    destruct (Hws k) as (w & Hw & Hs); [lia|lia|eauto].
Qed.

(** A removal takes one piece out of the text and leaves the rest as it
    is.  The piece holds the span the locator gave first; what it holds
    besides is white space and at most one comma on one side of the
    span. *)
Theorem delete_removes_one_piece (raw key : text) (raw1 : option text) :
  _surgical_delete_ship_by_key (Some raw) key = Done (true, raw1) ->
  exists start stop rest lo hi,
    _iter_object_spans_for_key raw key = Done ((start, stop) :: rest)
    /\ lo <= start /\ stop <= hi
    /\ raw1 = Some (firstn lo raw ++ skipn hi raw)
    /\ forall k, (lo <= k /\ k < start) \/ (stop <= k /\ k < hi) ->
         exists c, nth_error raw k = Some c
                   /\ (isspace c = true \/ c = ","%char).
Proof.
  unfold _surgical_delete_ship_by_key.
  destruct (is_empty_raw (Some raw)); [discriminate|].
  destruct (_extract_ship_list_region raw) as [[[a b]|]|]; cbn [scan_bind];
    try discriminate.
  destruct (_iter_object_spans_for_key raw key) as [[|[start stop] rest]|];
    cbn [scan_bind]; try discriminate.
  intros [= <-]. exists start, stop, rest. unfold remove_span.
  set (i := skip_back raw (Z.of_nat a) (Z.of_nat start - 1)).
  destruct (back_over_space_range raw (Z.of_nat a)
              (Z.to_nat (Z.of_nat start - 1 - Z.of_nat a)) (Z.of_nat start - 1))
    as [Hi Hsp].
  fold (skip_back raw (Z.of_nat a) (Z.of_nat start - 1)) in Hi, Hsp. fold i in Hi, Hsp.
  destruct (Z.of_nat a <=? i)%Z eqn:Ea; cbn [andb].
  - apply Z.leb_le in Ea.
    destruct (py_index raw i) as [c|] eqn:Hc.
    + destruct (Ascii.eqb c ",") eqn:Ec.
      * apply Ascii.eqb_eq in Ec. subst c.
        exists (Z.to_nat i), stop. split; [reflexivity|].
        split; [lia|]. split; [lia|]. split; [reflexivity|].
        intros k [[H1 H2]|[H1 H2]]; [|lia].
        destruct (Nat.eq_dec k (Z.to_nat i)) as [->|Hne].
        -- exists ","%char. split; [|now right].
           rewrite <- (py_index_nat raw (Z.to_nat i)).
           now replace (Z.of_nat (Z.to_nat i)) with i by lia.
        -- destruct (Hsp (Z.of_nat k)) as (w & Hw & Hs); [lia|lia|].
           rewrite py_index_nat in Hw. exists w. split; [exact Hw|now left].
      * destruct (delete_forward_piece raw start stop) as (lo & hi & H1 & H2 & H3 & H4).
        exists lo, hi. auto 6.
    + destruct (delete_forward_piece raw start stop) as (lo & hi & H1 & H2 & H3 & H4).
      exists lo, hi. auto 6.
  - destruct (delete_forward_piece raw start stop) as (lo & hi & H1 & H2 & H3 & H4).
    exists lo, hi. auto 6.
Qed.

(** The fall-back of the update.  When the ship has no usable key, the
    update looks the record up with the value of its [name], and it does
    so with the locator of keys: a span it finds is the object bounds
    worked out from a match of the locator's key pattern (the text [Key]
    or [key], wherever it stands, a colon and a value) whose value is
    that name. *)
Theorem name_fallback_uses_key_pattern (raw : text)
  (key_val name_val : option pyval) (sp : nat * nat) :
  truthy_opt key_val = false ->
  locate_ship container_str raw key_val name_val = Done (Some sp) ->
  exists m, key_pat_at raw (m_start m) = Some m
            /\ mv m = str_opt container_str name_val
            /\ find_object_bounds raw (m_start m) = Done (Some sp).
Proof.
  intros Hk. unfold locate_ship. rewrite Hk. cbn [scan_bind].
  destruct (truthy_opt name_val); [|discriminate].
  unfold first_span.
  destruct (_iter_object_spans_for_key raw (str_opt container_str name_val))
    as [[|sp0 rest]|] eqn:Hs; cbn [scan_bind]; try discriminate.
  intros [= <-].
  apply (span_key_match raw _ (sp0 :: rest) sp0 Hs). now left.
Qed.

End Edge.

Lemma insert_into_blank_list_witness :
  _surgical_insert_ship_block loads_fleet lower (Some empty_fleet)
    (ship "d" "TSN") true
  = Done (Ok tt, Some empty_fleet_with_d).
Proof.
  rewrite (insert_into_blank_list loads_fleet lower empty_fleet
             (ship "d" "TSN") true 18 20 (str "tsn")).
  - vm_compute. reflexivity.
  - vm_compute. reflexivity.
  - intros k H1 H2. simpl in H2. lia.
  - vm_compute. reflexivity.
Defined.

Lemma delete_removes_one_piece_witness :
  exists start stop rest lo hi,
    _iter_object_spans_for_key fleet_doc (str "b")
    = Done ((start, stop) :: rest)
    /\ lo <= start /\ stop <= hi
    /\ Some fleet_without_b = Some (firstn lo fleet_doc ++ skipn hi fleet_doc)
    /\ forall k, (lo <= k /\ k < start) \/ (stop <= k /\ k < hi) ->
         exists c, nth_error fleet_doc k = Some c
                   /\ (isspace c = true \/ c = ","%char).
Proof.
  apply (delete_removes_one_piece fleet_doc (str "b") (Some fleet_without_b)).
  vm_compute. reflexivity.
Defined.

(** A ship without key whose name is [b]: the update takes the record
    whose key is [b]. *)
Lemma name_fallback_uses_key_pattern_witness :
  exists m, key_pat_at fleet_doc (m_start m) = Some m
            /\ mv m = str_opt no_container_str (Some (PStr (str "b")))
            /\ find_object_bounds fleet_doc (m_start m) = Done (Some (54, 82)).
Proof.
  apply (name_fallback_uses_key_pattern no_container_str fleet_doc None
           (Some (PStr (str "b"))) (54, 82)).
  - reflexivity.
  - vm_compute. reflexivity.
Defined.

(** In [named_fleet], whose one record has the name [Alpha] and no key,
    the look-up by that name finds nothing. *)
Example record_not_found_by_its_name :
  locate_ship no_container_str named_fleet None (Some (PStr (str "Alpha")))
  = Done None.
Proof. vm_compute. reflexivity. Qed.

End EdgeFacts.

(** ** The scalar patcher on a field that is there *)

Module PatchFacts.

Import Re Render Patcher Spec Shapes Examples ReFacts TokenFacts.

Ltac assoc :=
  repeat rewrite <- app_assoc; cbn [app];
  repeat rewrite <- app_assoc; cbn [app]; reflexivity.

Lemma ends_Lit_at (key : text) :
  forall pre post,
    ends (pre ++ key ++ post) (Lit key) (length pre) = [length pre + length key].
Proof.
  induction key as [|c key IH]; intros pre post.
  - simpl. now rewrite Nat.add_0_r.
  - cbn [Lit]. rewrite ends_Seq. unfold Ch. rewrite ends_Chr.
    cbn [app]. rewrite nth_error_middle, Ascii.eqb_refl. cbn [flat_map].
    rewrite app_nil_r.
    replace (pre ++ c :: key ++ post) with ((pre ++ [c]) ++ key ++ post)
      by (now rewrite <- app_assoc).
    replace (S (length pre)) with (length (pre ++ [c]))
      by (rewrite length_app; simpl; lia).
    rewrite IH, length_app. simpl. f_equal. lia.
Qed.

Lemma ends_Ch (t : text) (c : ascii) (p : nat) :
  ends t (Ch c) p = match nth_error t p with
                    | Some x => if Ascii.eqb c x then [S p] else []
                    | None => []
                    end.
Proof. reflexivity. Qed.

Lemma ends_Star (t : text) (a : regex) (p : nat) :
  ends t (Star a) p = greedy (ends t a) (length t - p) p.
Proof. reflexivity. Qed.

Lemma prefix_nth (key s : text) :
  prefix_of key s = true ->
  forall j c, nth_error key j = Some c -> nth_error s j = Some c.
Proof.
  revert s. induction key as [|x key IH]; intros s H j c Hj.
  - destruct j; discriminate.
  - destruct s as [|y s]; [discriminate|]. simpl in H.
    apply andb_true_iff in H as [Hx Hk]. apply Ascii.eqb_eq in Hx. subst y.
    destruct j as [|j]; simpl in *; [exact Hj|now apply IH].
Qed.

Lemma app_prefix (a b c d : text) :
  a ++ b = c ++ d -> length a <= length c -> exists e, c = a ++ e.
Proof.
  revert c. induction a as [|x a IH]; intros c H Hl; [now exists c|].
  destruct c as [|y c]; [simpl in Hl; lia|].
  simpl in H. injection H as -> H. simpl in Hl.
  destruct (IH c H) as [e ->]; [lia|]. now exists e.
Qed.

Section Field.

Variables pre key w tok rest : text.

Hypothesis key_without_quote :
  forallb (fun c => negb (Ascii.eqb c DQ)) key = true.
Hypothesis key_is_new : ~ occurs key pre.
Hypothesis w_is_space : forallb isspace w = true.

Let block : text := field pre key w tok rest.

Lemma block_at_quote : nth_error block (length pre) = Some DQ.
Proof. unfold block, field. cbn [app]. apply nth_error_middle. Qed.

(** The key does not stand at an offset up to the quote in front of it. *)
Lemma key_not_before (p : nat) :
  p <= length pre -> ends block (Lit key) p = [].
Proof.
  intros Hp.
  destruct (ends block (Lit key) p) as [|q l] eqn:E; [reflexivity|exfalso].
  assert (Hin : In q (ends block (Lit key) p)) by (rewrite E; now left).
  apply ends_Lit_prefix in Hin.
  destruct (Nat.le_gt_cases (p + length key) (length pre)) as [Hfit|Hover].
  - apply key_is_new.
    apply prefix_of_app in Hin as [tail Ht].
    assert (Hs : skipn p block = skipn p pre ++ (DQ :: key ++ [DQ; ":"%char]) ++ w ++ tok ++ rest).
    { unfold block, field. rewrite skipn_app.
      replace (p - length pre) with 0 by lia. reflexivity. }
    rewrite Hs in Ht. symmetry in Ht.
    apply app_prefix in Ht as [e He]; [|rewrite length_skipn; lia].
    exists (firstn p pre), e. rewrite <- He. symmetry. apply firstn_skipn.
  - assert (Hj : length pre - p < length key) by lia.
    destruct (nth_error key (length pre - p)) as [c|] eqn:Hc;
      [|apply nth_error_None in Hc; lia].
    pose proof (prefix_nth key (skipn p block) Hin _ _ Hc) as Hb.
    rewrite nth_error_skipn in Hb.
    replace (p + (length pre - p)) with (length pre) in Hb by lia.
    rewrite block_at_quote in Hb. injection Hb as <-.
    apply nth_error_In in Hc.
    rewrite forallb_forall in key_without_quote.
    apply key_without_quote in Hc. discriminate.
Qed.

Lemma head_not_before (p : nat) :
  p < length pre -> ends block (key_head [key]) p = [].
Proof.
  intros Hp. unfold key_head, key_alt. cbn [map Alts].
  rewrite ends_Seq, ends_Alt, ends_Seq.
  rewrite (key_not_before p) by lia. rewrite app_nil_r.
  rewrite (ends_Ch block DQ p).
  destruct (nth_error block p) as [c|]; [|reflexivity].
  destruct (Ascii.eqb DQ c); [|reflexivity].
  cbn [flat_map]. rewrite ends_Seq, (key_not_before (S p)) by lia. reflexivity.
Qed.

Variables (c0 : ascii) (tok' : text).
Hypothesis tok_head : tok = c0 :: tok'.
Hypothesis head_not_space : isspace c0 = false.
Hypothesis head_not_slash : Ascii.eqb "/" c0 = false.
Hypothesis head_not_hash : Ascii.eqb "#" c0 = false.

Let q : nat := length (pre ++ (DQ :: key ++ [DQ; ":"%char]) ++ w).

Lemma block_at_value : nth_error block q = Some c0.
Proof.
  unfold block, field, q. rewrite tok_head.
  replace (pre ++ (DQ :: key ++ [DQ; ":"%char]) ++ w ++ (c0 :: tok') ++ rest)
    with ((pre ++ (DQ :: key ++ [DQ; ":"%char]) ++ w) ++ c0 :: tok' ++ rest)
    by assoc.
  apply nth_error_middle.
Qed.

Lemma comment_stuck : ends block comment q = [q].
Proof.
  unfold comment. rewrite ends_Star. apply greedy_stuck.
  rewrite ends_Seq.
  assert (Hws : ends block (Star ws) q = [q]).
  { rewrite ends_Star. apply greedy_stuck. unfold ws.
    rewrite ends_Chr, block_at_value. now rewrite head_not_space. }
  rewrite Hws. cbn [flat_map]. rewrite app_nil_r, !ends_Alt, !ends_Seq.
  cbn [Lit str list_ascii_of_string]. rewrite !ends_Seq.
  rewrite !ends_Ch, block_at_value.
  rewrite head_not_slash, head_not_hash. reflexivity.
Qed.

Lemma head_at_key :
  exists l, ends block (key_head [key]) (length pre) = q :: l.
Proof.
  unfold key_head, key_alt. cbn [map Alts].
  rewrite ends_Seq, ends_Alt, ends_Seq.
  rewrite (key_not_before (length pre)) by lia. rewrite app_nil_r.
  rewrite (ends_Ch block DQ (length pre)), block_at_quote, Ascii.eqb_refl.
  cbn [flat_map]. rewrite app_nil_r, ends_Seq.
  assert (Hk : ends block (Lit key) (S (length pre)) = [S (length pre) + length key]).
  { unfold block, field. cbn [app].
    replace (pre ++ DQ :: (key ++ [DQ; ":"%char]) ++ w ++ tok ++ rest)
      with ((pre ++ [DQ]) ++ key ++ ([DQ; ":"%char] ++ w ++ tok ++ rest))
      by assoc.
    replace (S (length pre)) with (length (pre ++ [DQ]))
      by (rewrite length_app; simpl; lia).
    apply ends_Lit_at. }
  rewrite Hk. cbn [flat_map]. rewrite app_nil_r.
  set (x := S (length pre) + length key).
  assert (Hx : nth_error block x = Some DQ).
  { unfold block, field, x. cbn [app].
    replace (pre ++ DQ :: (key ++ [DQ; ":"%char]) ++ w ++ tok ++ rest)
      with ((pre ++ DQ :: key) ++ DQ :: (":"%char :: w ++ tok ++ rest))
      by assoc.
    replace (S (length pre) + length key) with (length (pre ++ DQ :: key))
      by (rewrite length_app; simpl; lia).
    apply nth_error_middle. }
  assert (Hx1 : nth_error block (S x) = Some ":"%char).
  { unfold block, field, x. cbn [app].
    replace (pre ++ DQ :: (key ++ [DQ; ":"%char]) ++ w ++ tok ++ rest)
      with ((pre ++ DQ :: key ++ [DQ]) ++ ":"%char :: (w ++ tok ++ rest))
      by assoc.
    replace (S (S (length pre) + length key))
      with (length (pre ++ DQ :: key ++ [DQ]))
      by (rewrite !length_app; simpl; rewrite length_app; simpl; lia).
    apply nth_error_middle. }
  rewrite (ends_Ch block DQ x), Hx, Ascii.eqb_refl. cbn [flat_map].
  rewrite app_nil_r, ends_Seq.
  assert (Hs1 : ends block (Star ws) (S x) = [S x]).
  { rewrite ends_Star. apply greedy_stuck. unfold ws.
    rewrite ends_Chr, Hx1. reflexivity. }
  rewrite Hs1. cbn [flat_map]. rewrite app_nil_r, ends_Seq.
  rewrite (ends_Ch block ":" (S x)), Hx1, Ascii.eqb_refl. cbn [flat_map].
  rewrite app_nil_r, ends_Seq.
  destruct (greedy_run block isspace w (pre ++ DQ :: key ++ [DQ; ":"%char])
              (tok ++ rest) (length block - S (S x))) as [l Hl].
  - unfold block, field. assoc.
  - exact w_is_space.
  - rewrite tok_head. cbn [app]. now rewrite head_not_space.
  - unfold block, field, x. rewrite !length_app. simpl. rewrite !length_app.
    simpl. lia.
  - assert (Hp : length (pre ++ DQ :: key ++ [DQ; ":"%char]) = S (S x)).
    { unfold x. rewrite !length_app. simpl. rewrite length_app. simpl. lia. }
    rewrite Hp in Hl.
    change (ends block (Star ws) (S (S x)))
      with (greedy (ends block (Chr isspace)) (length block - S (S x)) (S (S x))).
    rewrite Hl. cbn [flat_map].
    replace (S (S x) + length w) with q
      by (unfold q; rewrite !length_app; simpl; rewrite !length_app; simpl;
          unfold x; lia).
    rewrite comment_stuck. cbn [app]. eauto.
Qed.

End Field.

Lemma first_from_first (A : Type) (f : nat -> option A) (a : A) (p : nat) :
  (forall k, k < p -> f k = None) -> f p = Some a ->
  forall count s, s <= p -> p < s + count -> first_from f s count = Some a.
Proof.
  intros Hn Hp. induction count as [|c IH]; intros s H1 H2; [lia|].
  cbn [first_from]. destruct (Nat.eq_dec s p) as [->|Hne].
  - now rewrite Hp.
  - rewrite Hn by lia. apply IH; lia.
Qed.

Lemma firstn_slice (t : text) (p q : nat) :
  p <= q -> firstn p t ++ slice t p q = firstn q t.
Proof.
  unfold slice. revert t q. induction p as [|p IH]; intros t q Hpq.
  - simpl. now rewrite Nat.sub_0_r.
  - destruct q as [|q]; [lia|]. destruct t as [|x t]; simpl.
    + now rewrite firstn_nil.
    + f_equal. apply IH. lia.
Qed.

(** The scalar patcher on a field that is there: the value token is
    replaced, the rest of the text stays. *)
Lemma patch_field_value (pre key w rest : text) (v : pyval)
  (tok value_str : text) :
  forallb (fun c => negb (Ascii.eqb c DQ)) key = true ->
  ~ occurs key pre ->
  forallb isspace w = true ->
  _repr_hjson_scalar v = Ok tok ->
  well_formed_scalar v = true ->
  renders_quoted v || closes_token rest = true ->
  _patch_scalar_in_block (field pre key w tok rest) [key] value_str
  = (field pre key w value_str rest, 1).
Proof.
  intros Hkq Hnew Hw Hr Hwf Hq.
  destruct (rendered_token_head v tok Hr Hwf) as (c0 & tok' & Htok & H1 & H2 & H3).
  destruct (head_at_key pre key w tok rest Hkq Hnew Hw c0 tok' Htok H1 H2 H3)
    as [l Hl].
  set (block := field pre key w tok rest) in *.
  set (q := length (pre ++ (DQ :: key ++ [DQ; ":"%char]) ++ w)) in *.
  destruct (rendered_token_at (pre ++ (DQ :: key ++ [DQ; ":"%char]) ++ w)
              v tok rest Hr Hwf Hq) as [l' Hv].
  replace ((pre ++ (DQ :: key ++ [DQ; ":"%char]) ++ w) ++ tok ++ rest)
    with block in Hv by (unfold block, field; assoc).
  fold q in Hv.
  assert (Hm : match2_at block (key_head [key]) value_tok (length pre)
               = Some (length pre, q, q + length tok)).
  { unfold match2_at. rewrite Hl. cbn [first_of]. now rewrite Hv. }
  assert (Hs : search2 block (key_head [key]) value_tok 0
               = Some (length pre, q, q + length tok)).
  { unfold search2.
    apply (first_from_first _ _ _ (length pre)); [|exact Hm|lia|].
    - intros k Hk. unfold match2_at, block.
      now rewrite (head_not_before pre key w tok rest Hkq Hnew k Hk).
    - unfold block, field. rewrite !length_app. lia. }
  unfold _patch_scalar_in_block. rewrite Hs. f_equal.
  rewrite app_assoc, firstn_slice
    by (unfold q; rewrite !length_app; lia).
  assert (Hf : firstn q block = pre ++ (DQ :: key ++ [DQ; ":"%char]) ++ w).
  { unfold block, field, q.
    replace (pre ++ (DQ :: key ++ [DQ; ":"%char]) ++ w ++ tok ++ rest)
      with ((pre ++ (DQ :: key ++ [DQ; ":"%char]) ++ w) ++ tok ++ rest) by assoc.
    rewrite firstn_app, Nat.sub_diag, firstn_all. cbn [firstn].
    now rewrite app_nil_r. }
  assert (Hk : skipn (q + length tok) block = rest).
  { unfold block, field, q.
    replace (pre ++ (DQ :: key ++ [DQ; ":"%char]) ++ w ++ tok ++ rest)
      with (((pre ++ (DQ :: key ++ [DQ; ":"%char]) ++ w) ++ tok) ++ rest) by assoc.
    rewrite <- length_app, skipn_app, Nat.sub_diag, skipn_all. reflexivity. }
  rewrite Hf, Hk. unfold field. assoc.
Qed.

(** Patching a field that is there.  In an object text where the
    double-quoted key, occurring nowhere before, is followed by a colon,
    white space and a rendered scalar, the scalar patcher puts the new
    value in the place of that scalar and changes nothing else. *)
Theorem patch_replaces_field_value (pre key w rest : text) (v : pyval)
  (tok value_str : text) :
  forallb (fun c => negb (Ascii.eqb c DQ)) key = true ->
  ~ occurs key pre ->
  forallb isspace w = true ->
  _repr_hjson_scalar v = Ok tok ->
  well_formed_scalar v = true ->
  renders_quoted v || closes_token rest = true ->
  _patch_scalar_in_block (field pre key w tok rest) [key] value_str
  = (field pre key w value_str rest, 1).
Proof. apply patch_field_value. Qed.

Lemma patch_replaces_field_value_witness :
  _patch_scalar_in_block (doc "{~id~:~b~,~n~: 2}") [str "n"] (str "5")
  = (doc "{~id~:~b~,~n~: 5}", 1).
Proof.
  apply (patch_replaces_field_value (doc "{~id~:~b~,") (str "n") (str " ")
           (str "}") (PInt 2) (str "2") (str "5")); try reflexivity.
  intros (a & b & H). revert H.
  apply contains_false_no_occurrence. vm_compute. reflexivity.
Defined.

(** The last write wins.  Patching such a field with one rendered scalar
    and then with a second value gives what patching it with the second
    value alone gives. *)
Theorem patch_twice_is_patch_last (pre key w rest : text) (v v1 : pyval)
  (tok tok1 value_str : text) :
  forallb (fun c => negb (Ascii.eqb c DQ)) key = true ->
  ~ occurs key pre ->
  forallb isspace w = true ->
  _repr_hjson_scalar v = Ok tok ->
  well_formed_scalar v = true ->
  renders_quoted v || closes_token rest = true ->
  _repr_hjson_scalar v1 = Ok tok1 ->
  well_formed_scalar v1 = true ->
  renders_quoted v1 || closes_token rest = true ->
  _patch_scalar_in_block
    (fst (_patch_scalar_in_block (field pre key w tok rest) [key] tok1))
    [key] value_str
  = _patch_scalar_in_block (field pre key w tok rest) [key] value_str.
Proof.
  intros Hkq Hnew Hw Hr Hwf Hq Hr1 Hwf1 Hq1.
  rewrite (patch_field_value pre key w rest v tok tok1) by assumption.
  cbn [fst].
  rewrite (patch_field_value pre key w rest v1 tok1 value_str) by assumption.
  now rewrite (patch_field_value pre key w rest v tok value_str) by assumption.
Qed.

Lemma patch_twice_is_patch_last_witness :
  _patch_scalar_in_block
    (fst (_patch_scalar_in_block (doc "{~id~:~b~,~n~: 2}") [str "n"] (doc "~two~")))
    [str "n"] (str "5")
  = _patch_scalar_in_block (doc "{~id~:~b~,~n~: 2}") [str "n"] (str "5").
Proof.
  apply (patch_twice_is_patch_last (doc "{~id~:~b~,") (str "n") (str " ")
           (str "}") (PInt 2) (PStr (str "two")) (str "2") (doc "~two~")
           (str "5")); try reflexivity.
  intros (a & b & H). revert H.
  apply contains_false_no_occurrence. vm_compute. reflexivity.
Defined.

Lemma slice_head (t : text) (k : nat) (c x : ascii) (s : text) :
  nth_error t k = Some c -> Ascii.eqb c x = false ->
  text_eqb (slice t k (k + 2)) (x :: s) = false.
Proof.
  intros Hk Hc. unfold slice.
  rewrite (ScannerFacts.skipn_cons_nth t k c Hk).
  replace (k + 2 - k) with 2 by lia. simpl. now rewrite Hc.
Qed.

Lemma slice_no_line (t : text) (k : nat) (c : ascii) :
  nth_error t k = Some c -> Ascii.eqb c "/" = false ->
  text_eqb (slice t k (k + 2)) (str "//") = false.
Proof. intros Hk Hc. exact (slice_head t k c "/"%char ["/"%char] Hk Hc). Qed.

Lemma slice_no_block (t : text) (k : nat) (c : ascii) :
  nth_error t k = Some c -> Ascii.eqb c "/" = false ->
  text_eqb (slice t k (k + 2)) (str "/*") = false.
Proof. intros Hk Hc. exact (slice_head t k c "/"%char ["*"%char] Hk Hc). Qed.

Lemma quiet_item_tests (c : ascii) :
  quiet_item c = true ->
  Ascii.eqb c DQ = false /\ Ascii.eqb c SQ = false
  /\ Ascii.eqb c "[" = false /\ Ascii.eqb c "]" = false
  /\ Ascii.eqb c "#" = false /\ Ascii.eqb c "/" = false.
Proof.
  unfold quiet_item. cbn [existsb]. intros H. apply negb_true_iff in H.
  repeat (apply orb_false_iff in H; destruct H as [? H]). auto 7.
Qed.

(** Inside the brackets, over characters that open nothing, the balancing
    loop runs to the closing bracket. *)
Lemma balance_quiet (rest : text) :
  forall body pre fuel,
    forallb quiet_item body = true ->
    length body < fuel ->
    Scanner.balance Scanner.list_lexer (pre ++ body ++ "]"%char :: rest) fuel
      (length pre) (Scanner.BState 1 false false false)
    = Done (Some (length pre + length body + 1)).
Proof.
  induction body as [|c body IH]; intros pre fuel Hall Hf;
    (destruct fuel as [|fuel]; [simpl in Hf; lia|]); cbn [Scanner.balance].
  - cbn [app]. rewrite nth_error_middle.
    rewrite (slice_no_line _ _ "]"%char) by (apply nth_error_middle || reflexivity).
    rewrite (slice_no_block _ _ "]"%char) by (apply nth_error_middle || reflexivity).
    cbn. f_equal. f_equal. lia.
  - simpl in Hall. apply andb_true_iff in Hall as [Hc Hall].
    destruct (quiet_item_tests c Hc) as (H1 & H2 & H3 & H4 & H5 & H6).
    cbn [app]. rewrite nth_error_middle.
    rewrite (slice_no_line _ _ c) by (apply nth_error_middle || exact H6).
    rewrite (slice_no_block _ _ c) by (apply nth_error_middle || exact H6).
    cbn [Scanner.in_dq Scanner.in_sq Scanner.esc Scanner.depth orb negb andb
         Scanner.list_lexer Scanner.opener Scanner.closer].
    rewrite H5, H1, H2, H3, H4.
    replace (pre ++ c :: body ++ "]"%char :: rest)
      with ((pre ++ [c]) ++ body ++ "]"%char :: rest) by assoc.
    replace (length pre + 1) with (length (pre ++ [c]))
      by (rewrite length_app; simpl; lia).
    rewrite IH; [|exact Hall|simpl in Hf; lia].
    rewrite length_app. simpl. f_equal. f_equal. lia.
Qed.

(** Patching a list that is there.  In an object text where the
    double-quoted key, occurring nowhere before, is followed by a colon,
    white space and a bracketed list whose body opens no string, bracket
    or comment, the list patcher puts the new list text in the place of
    the bracketed list and changes nothing else. *)
Theorem patch_replaces_field_list (pre key w body rest new_list_str : text) :
  forallb (fun c => negb (Ascii.eqb c DQ)) key = true ->
  ~ occurs key pre ->
  forallb isspace w = true ->
  forallb quiet_item body = true ->
  _patch_list_in_block (field pre key w ("["%char :: body ++ ["]"%char]) rest)
    [key] (Some new_list_str) None
  = Done (field pre key w new_list_str rest, 1).
Proof.
  intros Hkq Hnew Hw Hb.
  set (tok := "["%char :: body ++ ["]"%char]).
  destruct (head_at_key pre key w tok rest Hkq Hnew Hw "["%char (body ++ ["]"%char])
              eq_refl eq_refl eq_refl eq_refl) as [l Hl].
  set (block := field pre key w tok rest) in *.
  set (q := length (pre ++ (DQ :: key ++ [DQ; ":"%char]) ++ w)) in *.
  assert (Hblock : block = (pre ++ (DQ :: key ++ [DQ; ":"%char]) ++ w)
                           ++ "["%char :: body ++ "]"%char :: rest).
  { unfold block, field, tok. assoc. }
  assert (Hs : search block (key_head [key]) 0 = Some (length pre, q)).
  { unfold search.
    apply (first_from_first _ _ _ (length pre)); [|now rewrite Hl|lia|].
    - intros k Hk. unfold block.
      now rewrite (head_not_before pre key w tok rest Hkq Hnew k Hk).
    - unfold block, field. rewrite !length_app. lia. }
  assert (Hq : nth_error block q = Some "["%char)
    by (rewrite Hblock; apply nth_error_middle).
  unfold _patch_list_in_block. rewrite Hs.
  assert (Hseek : seek_bracket block (S (length block)) q = Done (Some q)).
  { cbn [seek_bracket]. rewrite Hq.
    rewrite (slice_no_line _ _ "["%char) by (exact Hq || reflexivity).
    rewrite (slice_no_block _ _ "["%char) by (exact Hq || reflexivity).
    reflexivity. }
  rewrite Hseek. cbn [scan_bind]. rewrite Hq. cbn [Ascii.eqb Bool.eqb].
  assert (Hbal : Scanner.balance Scanner.list_lexer block (S (length block)) q
                   Scanner.bstate0
                 = Done (Some (q + length body + 2))).
  { cbn [Scanner.balance]. rewrite Hq.
    rewrite (slice_no_line _ _ "["%char) by (exact Hq || reflexivity).
    rewrite (slice_no_block _ _ "["%char) by (exact Hq || reflexivity).
    unfold Scanner.bstate0.
    change (Ascii.eqb "["%char "#"%char) with false.
    change (Ascii.eqb "["%char DQ) with false.
    change (Ascii.eqb "["%char SQ) with false.
    change (Ascii.eqb "["%char (Scanner.opener Scanner.list_lexer)) with true.
    cbn [Scanner.in_dq Scanner.in_sq Scanner.esc Scanner.depth orb negb andb].
    change (0 + 1)%Z with 1%Z.
    rewrite Hblock.
    replace ((pre ++ (DQ :: key ++ [DQ; ":"%char]) ++ w)
             ++ "["%char :: body ++ "]"%char :: rest)
      with (((pre ++ (DQ :: key ++ [DQ; ":"%char]) ++ w) ++ ["["%char])
            ++ body ++ "]"%char :: rest) by assoc.
    replace (q + 1)
      with (length ((pre ++ (DQ :: key ++ [DQ; ":"%char]) ++ w) ++ ["["%char]))
      by (unfold q; rewrite !length_app; simpl; lia).
    rewrite balance_quiet; [|exact Hb|rewrite !length_app; simpl; lia].
    f_equal. f_equal. unfold q.
    repeat (rewrite ?length_app; cbn [length]). lia. }
  rewrite Hbal. cbn [scan_bind]. f_equal. f_equal.
  assert (Hf : firstn q block = pre ++ (DQ :: key ++ [DQ; ":"%char]) ++ w).
  { rewrite Hblock. unfold q.
    rewrite firstn_app, Nat.sub_diag, firstn_all. cbn [firstn].
    now rewrite app_nil_r. }
  assert (Hk : skipn (q + length body + 2) block = rest).
  { rewrite Hblock.
    replace ((pre ++ (DQ :: key ++ [DQ; ":"%char]) ++ w)
             ++ "["%char :: body ++ "]"%char :: rest)
      with (((pre ++ (DQ :: key ++ [DQ; ":"%char]) ++ w)
             ++ "["%char :: body ++ ["]"%char]) ++ rest) by assoc.
    replace (q + length body + 2)
      with (length ((pre ++ (DQ :: key ++ [DQ; ":"%char]) ++ w)
                    ++ "["%char :: body ++ ["]"%char]))
      by (unfold q; repeat (rewrite ?length_app; cbn [length]); lia).
    rewrite skipn_app, Nat.sub_diag, skipn_all. reflexivity. }
  rewrite Hf, Hk. unfold field. assoc.
Qed.

Lemma patch_replaces_field_list_witness :
  _patch_list_in_block (doc "{~Key~:~a~,~shields~: [80, 60],~n~:1}")
    [str "shields"] (Some (str "[90]")) None
  = Done (doc "{~Key~:~a~,~shields~: [90],~n~:1}", 1).
Proof.
  apply (patch_replaces_field_list (doc "{~Key~:~a~,") (str "shields") (str " ")
           (str "80, 60") (doc ",~n~:1}") (str "[90]")); try reflexivity.
  intros (a & b & H). revert H.
  apply contains_false_no_occurrence. vm_compute. reflexivity.
Defined.

End PatchFacts.

(** ** Writing a field back with its own value *)

Module RoundTripFacts.

Import Re Render Patcher Spec Shapes Examples ReFacts TokenFacts PatchFacts.

(** At a character that is no white space and opens no comment, the
    comment pattern matches the empty text only. *)
Lemma comment_stuck_at (t : text) (q : nat) (c0 : ascii) :
  nth_error t q = Some c0 ->
  isspace c0 = false -> Ascii.eqb "/" c0 = false -> Ascii.eqb "#" c0 = false ->
  ends t comment q = [q].
Proof.
  intros Hq H1 H2 H3.
  unfold comment. rewrite ends_Star. apply greedy_stuck.
  rewrite ends_Seq.
  assert (Hws : ends t (Star ws) q = [q]).
  { rewrite ends_Star. apply greedy_stuck. unfold ws.
    rewrite ends_Chr, Hq. now rewrite H1. }
  rewrite Hws. cbn [flat_map]. rewrite app_nil_r, !ends_Alt, !ends_Seq.
  cbn [Lit str list_ascii_of_string]. rewrite !ends_Seq.
  rewrite !ends_Ch, Hq.
  rewrite H2, H3. reflexivity.
Qed.

(** Over a run of white space that ends at another character, the greedy
    loop first stops behind the run. *)
Lemma star_ws_run (t lead run more : text) (c : ascii) :
  t = lead ++ run ++ c :: more ->
  forallb isspace run = true -> isspace c = false ->
  exists l, ends t (Star ws) (length lead) = (length lead + length run) :: l.
Proof.
  intros Ht Hrun Hc. rewrite ends_Star. unfold ws.
  apply (greedy_run t isspace run lead (c :: more)).
  - exact Ht.
  - exact Hrun.
  - now rewrite Hc.
  - subst t. rewrite !length_app. lia.
Qed.

(** What follows the key in group 1: white space, the colon, white space,
    no comment. *)
Lemma head_rest_at (t lead w0 w more : text) (c0 : ascii) :
  t = lead ++ w0 ++ ":"%char :: w ++ c0 :: more ->
  forallb isspace w0 = true -> forallb isspace w = true ->
  isspace c0 = false -> Ascii.eqb "/" c0 = false -> Ascii.eqb "#" c0 = false ->
  exists l,
    ends t (Seq (Star ws) (Seq (Ch ":") (Seq (Star ws) comment))) (length lead)
    = (length lead + length w0 + 1 + length w) :: l.
Proof.
  intros Ht H0 H1 Hs Hsl Hh.
  destruct (star_ws_run t lead w0 (w ++ c0 :: more) ":"%char Ht H0 eq_refl)
    as [l1 E1].
  assert (Ht2 : t = (lead ++ w0 ++ [":"%char]) ++ w ++ c0 :: more)
    by (rewrite Ht; assoc).
  destruct (star_ws_run t (lead ++ w0 ++ [":"%char]) w more c0 Ht2 H1 Hs)
    as [l2 E2].
  assert (Hc : nth_error t (length lead + length w0) = Some ":"%char).
  { rewrite Ht, app_assoc, <- length_app. apply nth_error_middle. }
  assert (Hl : length (lead ++ w0 ++ [":"%char]) = S (length lead + length w0)).
  { rewrite !length_app. cbn [length]. lia. }
  assert (Hq : nth_error t (length lead + length w0 + 1 + length w) = Some c0).
  { rewrite Ht2, app_assoc.
    replace (length lead + length w0 + 1 + length w)
      with (length ((lead ++ w0 ++ [":"%char]) ++ w))
      by (rewrite length_app, Hl; lia).
    apply nth_error_middle. }
  rewrite Hl in E2.
  rewrite ends_Seq, E1. cbn [flat_map].
  rewrite ends_Seq, (ends_Ch t ":" (length lead + length w0)), Hc,
    Ascii.eqb_refl.
  cbn [flat_map]. rewrite app_nil_r, ends_Seq, E2. cbn [flat_map].
  replace (S (length lead + length w0) + length w)
    with (length lead + length w0 + 1 + length w) by lia.
  rewrite (comment_stuck_at t _ c0 Hq Hs Hsl Hh). cbn [app].
  eexists. reflexivity.
Qed.

(** The key between double quotes, where the bare key does not stand. *)
Lemma key_alt_quoted (t pre key more : text) :
  t = pre ++ DQ :: key ++ DQ :: more ->
  ends t (Lit key) (length pre) = [] ->
  ends t (Alt (Seq (Ch DQ) (Seq (Lit key) (Ch DQ))) (Lit key)) (length pre)
  = [length pre + length key + 2].
Proof.
  intros Ht Hb. rewrite ends_Alt, Hb, app_nil_r, ends_Seq.
  assert (H0 : nth_error t (length pre) = Some DQ)
    by (rewrite Ht; apply nth_error_middle).
  rewrite (ends_Ch t DQ (length pre)), H0, Ascii.eqb_refl. cbn [flat_map].
  rewrite app_nil_r, ends_Seq.
  assert (Hk : ends t (Lit key) (S (length pre)) = [S (length pre) + length key]).
  { rewrite Ht.
    replace (pre ++ DQ :: key ++ DQ :: more)
      with ((pre ++ [DQ]) ++ key ++ DQ :: more) by assoc.
    replace (S (length pre)) with (length (pre ++ [DQ]))
      by (rewrite length_app; cbn [length]; lia).
    apply ends_Lit_at. }
  rewrite Hk. cbn [flat_map]. rewrite app_nil_r.
  assert (H1 : nth_error t (S (length pre) + length key) = Some DQ).
  { rewrite Ht.
    replace (pre ++ DQ :: key ++ DQ :: more)
      with ((pre ++ DQ :: key) ++ DQ :: more) by assoc.
    replace (S (length pre) + length key) with (length (pre ++ DQ :: key))
      by (rewrite length_app; cbn [length]; lia).
    apply nth_error_middle. }
  rewrite (ends_Ch t DQ (S (length pre) + length key)), H1, Ascii.eqb_refl.
  f_equal. lia.
Qed.

(** The bare key, where no double quote stands. *)
Lemma key_alt_bare (t pre key more : text) (c : ascii) :
  t = pre ++ key ++ more ->
  nth_error t (length pre) = Some c -> Ascii.eqb DQ c = false ->
  ends t (Alt (Seq (Ch DQ) (Seq (Lit key) (Ch DQ))) (Lit key)) (length pre)
  = [length pre + length key].
Proof.
  intros Ht Hc Hn.
  rewrite ends_Alt, ends_Seq, (ends_Ch t DQ (length pre)), Hc, Hn.
  cbn [flat_map app]. rewrite Ht. apply ends_Lit_at.
Qed.

(** Neither form of the key at an offset where the key does not stand
    and behind which it does not stand between double quotes. *)
Lemma key_alt_none (t key : text) (k : nat) :
  ends t (Lit key) k = [] ->
  (ends t (Lit key) (S k) = []
   \/ exists e c, ends t (Lit key) (S k) = [e]
                  /\ nth_error t e = Some c /\ Ascii.eqb DQ c = false) ->
  ends t (Alt (Seq (Ch DQ) (Seq (Lit key) (Ch DQ))) (Lit key)) k = [].
Proof.
  intros Hb Hq. rewrite ends_Alt, Hb, app_nil_r, ends_Seq, (ends_Ch t DQ k).
  destruct (nth_error t k) as [x|]; [|reflexivity].
  destruct (Ascii.eqb DQ x); [|reflexivity].
  cbn [flat_map]. rewrite app_nil_r, ends_Seq.
  destruct Hq as [Hq | (e & c & Hq & Hc & Hn)]; rewrite Hq; [reflexivity|].
  cbn [flat_map]. rewrite app_nil_r, (ends_Ch t DQ e), Hc, Hn. reflexivity.
Qed.

Lemma absent_before_spec (key t : text) (n p : nat) :
  absent_before key t n = true -> p < n -> ends t (Lit key) p = [].
Proof.
  intros Ha Hp.
  destruct (ends t (Lit key) p) as [|e l] eqn:E; [reflexivity|exfalso].
  assert (Hin : In e (ends t (Lit key) p)) by (rewrite E; now left).
  apply ends_Lit_prefix in Hin.
  unfold absent_before in Ha. rewrite forallb_forall in Ha.
  assert (Hs : In p (seq 0 n)) by (apply in_seq; lia).
  apply Ha in Hs. rewrite Hin in Hs. discriminate.
Qed.

Lemma space_run_head (w0 more : text) (x : ascii) :
  forallb isspace w0 = true -> Ascii.eqb DQ x = false ->
  exists c t', w0 ++ x :: more = c :: t' /\ Ascii.eqb DQ c = false.
Proof.
  intros Hw Hx. destruct w0 as [|c w0]; cbn [app].
  - exists x, more. split; [reflexivity|exact Hx].
  - exists c, (w0 ++ x :: more). split; [reflexivity|].
    cbn [forallb] in Hw. apply andb_true_iff in Hw as [Hc _].
    destruct (Ascii.eqb DQ c) eqn:E; [|reflexivity].
    apply Ascii.eqb_eq in E. subst c. vm_compute in Hc. discriminate.
Qed.

Lemma key_run_head (key more : text) (c : ascii) (t' : text) :
  forallb (fun x => negb (Ascii.eqb x DQ)) key = true ->
  more = c :: t' -> Ascii.eqb DQ c = false ->
  exists c1 t1, key ++ more = c1 :: t1 /\ Ascii.eqb DQ c1 = false.
Proof.
  intros Hk Hm Hc. destruct key as [|x key]; cbn [app].
  - exists c, t'. split; [exact Hm|exact Hc].
  - exists x, (key ++ more). split; [reflexivity|].
    cbn [forallb] in Hk. apply andb_true_iff in Hk as [Hx _].
    apply negb_true_iff in Hx. now rewrite Ascii.eqb_sym.
Qed.

(** The patcher on a text whose first match of group 1 is known. *)
Lemma patch_located (block head_txt tok rest value_str key : text)
  (p : nat) (l : list nat) :
  block = head_txt ++ tok ++ rest ->
  p <= length head_txt ->
  (forall k, k < p -> ends block (key_head [key]) k = []) ->
  ends block (key_head [key]) p = length head_txt :: l ->
  (exists l', ends block value_tok (length head_txt)
              = (length head_txt + length tok) :: l') ->
  _patch_scalar_in_block block [key] value_str
  = (head_txt ++ value_str ++ rest, 1).
Proof.
  intros Hb Hp Hnone Hhead [l' Hv].
  assert (Hm : match2_at block (key_head [key]) value_tok p
               = Some (p, length head_txt, length head_txt + length tok)).
  { unfold match2_at. rewrite Hhead. cbn [first_of]. now rewrite Hv. }
  assert (Hs : search2 block (key_head [key]) value_tok 0
               = Some (p, length head_txt, length head_txt + length tok)).
  { unfold search2.
    apply (first_from_first _ _ _ p); [|exact Hm|lia|].
    - intros k Hk. unfold match2_at. now rewrite (Hnone k Hk).
    - assert (length head_txt <= length block)
        by (rewrite Hb, length_app; lia).
      lia. }
  unfold _patch_scalar_in_block. rewrite Hs. f_equal.
  rewrite app_assoc, firstn_slice by exact Hp.
  assert (Hf : firstn (length head_txt) block = head_txt).
  { rewrite Hb, firstn_app, Nat.sub_diag, firstn_all. cbn [firstn].
    now rewrite app_nil_r. }
  assert (Hk : skipn (length head_txt + length tok) block = rest).
  { rewrite Hb, app_assoc, <- length_app, skipn_app, Nat.sub_diag, skipn_all.
    reflexivity. }
  rewrite Hf, Hk. reflexivity.
Qed.

(** The patcher on a text in which the key, in one of its two forms,
    is first matched at the end of [pre] and ends with [lead]. *)
Lemma patch_behind_key (block pre lead key w0 w rest tok value_str : text)
  (v : pyval) :
  block = lead ++ w0 ++ ":"%char :: w ++ tok ++ rest ->
  length pre <= length lead ->
  (forall k, k < length pre ->
     ends block (Alt (Seq (Ch DQ) (Seq (Lit key) (Ch DQ))) (Lit key)) k = []) ->
  ends block (Alt (Seq (Ch DQ) (Seq (Lit key) (Ch DQ))) (Lit key)) (length pre)
  = [length lead] ->
  forallb isspace w0 = true ->
  forallb isspace w = true ->
  _repr_hjson_scalar v = Ok tok ->
  well_formed_scalar v = true ->
  renders_quoted v || closes_token rest = true ->
  _patch_scalar_in_block block [key] value_str
  = (lead ++ w0 ++ ":"%char :: w ++ value_str ++ rest, 1).
Proof.
  intros Hb Hle Hnone Halt Hw0 Hw Hr Hwf Hq.
  destruct (rendered_token_head v tok Hr Hwf)
    as (c0 & tok' & Htok & H1 & H2 & H3).
  assert (Hb2 : block = lead ++ w0 ++ ":"%char :: w ++ c0 :: (tok' ++ rest)).
  { rewrite Hb, Htok. reflexivity. }
  destruct (head_rest_at block lead w0 w (tok' ++ rest) c0 Hb2 Hw0 Hw H1 H2 H3)
    as [lr Hrest].
  set (head_txt := lead ++ w0 ++ ":"%char :: w).
  assert (Hlen : length lead + length w0 + 1 + length w = length head_txt).
  { unfold head_txt. rewrite !length_app. cbn [length]. lia. }
  rewrite Hlen in Hrest.
  assert (Hbh : block = head_txt ++ tok ++ rest).
  { rewrite Hb. unfold head_txt. assoc. }
  replace (lead ++ w0 ++ ":"%char :: w ++ value_str ++ rest)
    with (head_txt ++ value_str ++ rest) by (unfold head_txt; assoc).
  apply (patch_located block head_txt tok rest value_str key (length pre) lr).
  - exact Hbh.
  - unfold head_txt. rewrite length_app. lia.
  - intros k Hk. unfold key_head, key_alt. cbn [map Alts].
    rewrite ends_Seq, (Hnone k Hk). reflexivity.
  - unfold key_head, key_alt. cbn [map Alts].
    rewrite ends_Seq, Halt. cbn [flat_map]. rewrite app_nil_r. exact Hrest.
  - destruct (rendered_token_at head_txt v tok rest Hr Hwf Hq) as [l' Hv].
    exists l'. rewrite Hbh. exact Hv.
Qed.

Lemma patch_quoted_entry (pre key w0 w rest : text) (v : pyval)
  (tok value_str : text) :
  absent_before key
    (pre ++ DQ :: key ++ DQ :: w0 ++ ":"%char :: w ++ tok ++ rest)
    (length pre + 1) = true ->
  forallb isspace w0 = true ->
  forallb isspace w = true ->
  _repr_hjson_scalar v = Ok tok ->
  well_formed_scalar v = true ->
  renders_quoted v || closes_token rest = true ->
  _patch_scalar_in_block
    (pre ++ DQ :: key ++ DQ :: w0 ++ ":"%char :: w ++ tok ++ rest)
    [key] value_str
  = (pre ++ DQ :: key ++ DQ :: w0 ++ ":"%char :: w ++ value_str ++ rest, 1).
Proof.
  intros Hfirst Hw0 Hw Hr Hwf Hq.
  set (block := pre ++ DQ :: key ++ DQ :: w0 ++ ":"%char :: w ++ tok ++ rest)
    in *.
  assert (Hnot : forall p, p < length pre + 1 -> ends block (Lit key) p = []).
  { intros p Hp. exact (absent_before_spec key block _ p Hfirst Hp). }
  assert (Hhere : ends block (Lit key) (length pre) = []) by (apply Hnot; lia).
  replace (pre ++ DQ :: key ++ DQ :: w0 ++ ":"%char :: w ++ value_str ++ rest)
    with ((pre ++ DQ :: key ++ [DQ]) ++ w0 ++ ":"%char :: w ++ value_str ++ rest)
    by assoc.
  apply (patch_behind_key block pre (pre ++ DQ :: key ++ [DQ]) key w0 w rest
           tok value_str v); try assumption.
  - unfold block. assoc.
  - rewrite length_app. lia.
  - intros k Hk. apply key_alt_none; [apply Hnot; lia|left; apply Hnot; lia].
  - rewrite (key_alt_quoted block pre key (w0 ++ ":"%char :: w ++ tok ++ rest)
               eq_refl Hhere).
    f_equal. rewrite length_app. cbn [length]. rewrite length_app.
    cbn [length]. lia.
Qed.

Lemma patch_bare_entry (pre key w0 w rest : text) (v : pyval)
  (tok value_str : text) :
  forallb (fun c => negb (Ascii.eqb c DQ)) key = true ->
  absent_before key (pre ++ key ++ w0 ++ ":"%char :: w ++ tok ++ rest)
    (length pre) = true ->
  forallb isspace w0 = true ->
  forallb isspace w = true ->
  _repr_hjson_scalar v = Ok tok ->
  well_formed_scalar v = true ->
  renders_quoted v || closes_token rest = true ->
  _patch_scalar_in_block
    (pre ++ key ++ w0 ++ ":"%char :: w ++ tok ++ rest) [key] value_str
  = (pre ++ key ++ w0 ++ ":"%char :: w ++ value_str ++ rest, 1).
Proof.
  intros Hkq Hfirst Hw0 Hw Hr Hwf Hq.
  set (block := pre ++ key ++ w0 ++ ":"%char :: w ++ tok ++ rest) in *.
  assert (Hnot : forall p, p < length pre -> ends block (Lit key) p = []).
  { intros p Hp. exact (absent_before_spec key block _ p Hfirst Hp). }
  destruct (space_run_head w0 (w ++ tok ++ rest) ":"%char Hw0 eq_refl)
    as (ct & tt & Htail & Hct).
  assert (Hkey : ends block (Lit key) (length pre) = [length pre + length key]).
  { unfold block. apply ends_Lit_at. }
  assert (Hafter : nth_error block (length pre + length key) = Some ct).
  { unfold block. rewrite Htail, app_assoc, <- length_app.
    apply nth_error_middle. }
  destruct (key_run_head key (w0 ++ ":"%char :: w ++ tok ++ rest) ct tt
              Hkq Htail Hct) as (c1 & t1 & Hhead & Hc1).
  assert (Hat : nth_error block (length pre) = Some c1).
  { unfold block. rewrite Hhead. apply nth_error_middle. }
  replace (pre ++ key ++ w0 ++ ":"%char :: w ++ value_str ++ rest)
    with ((pre ++ key) ++ w0 ++ ":"%char :: w ++ value_str ++ rest) by assoc.
  apply (patch_behind_key block pre (pre ++ key) key w0 w rest
           tok value_str v); try assumption.
  - unfold block. assoc.
  - rewrite length_app. lia.
  - intros k Hk. apply key_alt_none; [apply Hnot; lia|].
    destruct (Nat.eq_dec (S k) (length pre)) as [E|E].
    + right. exists (length pre + length key), ct. rewrite E. auto.
    + left. apply Hnot. lia.
  - rewrite (key_alt_bare block pre key (w0 ++ ":"%char :: w ++ tok ++ rest)
               c1 eq_refl Hat Hc1).
    now rewrite length_app.
Qed.

(** The scalar patcher on a field whose key is first met where the field
    stands: the value token is replaced, the rest of the text stays. *)
Lemma patch_entry_value (pre : text) (quoted : bool) (key w0 w rest : text)
  (v : pyval) (tok value_str : text) :
  forallb (fun c => negb (Ascii.eqb c DQ)) key = true ->
  absent_before key (entry pre quoted key w0 w tok rest)
    (length pre + length (key_quote quoted)) = true ->
  forallb isspace w0 = true ->
  forallb isspace w = true ->
  _repr_hjson_scalar v = Ok tok ->
  well_formed_scalar v = true ->
  renders_quoted v || closes_token rest = true ->
  _patch_scalar_in_block (entry pre quoted key w0 w tok rest) [key] value_str
  = (entry pre quoted key w0 w value_str rest, 1).
Proof.
  intros Hkq Hfirst Hw0 Hw Hr Hwf Hq.
  destruct quoted; unfold entry, key_quote in *; cbn [app length] in *.
  - now apply (patch_quoted_entry pre key w0 w rest v tok value_str).
  - rewrite Nat.add_0_r in Hfirst.
    now apply (patch_bare_entry pre key w0 w rest v tok value_str).
Qed.

(** C2, as amended.  Take an object text in which a key, written between
    double quotes or bare and standing at no earlier offset of the text,
    is followed by white space, a colon, white space and the value as
    [_repr_hjson_scalar] renders it (a number or a boolean being followed
    by a comma, a line end, a closing brace or bracket, or the end of the
    text).  Patching that key with the rendered value returns the text
    unchanged, byte for byte, and reports one replacement. *)
Theorem patch_scalar_own_value (pre : text) (quoted : bool)
  (key w0 w rest : text) (v : pyval) (tok : text) :
  forallb (fun c => negb (Ascii.eqb c DQ)) key = true ->
  absent_before key (entry pre quoted key w0 w tok rest)
    (length pre + length (key_quote quoted)) = true ->
  forallb isspace w0 = true ->
  forallb isspace w = true ->
  _repr_hjson_scalar v = Ok tok ->
  well_formed_scalar v = true ->
  renders_quoted v || closes_token rest = true ->
  _patch_scalar_in_block (entry pre quoted key w0 w tok rest) [key] tok
  = (entry pre quoted key w0 w tok rest, 1).
Proof.
  intros Hkq Hfirst Hw0 Hw Hr Hwf Hq.
  now apply (patch_entry_value pre quoted key w0 w rest v tok tok).
Qed.

(** The bare key [hull] of [bare_block], with a blank on each side of its
    colon, patched with its own value [120]. *)
Lemma patch_scalar_own_value_witness :
  _patch_scalar_in_block bare_block [str "hull"] (str "120") = (bare_block, 1).
Proof.
  apply (patch_scalar_own_value (str "{") false (str "hull") (str " ")
           (str " ") (doc ", ~n~: 2}") (PInt 120) (str "120"));
    vm_compute; reflexivity.
Defined.

(** The same with a key between double quotes and a string value. *)
Example patch_quoted_key_own_value :
  _patch_scalar_in_block block_a [str "side"] (doc "~TSN~") = (block_a, 1).
Proof.
  apply (patch_entry_value (doc "{~Key~:~a~,") true (str "side") [] []
           (str "}") (PStr (str "TSN")) (doc "~TSN~") (doc "~TSN~"));
    vm_compute; reflexivity.
Qed.

(** C2, as stated, fails in each of these ways.  A string written between
    single quotes is rendered between double quotes.  A key that stands
    earlier in the text, here at the end of another key, is patched
    there.  A number followed by a blank loses the blank, and a value
    behind a comment and a blank loses the blank in front of it. *)
Lemma patch_scalar_own_value_fails :
  (_repr_hjson_scalar (PStr (str "abc")) = Ok (doc "~abc~")
   /\ _patch_scalar_in_block single_quoted_block [str "name"] (doc "~abc~")
      = (doc "{~name~: ~abc~}", 1)
   /\ doc "{~name~: ~abc~}" <> single_quoted_block)
  /\ (_repr_hjson_scalar (PInt 2) = Ok (str "2")
      /\ _patch_scalar_in_block inside_block [str "side"] (str "2")
         = (doc "{inside: 2, side: 2}", 1)
      /\ doc "{inside: 2, side: 2}" <> inside_block)
  /\ (_repr_hjson_scalar (PInt 1) = Ok (str "1")
      /\ _patch_scalar_in_block blank_block [str "n"] (str "1")
         = (doc "{~n~: 1}", 1)
      /\ doc "{~n~: 1}" <> blank_block)
  /\ (_patch_scalar_in_block comment_block [str "n"] (str "1")
      = (doc "{~n~: /* count */1}", 1)
      /\ doc "{~n~: /* count */1}" <> comment_block).
Proof.
  repeat split; try (vm_compute; reflexivity);
    intros H; vm_compute in H; discriminate.
Qed.

End RoundTripFacts.

(** ** Records and fields that are not there *)

Module MissingFacts.

Import Scanner Region FlowMaps Locator Patcher Render Banner Spec Examples.

(** C5.  The ship list of [commented_fleet] holds the records [a] and
    [b]; no record has the key [d], which a comment inside record [a]
    names.  Deleting [d] returns [True] and removes record [a]; saving a
    ship [d] inserts nothing and overwrites the side of record [a].
    Without the comment, in [fleet_doc], the delete of [d] returns
    [False] and leaves the text as it is, and saving the ship [d]
    appends it to the list. *)
Theorem missing_key_named_in_comment :
  _extract_ship_list_region commented_fleet = Done (Some (18, 111))
  /\ map (fun sp => slice commented_fleet (fst sp) (snd sp))
         (fst (_iter_top_level_flow_maps commented_fleet 18 111))
     = [commented_block_a; block_b]
  /\ _iter_object_spans_for_key commented_fleet (str "d") = Done [(24, 73)]
  /\ slice commented_fleet 24 73 = commented_block_a
  /\ _surgical_delete_ship_by_key (Some commented_fleet) (str "d")
     = Done (true, Some commented_fleet_without_a)
  /\ _surgical_save_current_ship loads_fleet lower no_container_str stamp
       (Some commented_fleet) (ship "d" "Pirate")
       [(str "side", PStr (str "Pirate"))]
     = Done (Ok tt,
             Some (_upsert_editor_banner_simple stamp commented_fleet_a_pirate))
  /\ _surgical_delete_ship_by_key (Some fleet_doc) (str "d")
     = Done (false, Some fleet_doc)
  /\ _surgical_save_current_ship loads_fleet lower no_container_str stamp
       (Some fleet_doc) (ship "d" "Pirate")
       [(str "side", PStr (str "Pirate"))]
     = Done (Ok tt, Some (_upsert_editor_banner_simple stamp fleet_with_pirate)).
Proof. repeat split; vm_compute; reflexivity. Qed.

(** C6, as stated, fails for a value the update cannot render.  Record
    [a] of [fleet_doc] has no key [hull]; an update of [hull] with a
    dictionary and of [side] with a string raises [TypeError] and leaves
    the text as it is: the side is not patched. *)
Lemma absent_key_with_dict_value_raises :
  contains block_a (str "hull") = false
  /\ renders (str "hull") (PDict []) = false
  /\ _surgical_save_current_ship loads_fleet lower no_container_str stamp
       (Some fleet_doc) (ship "a" "TSN")
       [(str "hull", PDict []); (str "side", PStr (str "USFP"))]
     = Done (Raise (TypeError "_repr_hjson_scalar received non-scalar"),
             Some fleet_doc)
  /\ _surgical_save_current_ship loads_fleet lower no_container_str stamp
       (Some fleet_doc) (ship "a" "TSN")
       [(str "side", PStr (str "USFP"))]
     <> Done (Raise (TypeError "_repr_hjson_scalar received non-scalar"),
              Some fleet_doc).
Proof.
  repeat split; try (vm_compute; reflexivity).
  intros H. vm_compute in H. discriminate.
Qed.

End MissingFacts.
